(** * Spotify liked-tracks exporter: the incremental synchronisation engine

    A shallow embedding of [src/spotify-service.ts] (the paginated walkers
    and the batched artist lookup) and of [updateLikedSongsSheet] (the
    orchestration and the sheet writer), followed by the properties of the
    natural-language specification.

    Modelling conventions.
    - The remote API is an [Upstream]: for every URL, the status code the
      server answers with and the outcome of [JSON.parse] on the body
      ([None] when parsing throws), already cast to the declared response
      shape, as the source does with [as T].
    - The script's surroundings are a [World]: whether the OAuth2 service
      currently grants access, the list of URLs handed to
      [UrlFetchApp.fetch] so far (oldest first), and the spreadsheet.
    - A JavaScript [Set<string>] keeps insertion order; it is an
      insertion-ordered list without duplicates ([JsSet]).  The
      [Map<string, string[]>] of genres is only read with [get] and written
      with [set], so it is a [gmap].
    - The [while] loops that follow the [next] cursor are bounded by a fuel
      argument, one unit per page: [None] means the fuel ran out, which no
      JavaScript value corresponds to.
    - [Utilities.sleep] and [console.*] have no effect on any value and are
      left out.  Exceptions raised by the collaborators themselves
      (network failure inside [UrlFetchApp.fetch], a spreadsheet write that
      throws, unset client credentials) are outside the model. *)

From Stdlib Require Import ZArith String List Bool Lia.
From Stdlib Require QArith.
From stdpp Require Import base tactics option list gmap strings pretty.
Import ListNotations.
Local Open Scope string_scope.
Local Open Scope list_scope.
Local Open Scope Z_scope.
Local Open Scope nat_scope.

(** ** JavaScript values *)

(** Truthiness of a string: every string but the empty one. *)
Definition truthy (s : string) : bool := negb (String.eqb s "").

(** Truthiness of a [string | null]. *)
Definition truthyOpt (o : option string) : bool :=
  match o with
  | Some s => truthy s
  | None => false
  end.

(** [a || ''] on a [string | undefined]. *)
Definition orEmpty (o : option string) : string :=
  match o with
  | Some s => if truthy s then s else ""
  | None => ""
  end.

(** [Array.prototype.join]. *)
Definition join (sep : string) (l : list string) : string := String.concat sep l.

(** [Array.prototype.slice(i, j)] for [0 <= i <= j]. *)
Definition slice {A} (i j : nat) (l : list A) : list A := take (j - i) (drop i l).

Module JsSet.
(** [Set<string>]: the elements in insertion order. *)
Definition t := list string.
Definition empty : t := [].
Definition has (x : string) (s : t) : bool := bool_decide (x ∈ s).
Definition add (x : string) (s : t) : t := if has x s then s else s ++ [x].
Definition toArray (s : t) : list string := s.
Definition size (s : t) : nat := length s.
End JsSet.

(** ** Data model (the interfaces of spotify-service.ts) *)

Record SpotifyArtist := {
  artist_id : string;
  artist_name : string;
  genres : option (list string)  (* genres?: string[] *)
}.

Record SpotifyAlbum := {
  album_name : string;
  release_date : string
}.

Record SpotifyTrack := {
  track_id : string;
  track_name : string;
  artists : list SpotifyArtist;
  album : SpotifyAlbum;
  external_urls : option string  (* external_urls?.spotify *)
}.

Record SpotifySavedTrackObject := {
  added_at : string;
  track : SpotifyTrack
}.

Record SpotifySavedTracksResponse := {
  items : option (list SpotifySavedTrackObject);  (* tested with [if (pageData.items)] *)
  next : option string                            (* string | null *)
}.

(** The [artists] array of the /artists answer; the source guards each
    element with [artist && ...], so an element may be [null]. *)
Record SpotifyArtistsResponse := {
  response_artists : list (option SpotifyArtist)
}.

(** ** The surroundings *)

Record HTTPResponse (T : Type) := {
  getResponseCode : Z;
  parsedBody : option T  (* JSON.parse(getContentText()); None when it throws *)
}.
Arguments getResponseCode {T} _.
Arguments parsedBody {T} _.

Record Upstream := {
  savedTracksAt : string -> HTTPResponse SpotifySavedTracksResponse;
  artistsAt : string -> HTTPResponse SpotifyArtistsResponse
}.

(** The active spreadsheet, as far as the sheet "Spotify Liked Songs" goes.
    A sheet is its data range: the rows, each a list of cells. *)
Inductive Store :=
| NoSpreadsheet
| SheetAbsent
| SheetPresent (grid : list (list string)).

Record World := {
  hasAccess : bool;
  fetched : list string;
  store : Store
}.

(** [UrlFetchApp.fetch(url, ...)]: the request is recorded. *)
Definition fetch (url : string) (w : World) : World :=
  {| hasAccess := hasAccess w; fetched := fetched w ++ [url]; store := store w |}.

(** [resetSpotifyService()]: the stored token is dropped. *)
Definition resetSpotifyService (w : World) : World :=
  {| hasAccess := false; fetched := fetched w; store := store w |}.

Definition setStore (s : Store) (w : World) : World :=
  {| hasAccess := hasAccess w; fetched := fetched w; store := s |}.

(** ** spotify-service.ts *)

Definition API_BASE : string := "https://api.spotify.com/v1/".
Definition SAVED_TRACKS_URL : string := "https://api.spotify.com/v1/me/tracks?limit=50".

(** [fetchSpotifyApi<SpotifyArtistsResponse>(endpoint)]. *)
Definition fetchSpotifyApi (up : Upstream) (endpoint : string) (w : World)
  : option SpotifyArtistsResponse * World :=
  if negb (hasAccess w) then (None, w)
  else
    let url := API_BASE +:+ endpoint in
    let w1 := fetch url w in
    let response := artistsAt up url in
    let responseCode := getResponseCode response in
    if (responseCode =? 200)%Z || (responseCode =? 201)%Z then
      (parsedBody response, w1)
    else if (responseCode =? 401)%Z then
      (None, resetSpotifyService w1)
    else (None, w1).

(** [getArtistsDetails(artistIds)]; [None] as argument is a missing list,
    [None] as result is [null]. *)
Definition getArtistsDetails (up : Upstream) (artistIds : option (list string)) (w : World)
  : option (list (option SpotifyArtist)) * World :=
  match artistIds with
  | None => (Some [], w)
  | Some ids =>
    if length ids =? 0 then (Some [], w)
    else
      let ids := if 50 <? length ids then slice 0 50 ids else ids in
      let idsParam := join "," ids in
      let '(response, w1) := fetchSpotifyApi up ("artists?ids=" +:+ idsParam) w in
      match response with
      | Some r => (Some (response_artists r), w1)
      | None => (None, w1)
      end
  end.

(** The [for (const item of pageData.items)] loop of [getNewSavedTracks]
    with its [break]: the new value of [newTracks] and of
    [foundExistingTrack]. *)
Fixpoint scanItems (existingTrackIds : JsSet.t) (pageItems : list SpotifySavedTrackObject)
    (newTracks : list SpotifySavedTrackObject) : list SpotifySavedTrackObject * bool :=
  match pageItems with
  | [] => (newTracks, false)
  | item :: rest =>
    if JsSet.has (track_id (track item)) existingTrackIds then (newTracks, true)
    else scanItems existingTrackIds rest (newTracks ++ [item])
  end.

(** The [while (nextUrl && !foundExistingTrack)] loop of [getNewSavedTracks]. *)
Fixpoint getNewSavedTracks_loop (fuel : nat) (up : Upstream) (existingTrackIds : JsSet.t)
    (newTracks : list SpotifySavedTrackObject) (nextUrl : option string)
    (foundExistingTrack : bool) (w : World)
  : option (option (list SpotifySavedTrackObject) * World) :=
  if truthyOpt nextUrl && negb foundExistingTrack then
    match fuel with
    | O => None
    | S fuel' =>
      if negb (hasAccess w) then Some (None, w)
      else
        let url := default "" nextUrl in
        let w1 := fetch url w in
        let response := savedTracksAt up url in
        let responseCode := getResponseCode response in
        if (responseCode =? 200)%Z then
          match parsedBody response with
          | Some pageData =>
            let '(newTracks', found') :=
              match items pageData with
              | Some pageItems => scanItems existingTrackIds pageItems newTracks
              | None => (newTracks, foundExistingTrack)
              end in
            let nextUrl' := if found' then None else next pageData in
            getNewSavedTracks_loop fuel' up existingTrackIds newTracks' nextUrl' found' w1
          | None => Some (None, w1)
          end
        else if (responseCode =? 401)%Z then Some (None, resetSpotifyService w1)
        else if (responseCode =? 429)%Z then Some (None, w1)
        else Some (None, w1)
    end
  else Some (Some newTracks, w).

Definition getNewSavedTracks (fuel : nat) (up : Upstream) (existingTrackIds : JsSet.t)
    (w : World) : option (option (list SpotifySavedTrackObject) * World) :=
  getNewSavedTracks_loop fuel up existingTrackIds [] (Some SAVED_TRACKS_URL) false w.

(** The [while (nextUrl)] loop of [getAllMySavedTracks]. *)
Fixpoint getAllMySavedTracks_loop (fuel : nat) (up : Upstream)
    (allTracks : list SpotifySavedTrackObject) (nextUrl : option string) (w : World)
  : option (option (list SpotifySavedTrackObject) * World) :=
  if truthyOpt nextUrl then
    match fuel with
    | O => None
    | S fuel' =>
      if negb (hasAccess w) then Some (None, w)
      else
        let url := default "" nextUrl in
        let w1 := fetch url w in
        let response := savedTracksAt up url in
        let responseCode := getResponseCode response in
        if (responseCode =? 200)%Z then
          match parsedBody response with
          | Some pageData =>
            let allTracks' :=
              match items pageData with
              | Some pageItems => allTracks ++ pageItems
              | None => allTracks
              end in
            getAllMySavedTracks_loop fuel' up allTracks' (next pageData) w1
          | None => Some (None, w1)
          end
        else if (responseCode =? 401)%Z then Some (None, resetSpotifyService w1)
        else if (responseCode =? 429)%Z then Some (None, w1)
        else Some (None, w1)
    end
  else Some (Some allTracks, w).

Definition getAllMySavedTracks (fuel : nat) (up : Upstream) (w : World)
  : option (option (list SpotifySavedTrackObject) * World) :=
  getAllMySavedTracks_loop fuel up [] (Some SAVED_TRACKS_URL) w.

(** ** updateLikedSongsSheet *)

Definition header : list string :=
  ["Added At"; "Release Date"; "Track Name"; "Artists"; "Album Name";
   "Track ID"; "Genres"; "Track Link"].

(** [Array.prototype.indexOf]; [None] is [-1]. *)
Fixpoint indexOf_from (x : string) (l : list string) (i : nat) : option nat :=
  match l with
  | [] => None
  | y :: l' => if String.eqb y x then Some i else indexOf_from x l' (S i)
  end.

Definition indexOf (x : string) (l : list string) : option nat := indexOf_from x l 0.

(** [ss.getSheetByName('Spotify Liked Songs')] followed by
    [sheet.getDataRange().getValues()].  The grid without rows is the
    sheet the branch [lastRow === 0] of the source is written for; a sheet
    whose data range is one blank cell is the grid with one blank row. *)
Definition getSheetByName (s : Store) : option (list (list string)) :=
  match s with
  | SheetPresent grid => Some grid
  | _ => None
  end.

(** The loop [for (let i = 1; i < data.length; i++)] over the rows below the
    first one: a cell is recorded when it is there and truthy. *)
Fixpoint readTrackIds (trackIdColumnIndex : nat) (rows : list (list string))
    (existingTrackIds : JsSet.t) : JsSet.t :=
  match rows with
  | [] => existingTrackIds
  | row :: rest =>
    readTrackIds trackIdColumnIndex rest
      (match row !! trackIdColumnIndex with
       | Some cell => if truthy cell then JsSet.add cell existingTrackIds
                      else existingTrackIds
       | None => existingTrackIds
       end)
  end.

(** The block "Get Existing Track IDs from Sheet": [existingTrackIds] and
    [lastRow]. *)
Definition readExisting (sheet : option (list (list string))) : JsSet.t * nat :=
  match sheet with
  | Some data =>
    let lastRow := length data in
    if 1 <? lastRow then
      match indexOf "Track ID" header with
      | Some trackIdColumnIndex =>
        (readTrackIds trackIdColumnIndex (drop 1 data) JsSet.empty, lastRow)
      | None => (JsSet.empty, lastRow)
      end
    else (JsSet.empty, lastRow)
  | None => (JsSet.empty, 0)
  end.

(** The two nested [forEach] that fill [artistIds]. *)
Definition collectArtistIds (newTracks : list SpotifySavedTrackObject) : JsSet.t :=
  fold_left
    (fun ids item =>
       fold_left
         (fun ids artist =>
            if truthy (artist_id artist) then JsSet.add (artist_id artist) ids else ids)
         (artists (track item)) ids)
    newTracks JsSet.empty.

Definition chunkSize : nat := 50.

(** The callback of [artistsDetails.forEach]: an artist that is there, with
    an id and a genre list, is stored, overwriting what the map had. *)
Definition recordArtist (artistGenresMap : gmap string (list string))
    (a : option SpotifyArtist) : gmap string (list string) :=
  match a with
  | Some artist =>
    if truthy (artist_id artist) then
      match genres artist with
      | Some gs => <[artist_id artist := gs]> artistGenresMap
      | None => artistGenresMap
      end
    else artistGenresMap
  | None => artistGenresMap
  end.

Definition recordGenres (artistGenresMap : gmap string (list string))
    (artistsDetails : list (option SpotifyArtist)) : gmap string (list string) :=
  fold_left recordArtist artistsDetails artistGenresMap.

(** One turn of the chunk loop on [chunk]. *)
Definition lookupChunk (up : Upstream) (chunk : list string)
    (st : gmap string (list string) * World) : gmap string (list string) * World :=
  let '(artistsDetails, w1) := getArtistsDetails up (Some chunk) (snd st) in
  match artistsDetails with
  | Some details => (recordGenres (fst st) details, w1)
  | None => (fst st, w1)
  end.

(** [for (let i = 0; i < uniqueArtistIds.length; i += chunkSize)].  The
    bound [n] counts the turns still allowed; [length uniqueArtistIds] of
    them are always enough, since [i] grows by 50 a turn. *)
Fixpoint fetchGenres_loop (n : nat) (up : Upstream) (uniqueArtistIds : list string)
    (i : nat) (st : gmap string (list string) * World)
  : gmap string (list string) * World :=
  match n with
  | O => st
  | S n' =>
    if i <? length uniqueArtistIds then
      let chunk := slice i (i + chunkSize) uniqueArtistIds in
      fetchGenres_loop n' up uniqueArtistIds (i + chunkSize) (lookupChunk up chunk st)
    else st
  end.

(** The block "Fetch Artist Genres for New Tracks Only". *)
Definition fetchGenres (up : Upstream) (uniqueArtistIds : list string) (w : World)
  : gmap string (list string) * World :=
  if 0 <? length uniqueArtistIds then
    fetchGenres_loop (length uniqueArtistIds) up uniqueArtistIds 0 (∅, w)
  else (∅, w).

(** [trackGenres]: the genres of the track's artists, in the order a
    [Set] hands them back. *)
Definition trackGenres (artistGenresMap : gmap string (list string)) (t : SpotifyTrack)
  : JsSet.t :=
  fold_left
    (fun s artist =>
       match artistGenresMap !! artist_id artist with
       | Some gs => fold_left (fun s g => JsSet.add g s) gs s
       | None => s
       end)
    (artists t) JsSet.empty.

(** The row of one item, as [newTracks.map] builds it.  [release_date] is
    a string, on which [|| ''] is the identity. *)
Definition renderRow (artistGenresMap : gmap string (list string))
    (item : SpotifySavedTrackObject) : list string :=
  let t := track item in
  let artistsString := join ", " (map artist_name (artists t)) in
  let trackLink := orEmpty (external_urls t) in
  let genresString := join ", " (JsSet.toArray (trackGenres artistGenresMap t)) in
  let releaseDate := release_date (album t) in
  [added_at item; releaseDate; track_name t; artistsString; album_name (album t);
   track_id t; genresString; trackLink].

(** [sheet.getRange(1, 1, 1, n).getValues()[0]]: the first [n] cells of
    row 1, blank where the sheet has none. *)
Definition firstRowValues (n : nat) (grid : list (list string)) : list string :=
  take n (default [] (grid !! 0) ++ replicate n "").

(** [sheet.getRange(1, 1, 1, header.length).setValues([row])]. *)
Definition setFirstRow (row : list string) (grid : list (list string))
  : list (list string) :=
  (row ++ drop (length row) (default [] (grid !! 0))) :: drop 1 grid.

(** The [if (!sheet) ... else if (lastRow === 0) ... else if (...)] chain
    that makes sure the sheet and its header are there. *)
Definition ensureHeader (sheet : option (list (list string))) (lastRow : nat)
  : list (list string) :=
  match sheet with
  | None => [] ++ [header]
  | Some grid =>
    if lastRow =? 0 then grid ++ [header]
    else if (lastRow =? 1)
            && String.eqb (join "" (firstRowValues (length header) grid)) "" then
      setFirstRow header grid
    else grid
  end.

(** [sheet.insertRowsAfter(1, n)] then [getRange(2, 1, n, 8).setValues(newData)]. *)
Definition insertRowsAfterFirst (newData grid : list (list string)) : list (list string) :=
  take 1 grid ++ newData ++ drop 1 grid.

(** The [try] block: header, rows, insertion. *)
Definition writeNewTracks (sheet : option (list (list string))) (lastRow : nat)
    (artistGenresMap : gmap string (list string))
    (newTracks : list SpotifySavedTrackObject) : list (list string) :=
  let grid := ensureHeader sheet lastRow in
  let newData := map (renderRow artistGenresMap) newTracks in
  if 0 <? length newData then insertRowsAfterFirst newData grid else grid.

(** [isSpotifyAuthorized()]. *)
Definition isSpotifyAuthorized (w : World) : bool := hasAccess w.

Definition updateLikedSongsSheet (fuel : nat) (up : Upstream) (w : World) : option World :=
  if negb (isSpotifyAuthorized w) then Some w
  else
    match store w with
    | NoSpreadsheet => Some w
    | ss =>
      let sheet := getSheetByName ss in
      let '(existingTrackIds, lastRow) := readExisting sheet in
      match getNewSavedTracks fuel up existingTrackIds w with
      | None => None
      | Some (None, w1) => Some w1
      | Some (Some newTracks, w1) =>
        if length newTracks =? 0 then Some w1
        else
          let uniqueArtistIds := JsSet.toArray (collectArtistIds newTracks) in
          let '(artistGenresMap, w2) := fetchGenres up uniqueArtistIds w1 in
          Some (setStore (SheetPresent (writeNewTracks sheet lastRow artistGenresMap newTracks)) w2)
      end
    end.

(** * Vocabulary of the statements *)

(** The items of a page; a page without an [items] field brings none. *)
Definition pageItems (p : SpotifySavedTracksResponse) : list SpotifySavedTrackObject :=
  default [] (items p).

(** The item's id is in the known set. *)
Definition known (knownIds : JsSet.t) (item : SpotifySavedTrackObject) : bool :=
  JsSet.has (track_id (track item)) knownIds.

(** A page sequence: each page with the URL it is served at. *)
Definition Chain := list (string * SpotifySavedTracksResponse).

Definition allItems (chain : Chain) : list SpotifySavedTrackObject :=
  concat (map (fun up => pageItems (snd up)) chain).

Definition urls (chain : Chain) : list string := map fst chain.

(** The upstream serves [chain] from the cursor [nextUrl] on: every page
    is answered with status 200 and a body that parses, and the [next] of
    each page is the URL of the following one.  Nothing is asked of the
    [next] of the last page. *)
Fixpoint serves (up : Upstream) (nextUrl : option string) (chain : Chain) : Prop :=
  match chain with
  | [] => True
  | (u, p) :: rest =>
    nextUrl = Some u /\ truthy u = true /\
    getResponseCode (savedTracksAt up u) = 200%Z /\
    parsedBody (savedTracksAt up u) = Some p /\
    serves up (next p) rest
  end.

(** The world after the requests [us] were made, in that order. *)
Definition afterFetches (us : list string) (w : World) : World :=
  {| hasAccess := hasAccess w; fetched := fetched w ++ us; store := store w |}.


(** The items a scan keeps: those before the first known one. *)
Fixpoint newPrefix (K : JsSet.t) (l : list SpotifySavedTrackObject)
  : list SpotifySavedTrackObject :=
  match l with
  | [] => []
  | x :: l' => if known K x then [] else x :: newPrefix K l'
  end.

(** A walk from the cursor [nextUrl] that ends normally after exactly the
    pages of [chain]: every page is answered with status 200 and a body
    that parses, the pages are linked by [next], and the walk ends at the
    last page either because that page holds a known item (the boundary) or
    because it has no [next] (no more pages).  No page before the last one
    holds a known item. *)
Fixpoint completes (up : Upstream) (K : JsSet.t) (nextUrl : option string)
    (chain : Chain) : Prop :=
  match chain with
  | [] => False
  | (u, p) :: rest =>
    nextUrl = Some u /\ truthy u = true /\
    getResponseCode (savedTracksAt up u) = 200%Z /\
    parsedBody (savedTracksAt up u) = Some p /\
    if existsb (known K) (pageItems p) then rest = []
    else match rest with
         | [] => truthyOpt (next p) = false
         | _ => completes up K (next p) rest
         end
  end.

(** The cursor, starting at [nextUrl], arrives at the URL [u] after the
    pages of [front], all of them answered with status 200, parsed, and
    free of known items. *)
Fixpoint reaches (up : Upstream) (K : JsSet.t) (nextUrl : option string)
    (front : Chain) (u : string) : Prop :=
  match front with
  | [] => nextUrl = Some u /\ truthy u = true
  | (u0, p0) :: rest =>
    nextUrl = Some u0 /\ truthy u0 = true /\
    getResponseCode (savedTracksAt up u0) = 200%Z /\
    parsedBody (savedTracksAt up u0) = Some p0 /\
    existsb (known K) (pageItems p0) = false /\
    reaches up K (next p0) rest u
  end.

(** The request for the page at [u] fails: any status but 200, or a body
    that does not parse. *)
Definition pageFails (up : Upstream) (u : string) : Prop :=
  getResponseCode (savedTracksAt up u) <> 200%Z \/
  parsedBody (savedTracksAt up u) = None.

(** The URL [getArtistsDetails] requests for a list of at most 50 ids. *)
Definition artistsUrl (ids : list string) : string :=
  API_BASE +:+ ("artists?ids=" +:+ join "," ids).

(** The arguments the chunk loop hands to [getArtistsDetails], turn by
    turn, from index [i] on and with [n] turns allowed. *)
Fixpoint chunksFrom (n : nat) (ids : list string) (i : nat) : list (list string) :=
  match n with
  | O => []
  | S n' =>
    if i <? length ids then
      slice i (i + chunkSize) ids :: chunksFrom n' ids (i + chunkSize)
    else []
  end.

Definition chunks (ids : list string) : list (list string) :=
  chunksFrom (length ids) ids 0.

(** The sizes of the chunks of a list of [len] elements. *)
Fixpoint chunkSizesFrom (n len i : nat) : list nat :=
  match n with
  | O => []
  | S n' =>
    if i <? len then min chunkSize (len - i) :: chunkSizesFrom n' len (i + chunkSize)
    else []
  end.

(** De-duplication that keeps the first occurrence of every element. *)
Fixpoint dedupFirst (l : list string) : list string :=
  match l with
  | [] => []
  | x :: l' => x :: List.filter (fun y => negb (String.eqb y x)) (dedupFirst l')
  end.

(** The genres the index resolves for an artist; none when the artist is
    not in the index. *)
Definition genresOf (artistGenresMap : gmap string (list string)) (a : SpotifyArtist)
  : list string :=
  default [] (artistGenresMap !! artist_id a).

(** The genres of a track's artists, artist after artist. *)
Definition artistGenres (artistGenresMap : gmap string (list string)) (t : SpotifyTrack)
  : list string :=
  concat (map (genresOf artistGenresMap) (artists t)).

(** The rows of the sheet "Spotify Liked Songs"; none when it is absent. *)
Definition gridOf (s : Store) : list (list string) := default [] (getSheetByName s).

(** The rows below the first one. *)
Definition dataRows (s : Store) : list (list string) := drop 1 (gridOf s).

(** The key set a run reads from the store. *)
Definition existingOf (s : Store) : JsSet.t := fst (readExisting (getSheetByName s)).

(** The Track ID column of the rows below the first one; a row too short
    to have the cell counts as blank. *)
Definition keyColumn (s : Store) : list string :=
  map (fun row => default "" (row !! 5)) (dataRows s).

(** The genre index a run builds for the new tracks [newTracks], starting
    in the world [w1] the walk left. *)
Definition genreIndex (up : Upstream) (newTracks : list SpotifySavedTrackObject)
    (w1 : World) : gmap string (list string) :=
  fst (fetchGenres up (JsSet.toArray (collectArtistIds newTracks)) w1).

(** The first row a run leaves: the header when the sheet was absent or
    had no row; the header over the first eight cells when the only row
    had them blank; the row that was there otherwise. *)
Definition firstRowAfter (s : Store) : list string :=
  match ensureHeader (getSheetByName s) (length (gridOf s)) with
  | first :: _ => first
  | [] => header
  end.

(** Every cell is blank. *)
Definition blank (cells : list string) : Prop := Forall (fun c => c = "") cells.

(** The Added At column of the rows below the first one; a row without
    cells counts as blank. *)
Definition addedAtColumn (s : Store) : list string :=
  map (fun row => default "" (row !! 0)) (dataRows s).

(** Descending recency: every timestamp is at least as recent as the one
    after it, [recent a b] saying that [a] is at least as recent as [b]. *)
Fixpoint newestFirst (recent : string -> string -> Prop) (l : list string) : Prop :=
  match l with
  | [] => True
  | x :: l' =>
    match l' with
    | [] => True
    | y :: _ => recent x y /\ newestFirst recent l'
    end
  end.

(** The order of timestamps written in one format, such as the ISO 8601
    instants of [added_at]: the order of the strings. *)
Definition atLeastAsRecent (a b : string) : Prop := String.leb b a = true.

(** The lookup of the chunk [c] is answered with the artists [r]: status
    200 or 201 and a body that parses. *)
Definition lookupAnswers (up : Upstream) (c : list string)
    (r : list (option SpotifyArtist)) : Prop :=
  (getResponseCode (artistsAt up (artistsUrl c)) = 200%Z \/
   getResponseCode (artistsAt up (artistsUrl c)) = 201%Z) /\
  parsedBody (artistsAt up (artistsUrl c)) = Some {| response_artists := r |}.

(** The lookup of the chunk [c] fails: a status other than 200 and 201, or
    a body that does not parse. *)
Definition lookupFails (up : Upstream) (c : list string) : Prop :=
  (getResponseCode (artistsAt up (artistsUrl c)) <> 200%Z /\
   getResponseCode (artistsAt up (artistsUrl c)) <> 201%Z) \/
  parsedBody (artistsAt up (artistsUrl c)) = None.

(** The answer [r] names the artist [id] once, with the genres [gs]. *)
Definition answeredIn (r : list (option SpotifyArtist)) (id : string) (gs : list string)
  : Prop :=
  exists a, Some a ∈ r /\ artist_id a = id /\ truthy id = true /\ genres a = Some gs /\
            (forall b, Some b ∈ r -> artist_id b = id -> b = a).

(** The Genres column of the rows below the first one. *)
Definition genresColumn (s : Store) : list string :=
  map (fun row => default "" (row !! 6)) (dataRows s).

(** * Sample data *)

Definition mkArtist (id : string) : SpotifyArtist :=
  {| artist_id := id; artist_name := id; genres := None |}.

Definition mkItem (id : string) (arts : list SpotifyArtist) : SpotifySavedTrackObject :=
  {| added_at := "2025-01-01T00:00:00Z";
     track := {| track_id := id; track_name := id; artists := arts;
                 album := {| album_name := "album"; release_date := "2024" |};
                 external_urls := Some ("https://open.spotify.com/track/" +:+ id) |} |}.

Definition answer {T} (code : Z) (body : option T) : HTTPResponse T :=
  {| getResponseCode := code; parsedBody := body |}.

Definition mkPage (its : list SpotifySavedTrackObject) (nxt : option string)
  : SpotifySavedTracksResponse :=
  {| items := Some its; next := nxt |}.

Definition noArtists : string -> HTTPResponse SpotifyArtistsResponse :=
  fun _ => answer 200 (Some {| response_artists := [] |}).

Definition signedIn (s : Store) : World :=
  {| hasAccess := true; fetched := []; store := s |}.

Definition signedOut : World :=
  {| hasAccess := false; fetched := []; store := SheetAbsent |}.

(** Three pages: [n1 n2], then [n3 k1 k2], then a page that answers 500. *)
Definition pageA : SpotifySavedTracksResponse :=
  mkPage [mkItem "n1" []; mkItem "n2" []] (Some "page2").
Definition pageB : SpotifySavedTracksResponse :=
  mkPage [mkItem "n3" []; mkItem "k1" []; mkItem "k2" []] (Some "page3").

Definition threePages : Upstream :=
  {| savedTracksAt := fun url =>
       if String.eqb url SAVED_TRACKS_URL then answer 200 (Some pageA)
       else if String.eqb url "page2" then answer 200 (Some pageB)
       else answer 500 None;
     artistsAt := noArtists |}.

(** 120 distinct artist ids. *)
Definition manyArtistIds : list string :=
  map (fun n => String (Ascii.ascii_of_nat n) EmptyString) (seq 1 120).

Definition rockPop : gmap string (list string) :=
  <["a2" := ["rock"; "pop"]]> (<["a1" := ["rock"]]> ∅).

(** A library with no saved track. *)
Definition emptyLibrary : Upstream :=
  {| savedTracksAt := fun _ => answer 200 (Some (mkPage [] None));
     artistsAt := noArtists |}.

(** A library holding [a b], the same library after [c d] were liked, and
    a sheet with a header and one older row. *)
Definition libraryAB : Upstream :=
  {| savedTracksAt := fun _ => answer 200 (Some (mkPage [mkItem "a" []; mkItem "b" []] None));
     artistsAt := noArtists |}.

Definition libraryCDAB : Upstream :=
  {| savedTracksAt := fun _ =>
       answer 200
         (Some (mkPage [mkItem "c" []; mkItem "d" []; mkItem "a" []; mkItem "b" []] None));
     artistsAt := noArtists |}.

Definition oldSheet : Store :=
  SheetPresent [header; renderRow ∅ (mkItem "old" [])].

(** A library whose only track has the empty string as id. *)
Definition blankIdLibrary : Upstream :=
  {| savedTracksAt := fun _ => answer 200 (Some (mkPage [mkItem "" []] None));
     artistsAt := noArtists |}.

(** A library of [a b c] in which a track was liked between the request
    for the first page and the request for the second: the second page
    starts with the item the first one ended with. *)
Definition shiftedLibrary : Upstream :=
  {| savedTracksAt := fun url =>
       if String.eqb url SAVED_TRACKS_URL
       then answer 200 (Some (mkPage [mkItem "a" []; mkItem "b" []] (Some "page2")))
       else answer 200 (Some (mkPage [mkItem "b" []; mkItem "c" []] None));
     artistsAt := noArtists |}.

(** Three tracks whose artists fill three chunks, and an upstream that
    answers the first chunk with [rock], the second with status 429 and the
    third with [pop]. *)
Definition artistWith (gs : list string) (id : string) : SpotifyArtist :=
  {| artist_id := id; artist_name := id; genres := Some gs |}.

Definition firstChunk : list string := take 50 manyArtistIds.
Definition secondChunk : list string := take 50 (drop 50 manyArtistIds).
Definition thirdChunk : list string := drop 100 manyArtistIds.

Definition threeTracks : list SpotifySavedTrackObject :=
  [mkItem "t1" (map mkArtist firstChunk);
   mkItem "t2" (map mkArtist secondChunk);
   mkItem "t3" (map mkArtist thirdChunk)].

Definition rockAnswer : list (option SpotifyArtist) :=
  map (fun id => Some (artistWith ["rock"] id)) firstChunk.

Definition popAnswer : list (option SpotifyArtist) :=
  map (fun id => Some (artistWith ["pop"] id)) thirdChunk.

Definition flakyGenres : Upstream :=
  {| savedTracksAt := fun _ => answer 200 (Some (mkPage threeTracks None));
     artistsAt := fun url =>
       if String.eqb url (artistsUrl firstChunk)
       then answer 200 (Some {| response_artists := rockAnswer |})
       else if String.eqb url (artistsUrl secondChunk)
       then answer 429 None
       else answer 200 (Some {| response_artists := popAnswer |}) |}.

(** The same three tracks against an upstream that answers the second
    chunk with status 401. *)
Definition revokedOnSecond : Upstream :=
  {| savedTracksAt := fun _ => answer 200 (Some (mkPage threeTracks None));
     artistsAt := fun url =>
       if String.eqb url (artistsUrl firstChunk)
       then answer 200 (Some {| response_artists := rockAnswer |})
       else if String.eqb url (artistsUrl secondChunk)
       then answer 401 None
       else answer 200 (Some {| response_artists := popAnswer |}) |}.

(** A library of [c b a], liked in March, February and January, and a
    sheet that has the row of [a]. *)
Definition mkItemAt (added id : string) : SpotifySavedTrackObject :=
  {| added_at := added; track := track (mkItem id []) |}.

Definition datedPage : SpotifySavedTracksResponse :=
  mkPage [mkItemAt "2025-03-01T00:00:00Z" "c"; mkItemAt "2025-02-01T00:00:00Z" "b";
          mkItemAt "2025-01-01T00:00:00Z" "a"] None.

Definition datedLibrary : Upstream :=
  {| savedTracksAt := fun _ => answer 200 (Some datedPage);
     artistsAt := noArtists |}.

Definition datedSheet : Store :=
  SheetPresent [header; renderRow ∅ (mkItemAt "2025-01-01T00:00:00Z" "a")].

(** A sheet whose data range is one blank cell. *)
Definition blankSheet : Store := SheetPresent [[""]].

(** * The rest of spotify-service.ts *)

(** [fetchSpotifyApi<T>(endpoint)] at any response shape [T]; [srv] is the
    part of the upstream that answers with that shape.  [fetchSpotifyApi]
    above is this function at [artistsAt up]. *)
Definition fetchSpotifyApiOf {T} (srv : string -> HTTPResponse T) (endpoint : string)
    (w : World) : option T * World :=
  if negb (hasAccess w) then (None, w)
  else
    let url := API_BASE +:+ endpoint in
    let w1 := fetch url w in
    let response := srv url in
    let responseCode := getResponseCode response in
    if (responseCode =? 200)%Z || (responseCode =? 201)%Z then
      (parsedBody response, w1)
    else if (responseCode =? 401)%Z then
      (None, resetSpotifyService w1)
    else (None, w1).

(** A JavaScript [number], as far as [Math.min], [Math.max] and a template
    literal tell numbers apart: not-a-number, the two infinities, an
    integer, and a finite number that is not an integer, which comes with
    the text [String(x)] has for it (the shortest decimal that reads back
    as the same double).  [Integer z] is printed in decimal, as JavaScript
    does for integers below 10^21. *)
Inductive JsNumber :=
| NaN
| Infinity (negative : bool)
| Integer (z : Z)
| Fraction (q : QArith_base.Q) (text : string).

Definition isNaN (x : JsNumber) : bool :=
  match x with
  | NaN => true
  | _ => false
  end.

(** The value of a finite number. *)
Definition valueOf (x : JsNumber) : QArith_base.Q :=
  match x with
  | Integer z => QArith_base.inject_Z z
  | Fraction q _ => q
  | _ => QArith_base.inject_Z 0
  end.

(** [a < b]; [false] when either is not a number. *)
Definition lessThan (a b : JsNumber) : bool :=
  match a, b with
  | NaN, _ | _, NaN => false
  | Infinity true, Infinity true => false
  | Infinity true, _ => true
  | _, Infinity true => false
  | Infinity false, _ => false
  | _, Infinity false => true
  | _, _ => negb (QArith_base.Qle_bool (valueOf b) (valueOf a))
  end.

(** [Math.min(a, b)] and [Math.max(a, b)]: not-a-number as soon as one
    argument is. *)
Definition Math_min (a b : JsNumber) : JsNumber :=
  if isNaN a || isNaN b then NaN else if lessThan b a then b else a.

Definition Math_max (a b : JsNumber) : JsNumber :=
  if isNaN a || isNaN b then NaN else if lessThan a b then b else a.

(** The text a template literal puts for a number. *)
Definition numberToString (x : JsNumber) : string :=
  match x with
  | NaN => "NaN"
  | Infinity false => "Infinity"
  | Infinity true => "-Infinity"
  | Integer z => pretty z
  | Fraction _ text => text
  end.

(** [validLimit] of [getMySavedTracks]; [None] is the omitted parameter,
    which takes the default 10. *)
Definition validLimit (limit : option JsNumber) : JsNumber :=
  let limit := default (Integer 10) limit in
  Math_max (Integer 1) (Math_min (Integer 50) limit).

(** [getMySavedTracks(limit = 10)].  The result [None] stands for the
    falsy results [null] (no answer) and [undefined] (an answer without
    [items]), which the callers do not tell apart. *)
Definition getMySavedTracks (up : Upstream) (limit : option JsNumber) (w : World)
  : option (list SpotifySavedTrackObject) * World :=
  let '(response, w1) :=
    fetchSpotifyApiOf (savedTracksAt up)
      ("me/tracks?limit=" +:+ numberToString (validLimit limit)) w in
  match response with
  | Some r => (items r, w1)
  | None => (None, w1)
  end.

(** The number is finite and lies between 1 and 50. *)
Definition between1and50 (x : JsNumber) : Prop :=
  match x with
  | Integer z => (1 <= z <= 50)%Z
  | Fraction q _ =>
    QArith_base.Qle (QArith_base.inject_Z 1) q /\ QArith_base.Qle q (QArith_base.inject_Z 50)
  | _ => False
  end.

(** A library whose first page is answered with status 201. *)
Definition created201 : Upstream :=
  {| savedTracksAt := fun _ => answer 201 (Some (mkPage [mkItem "a" []] None));
     artistsAt := noArtists |}.

(** An upstream that answers every artist lookup with status 401. *)
Definition revoked : Upstream :=
  {| savedTracksAt := fun _ => answer 200 (Some (mkPage threeTracks None));
     artistsAt := fun _ => answer 401 None |}.

(** [SpotifyArtist] with the [external_urls] field, which only the
    followed-artists code reads. *)
Record FollowedArtist := {
  followed_artist : SpotifyArtist;
  followed_url : option string  (* external_urls?.spotify *)
}.

(** The [artists] object of [SpotifyFollowedArtistsResponse]. *)
Record SpotifyFollowedArtistsResponse := {
  followed_items : option (list FollowedArtist);  (* tested with [if (pageData.artists.items)] *)
  followed_next : option string
}.

Definition FOLLOWING_URL : string :=
  "https://api.spotify.com/v1/me/following?type=artist&limit=50".

(** The [while (nextUrl)] loop of [getFollowedArtists]; [followedAt] is
    the part of the upstream that answers the /me/following requests. *)
Fixpoint getFollowedArtists_loop (fuel : nat)
    (followedAt : string -> HTTPResponse SpotifyFollowedArtistsResponse)
    (allArtists : list FollowedArtist) (nextUrl : option string) (w : World)
  : option (option (list FollowedArtist) * World) :=
  if truthyOpt nextUrl then
    match fuel with
    | O => None
    | S fuel' =>
      if negb (hasAccess w) then Some (None, w)
      else
        let url := default "" nextUrl in
        let w1 := fetch url w in
        let response := followedAt url in
        let responseCode := getResponseCode response in
        if (responseCode =? 200)%Z then
          match parsedBody response with
          | Some pageData =>
            let allArtists' :=
              match followed_items pageData with
              | Some pageItems => allArtists ++ pageItems
              | None => allArtists
              end in
            getFollowedArtists_loop fuel' followedAt allArtists' (followed_next pageData) w1
          | None => Some (None, w1)
          end
        else if (responseCode =? 401)%Z then Some (None, resetSpotifyService w1)
        else Some (None, w1)
    end
  else Some (Some allArtists, w).

Definition getFollowedArtists (fuel : nat)
    (followedAt : string -> HTTPResponse SpotifyFollowedArtistsResponse) (w : World)
  : option (option (list FollowedArtist) * World) :=
  getFollowedArtists_loop fuel followedAt [] (Some FOLLOWING_URL) w.

(** * updateFollowedArtistsSheet and updateAllSpotifyData *)

Definition artistsHeader : list string :=
  ["Artist Name"; "Genres"; "Artist ID"; "Spotify URL"].

(** The block "Get Existing Artist IDs from Sheet". *)
Definition readExistingArtists (sheet : option (list (list string))) : JsSet.t * nat :=
  match sheet with
  | Some data =>
    let lastRow := length data in
    if 1 <? lastRow then
      match indexOf "Artist ID" artistsHeader with
      | Some artistIdColumnIndex =>
        (readTrackIds artistIdColumnIndex (drop 1 data) JsSet.empty, lastRow)
      | None => (JsSet.empty, lastRow)
      end
    else (JsSet.empty, lastRow)
  | None => (JsSet.empty, 0)
  end.

(** The row of one artist, as [newArtists.map] builds it. *)
Definition renderArtistRow (a : FollowedArtist) : list string :=
  let genresString :=
    match genres (followed_artist a) with
    | Some gs => join ", " gs
    | None => ""
    end in
  [artist_name (followed_artist a); genresString; artist_id (followed_artist a);
   orEmpty (followed_url a)].

(** The header chain of [ensureHeader] for any header row. *)
Definition ensureHeaderOf (hdr : list string) (sheet : option (list (list string)))
    (lastRow : nat) : list (list string) :=
  match sheet with
  | None => [] ++ [hdr]
  | Some grid =>
    if lastRow =? 0 then grid ++ [hdr]
    else if (lastRow =? 1)
            && String.eqb (join "" (firstRowValues (length hdr) grid)) "" then
      setFirstRow hdr grid
    else grid
  end.

(** The [try] block of [updateFollowedArtistsSheet]. *)
Definition writeNewArtists (sheet : option (list (list string))) (lastRow : nat)
    (newArtists : list FollowedArtist) : list (list string) :=
  let grid := ensureHeaderOf artistsHeader sheet lastRow in
  let newData := map renderArtistRow newArtists in
  if 0 <? length newData then insertRowsAfterFirst newData grid else grid.

(** [updateFollowedArtistsSheet()].  [sheet] is the sheet "Spotify
    Followed Artists" of the active spreadsheet, [None] when it has none;
    there is no active spreadsheet when the store of [w] is
    [NoSpreadsheet]. *)
Definition updateFollowedArtistsSheet (fuel : nat)
    (followedAt : string -> HTTPResponse SpotifyFollowedArtistsResponse)
    (w : World) (sheet : option (list (list string)))
  : option (World * option (list (list string))) :=
  if negb (isSpotifyAuthorized w) then Some (w, sheet)
  else
    match store w with
    | NoSpreadsheet => Some (w, sheet)
    | _ =>
      let '(existingArtistIds, lastRow) := readExistingArtists sheet in
      match getFollowedArtists fuel followedAt w with
      | None => None
      | Some (None, w1) => Some (w1, sheet)
      | Some (Some followedArtists, w1) =>
        if length followedArtists =? 0 then Some (w1, sheet)
        else
          let newArtists :=
            List.filter
              (fun a => negb (JsSet.has (artist_id (followed_artist a)) existingArtistIds))
              followedArtists in
          if length newArtists =? 0 then Some (w1, sheet)
          else Some (w1, Some (writeNewArtists sheet lastRow newArtists))
      end
    end.

(** [updateAllSpotifyData()]: the liked songs, then the followed artists. *)
Definition updateAllSpotifyData (fuel : nat) (up : Upstream)
    (followedAt : string -> HTTPResponse SpotifyFollowedArtistsResponse)
    (w : World) (sheet : option (list (list string)))
  : option (World * option (list (list string))) :=
  match updateLikedSongsSheet fuel up w with
  | None => None
  | Some w1 => updateFollowedArtistsSheet fuel followedAt w1 sheet
  end.

(** Vocabulary for the followed artists. *)

Definition FollowedChain := list (string * SpotifyFollowedArtistsResponse).

Definition followedPageItems (p : SpotifyFollowedArtistsResponse) : list FollowedArtist :=
  default [] (followed_items p).

Definition allFollowed (chain : FollowedChain) : list FollowedArtist :=
  concat (map (fun up => followedPageItems (snd up)) chain).

(** A walk of the followed artists that ends normally after exactly the
    pages of [chain]. *)
Fixpoint followedCompletes
    (followedAt : string -> HTTPResponse SpotifyFollowedArtistsResponse)
    (nextUrl : option string) (chain : FollowedChain) : Prop :=
  match chain with
  | [] => False
  | (u, p) :: rest =>
    nextUrl = Some u /\ truthy u = true /\
    getResponseCode (followedAt u) = 200%Z /\
    parsedBody (followedAt u) = Some p /\
    match rest with
    | [] => truthyOpt (followed_next p) = false
    | _ => followedCompletes followedAt (followed_next p) rest
    end
  end.

(** The cursor arrives at [u] after the pages of [front], all served. *)
Fixpoint followedReaches
    (followedAt : string -> HTTPResponse SpotifyFollowedArtistsResponse)
    (nextUrl : option string) (front : FollowedChain) (u : string) : Prop :=
  match front with
  | [] => nextUrl = Some u /\ truthy u = true
  | (u0, p0) :: rest =>
    nextUrl = Some u0 /\ truthy u0 = true /\
    getResponseCode (followedAt u0) = 200%Z /\
    parsedBody (followedAt u0) = Some p0 /\
    followedReaches followedAt (followed_next p0) rest u
  end.

(** The key set and the key column of the followed-artists sheet. *)
Definition existingArtistsOf (sheet : option (list (list string))) : JsSet.t :=
  fst (readExistingArtists sheet).

Definition artistKeyColumn (sheet : option (list (list string))) : list string :=
  map (fun row => default "" (row !! 2)) (drop 1 (default [] sheet)).

(** The followed artists whose id is not in the key set. *)
Definition unknownArtists (existing : JsSet.t) (followed : list FollowedArtist)
  : list FollowedArtist :=
  List.filter (fun a => negb (JsSet.has (artist_id (followed_artist a)) existing)) followed.

(** The first row a followed-artists run leaves. *)
Definition firstArtistRowAfter (sheet : option (list (list string))) : list string :=
  match ensureHeaderOf artistsHeader sheet (length (default [] sheet)) with
  | first :: _ => first
  | [] => artistsHeader
  end.

(** Sample followed artists: two pages. *)
Definition mkFollowed (id : string) (gs : option (list string)) : FollowedArtist :=
  {| followed_artist := {| artist_id := id; artist_name := id; genres := gs |};
     followed_url := Some ("https://open.spotify.com/artist/" +:+ id) |}.

Definition followedPage1 : SpotifyFollowedArtistsResponse :=
  {| followed_items := Some [mkFollowed "x" (Some ["rock"; "pop"]); mkFollowed "y" None];
     followed_next := Some "following2" |}.

Definition followedPage2 : SpotifyFollowedArtistsResponse :=
  {| followed_items := Some [mkFollowed "z" (Some [])]; followed_next := None |}.

Definition followsXYZ : string -> HTTPResponse SpotifyFollowedArtistsResponse :=
  fun url =>
    if String.eqb url FOLLOWING_URL then answer 200 (Some followedPage1)
    else if String.eqb url "following2" then answer 200 (Some followedPage2)
    else answer 500 None.

Definition followsThenFails : string -> HTTPResponse SpotifyFollowedArtistsResponse :=
  fun url =>
    if String.eqb url FOLLOWING_URL then answer 200 (Some followedPage1)
    else answer 429 None.

Definition artistsSheetY : option (list (list string)) :=
  Some [artistsHeader; renderArtistRow (mkFollowed "y" None)].

(** A library whose first page of saved tracks is answered 401. *)
Definition expiredToken : Upstream :=
  {| savedTracksAt := fun _ => answer 401 None; artistsAt := noArtists |}.

(** * Earlier variants of the export, kept in the main file *)

(** [saveLikedSongsToSheet()]: the full export.  It walks the whole
    library, builds the genre index as [updateLikedSongsSheet] does, and
    only then looks for the spreadsheet; [sheet.clearContents()] followed by
    [getRange(1, 1, data.length + 1, 8).setValues([header, ...data])] leaves
    the header and the rows and nothing else. *)
Definition saveLikedSongsToSheet (fuel : nat) (up : Upstream) (w : World) : option World :=
  if negb (isSpotifyAuthorized w) then Some w
  else
    match getAllMySavedTracks fuel up w with
    | None => None
    | Some (None, w1) => Some w1
    | Some (Some savedTrackObjects, w1) =>
      if length savedTrackObjects =? 0 then Some w1
      else
        let uniqueArtistIds := JsSet.toArray (collectArtistIds savedTrackObjects) in
        let '(artistGenresMap, w2) := fetchGenres up uniqueArtistIds w1 in
        match store w2 with
        | NoSpreadsheet => Some w2
        | _ =>
          let data := map (renderRow artistGenresMap) savedTrackObjects in
          Some (setStore (SheetPresent (header :: data)) w2)
        end
    end.

(** [range.setValues(rows)] on the rows of the sheet from the top of
    [grid] on: a written row replaces the cells it covers and leaves the
    cells to its right. *)
Fixpoint overwriteRows (rows grid : list (list string)) : list (list string) :=
  match rows with
  | [] => grid
  | r :: rows' =>
    match grid with
    | [] => r :: overwriteRows rows' []
    | g :: grid' => (r ++ drop (length r) g) :: overwriteRows rows' grid'
    end
  end.

(** [sheet.getRange(start + 1, 1, rows.length, n).setValues(rows)]: the
    rows from [start + 1] on are written, the sheet growing as needed. *)
Definition setRowsFrom (start : nat) (rows grid : list (list string)) : list (list string) :=
  take start (grid ++ replicate (start - length grid) [])
  ++ overwriteRows rows (drop start grid).

(** The [try] block of the earlier [updateLikedSongsSheet], which appends:
    the header chain sets [lastRow] to 1 where it writes the header to a
    sheet without rows, and the rows go to [lastRow + 1]. *)
Definition appendNewTracks (sheet : option (list (list string))) (lastRow : nat)
    (artistGenresMap : gmap string (list string))
    (newTracks : list SpotifySavedTrackObject) : list (list string) :=
  let grid := ensureHeader sheet lastRow in
  let lastRow' :=
    match sheet with
    | None => 1
    | Some _ => if lastRow =? 0 then 1 else lastRow
    end in
  let newData := map (renderRow artistGenresMap) newTracks in
  if 0 <? length newData then setRowsFrom lastRow' newData grid else grid.

(** The earlier [updateLikedSongsSheet] (the one that appends); it differs
    from the current one in the last step only. *)
Definition updateLikedSongsSheetAppending (fuel : nat) (up : Upstream) (w : World)
  : option World :=
  if negb (isSpotifyAuthorized w) then Some w
  else
    match store w with
    | NoSpreadsheet => Some w
    | ss =>
      let sheet := getSheetByName ss in
      let '(existingTrackIds, lastRow) := readExisting sheet in
      match getNewSavedTracks fuel up existingTrackIds w with
      | None => None
      | Some (None, w1) => Some w1
      | Some (Some newTracks, w1) =>
        if length newTracks =? 0 then Some w1
        else
          let uniqueArtistIds := JsSet.toArray (collectArtistIds newTracks) in
          let '(artistGenresMap, w2) := fetchGenres up uniqueArtistIds w1 in
          Some (setStore (SheetPresent (appendNewTracks sheet lastRow artistGenresMap newTracks)) w2)
      end
    end.

(** * Triggers *)

(** A project trigger: its handler, its id, and for a time-based daily
    trigger the values given to [everyDays], [atHour] and [nearMinute]. *)
Record Trigger := {
  getHandlerFunction : string;
  getUniqueId : string;
  daily : option (nat * nat * nat)
}.

Definition TRIGGER_FUNCTION_NAME : string := "updateAllSpotifyData".

(** [ScriptApp.deleteTrigger(trigger)]: the project loses the trigger with
    that id. *)
Definition deleteTrigger (t : Trigger) (project : list Trigger) : list Trigger :=
  List.filter (fun x => negb (String.eqb (getUniqueId x) (getUniqueId t))) project.

(** [deleteTriggers()] on the project's triggers. *)
Definition deleteTriggers (project : list Trigger) : list Trigger :=
  let triggers := project in
  if length triggers =? 0 then project
  else fold_left (fun project trigger => deleteTrigger trigger project) triggers project.

(** [createDailyTrigger()]; [newId] is the id the platform gives the new
    trigger. *)
Definition createDailyTrigger (newId : string) (project : list Trigger) : list Trigger :=
  let triggers := project in
  let project' :=
    fold_left
      (fun project trigger =>
         if String.eqb (getHandlerFunction trigger) TRIGGER_FUNCTION_NAME
         then deleteTrigger trigger project else project)
      triggers project in
  project' ++ [{| getHandlerFunction := TRIGGER_FUNCTION_NAME; getUniqueId := newId;
                  daily := Some (1, 3, 0) |}].

(** The triggers of a handler. *)
Definition triggersFor (name : string) (project : list Trigger) : list Trigger :=
  List.filter (fun t => String.eqb (getHandlerFunction t) name) project.

Definition someTriggers : list Trigger :=
  [{| getHandlerFunction := "updateAllSpotifyData"; getUniqueId := "1"; daily := Some (7, 3, 0) |};
   {| getHandlerFunction := "otherJob"; getUniqueId := "2"; daily := None |};
   {| getHandlerFunction := "updateAllSpotifyData"; getUniqueId := "3"; daily := Some (1, 3, 0) |}].
(** * Properties *)

(** ** Helper lemmas on the boundary walk *)

Lemma scanItems_clean K l acc :
  Forall (fun x => known K x = false) l ->
  scanItems K l acc = (acc ++ l, false).
Proof.
  revert acc. induction l as [|x l IH]; intros acc Hl; simpl.
  - by rewrite app_nil_r.
  - inversion Hl as [|? ? Hx Hl']; subst. unfold known in Hx. rewrite Hx.
    rewrite IH by done. by rewrite <- app_assoc.
Qed.

Lemma scanItems_boundary K a k b acc :
  Forall (fun x => known K x = false) a ->
  known K k = true ->
  scanItems K (a ++ k :: b) acc = (acc ++ a, true).
Proof.
  revert acc. induction a as [|x a IH]; intros acc Ha Hk; simpl.
  - unfold known in Hk. rewrite Hk. by rewrite app_nil_r.
  - inversion Ha as [|? ? Hx Ha']; subst. unfold known in Hx. rewrite Hx.
    rewrite IH by done. by rewrite <- app_assoc.
Qed.

Lemma afterFetches_fetch u us w :
  afterFetches us (fetch u w) = afterFetches (u :: us) w.
Proof. unfold afterFetches, fetch; simpl. by rewrite <- app_assoc. Qed.

Lemma getNewSavedTracks_loop_boundary up K front :
  forall fuel acc nextUrl w u p a k b,
    hasAccess w = true ->
    serves up nextUrl (front ++ [(u, p)]) ->
    pageItems p = a ++ k :: b ->
    Forall (fun x => known K x = false) (allItems front ++ a) ->
    known K k = true ->
    length front < fuel ->
    getNewSavedTracks_loop fuel up K acc nextUrl false w
    = Some (Some (acc ++ allItems front ++ a), afterFetches (urls front ++ [u]) w).
Proof.
  induction front as [|[u0 p0] front IH];
    intros fuel acc nextUrl w u p a k b Hacc Hs Hp Hclean Hk Hfuel.
  - simpl in Hs. destruct Hs as (-> & Hu & Hcode & Hbody & _).
    destruct fuel as [|fuel]; [simpl in Hfuel; lia|].
    simpl. rewrite Hu, Hacc. simpl. rewrite Hcode, Hbody. simpl.
    unfold pageItems in Hp. destruct (items p) as [its|]; simpl in Hp;
      [|by destruct a].
    subst its. rewrite scanItems_boundary by done.
    destruct fuel; reflexivity.
  - simpl in Hs. destruct Hs as (-> & Hu & Hcode & Hbody & Hrest).
    destruct fuel as [|fuel]; [simpl in Hfuel; lia|].
    simpl in Hfuel.
    unfold allItems in Hclean. simpl in Hclean. fold (allItems front) in Hclean.
    rewrite <- app_assoc in Hclean. apply Forall_app in Hclean as [Hp0 Hclean].
    simpl. rewrite Hu, Hacc. simpl. rewrite Hcode, Hbody. simpl.
    assert (Hscan : match items p0 with
                    | Some pageItems => scanItems K pageItems acc
                    | None => (acc, false)
                    end = (acc ++ pageItems p0, false)).
    { unfold pageItems in *. destruct (items p0); simpl in *.
      - by apply scanItems_clean.
      - by rewrite app_nil_r. }
    rewrite Hscan.
    rewrite (IH fuel (acc ++ pageItems p0) (next p0) (fetch u0 w) u p a k b);
      [| done | done | done | done | done | lia].
    rewrite afterFetches_fetch. unfold allItems. simpl.
    by rewrite <- !app_assoc.
Qed.

Lemma serves_app_l up nextUrl c1 c2 :
  serves up nextUrl (c1 ++ c2) -> serves up nextUrl c1.
Proof.
  revert nextUrl. induction c1 as [|[u p] c1 IH]; intros nextUrl H; simpl in *; [done|].
  destruct H as (? & ? & ? & ? & H). eauto 10.
Qed.

Lemma allItems_app c1 c2 : allItems (c1 ++ c2) = allItems c1 ++ allItems c2.
Proof. unfold allItems. by rewrite map_app, concat_app. Qed.

Lemma first_known_split K (l : list SpotifySavedTrackObject) :
  Exists (fun x => known K x = true) l ->
  exists a k b, l = a ++ k :: b /\ Forall (fun x => known K x = false) a /\ known K k = true.
Proof.
  induction l as [|x l IH]; intros H; [by inversion H|].
  destruct (known K x) eqn:Hx.
  - exists [], x, l. by repeat split.
  - inversion H as [? ? Hx'|? ? Hl]; subst; [congruence|].
    destruct (IH Hl) as (a & k & b & -> & Ha & Hk).
    exists (x :: a), k, b. repeat split; [by constructor | done].
Qed.

Lemma chain_boundary_split K (chain : Chain) :
  Exists (fun x => known K x = true) (allItems chain) ->
  exists front u p back a k b,
    chain = front ++ (u, p) :: back /\ pageItems p = a ++ k :: b /\
    Forall (fun x => known K x = false) (allItems front ++ a) /\ known K k = true.
Proof.
  induction chain as [|[u0 p0] chain IH]; intros H; [by inversion H|].
  unfold allItems in H. simpl in H. fold (allItems chain) in H.
  destruct (decide (Exists (fun x => known K x = true) (pageItems p0))) as [Hp|Hp].
  - destruct (first_known_split K _ Hp) as (a & k & b & Heq & Ha & Hk).
    exists [], u0, p0, chain, a, k, b. by repeat split.
  - apply Exists_app in H as [H|H]; [done|].
    destruct (IH H) as (front & u & p & back & a & k & b & -> & Hpi & Hcl & Hk).
    exists ((u0, p0) :: front), u, p, back, a, k, b. repeat split; try done.
    unfold allItems. simpl. fold (allItems front). rewrite <- app_assoc.
    apply Forall_app. split; [|done].
    apply Forall_forall. intros x Hx. destruct (known K x) eqn:Hkx; [|done].
    exfalso. apply Hp. apply Exists_exists. eauto.
Qed.

(** C1. The boundary detector scans the items in arrival order, keeps the
    ones whose id is not known, and stops at the first known one: it
    returns the items met before it and has requested the pages up to the
    one holding that item and no other.  Three statements: the general one
    (clean pages [front], then the page [p] at [u] holding the first known
    item [k] after the items [a]); upstream items [n1 n2 n3 k1 k2] however
    they are cut into pages; and the first item of the first page being
    known. *)
Theorem getNewSavedTracks_stops_at_first_known :
  (forall up K w fuel front u p a k b,
      hasAccess w = true ->
      serves up (Some SAVED_TRACKS_URL) (front ++ [(u, p)]) ->
      pageItems p = a ++ k :: b ->
      Forall (fun x => known K x = false) (allItems front ++ a) ->
      known K k = true ->
      length front < fuel ->
      getNewSavedTracks fuel up K w
      = Some (Some (allItems front ++ a), afterFetches (urls front ++ [u]) w))
  /\
  (forall up K w fuel (chain : Chain) n1 n2 n3 k1 k2,
      hasAccess w = true ->
      serves up (Some SAVED_TRACKS_URL) chain ->
      allItems chain = [n1; n2; n3; k1; k2] ->
      known K n1 = false -> known K n2 = false -> known K n3 = false ->
      known K k1 = true -> known K k2 = true ->
      length chain <= fuel ->
      exists front u p back,
        chain = front ++ (u, p) :: back /\ k1 ∈ pageItems p /\
        getNewSavedTracks fuel up K w
        = Some (Some [n1; n2; n3], afterFetches (urls front ++ [u]) w))
  /\
  (forall up K w fuel p k rest,
      hasAccess w = true ->
      savedTracksAt up SAVED_TRACKS_URL = answer 200 (Some p) ->
      items p = Some (k :: rest) ->
      known K k = true ->
      0 < fuel ->
      getNewSavedTracks fuel up K w
      = Some (Some [], afterFetches [SAVED_TRACKS_URL] w)).
Proof.
  split; [|split].
  - intros up K w fuel front u p a k b Hacc Hs Hp Hcl Hk Hfuel.
    unfold getNewSavedTracks.
    by rewrite (getNewSavedTracks_loop_boundary up K front fuel [] _ w u p a k b).
  - intros up K w fuel chain n1 n2 n3 k1 k2 Hacc Hs Hall H1 H2 H3 Hk1 Hk2 Hfuel.
    destruct (chain_boundary_split K chain) as
      (front & u & p & back & a & k & b & -> & Hp & Hcl & Hk).
    { rewrite Hall. apply Exists_exists. exists k1. split; [|done].
      apply list_elem_of_In. set_solver. }
    exists front, u, p, back.
    rewrite allItems_app in Hall. unfold allItems at 2 in Hall. simpl in Hall.
    fold (allItems back) in Hall. rewrite Hp in Hall.
    rewrite <- app_assoc, app_assoc in Hall. simpl in Hall.
    remember (allItems front ++ a) as L eqn:HL.
    assert (HLk : L = [n1; n2; n3] /\ k = k1).
    { destruct L as [|x1 [|x2 [|x3 [|x4 [|x5 L]]]]]; simpl in Hall; simplify_eq;
        try congruence;
        repeat match goal with
               | H : Forall _ (_ :: _) |- _ => inversion H; subst; clear H
               end; try congruence; try done. }
    destruct HLk as [-> ->].
    split; [done|]. split.
    { rewrite Hp. apply list_elem_of_In, in_or_app. right. by left. }
    unfold getNewSavedTracks.
    rewrite (getNewSavedTracks_loop_boundary up K front fuel [] _ w u p a k1 b);
      try done.
    + by rewrite <- HL.
    + replace (front ++ (u, p) :: back) with ((front ++ [(u, p)]) ++ back) in Hs
        by (by rewrite <- app_assoc).
      by apply serves_app_l in Hs.
    + by rewrite <- HL.
    + rewrite length_app in Hfuel. simpl in Hfuel. lia.
  - intros up K w fuel p k rest Hacc Hsrv Hits Hk Hfuel.
    unfold getNewSavedTracks.
    rewrite (getNewSavedTracks_loop_boundary up K [] fuel [] _ w SAVED_TRACKS_URL p [] k rest);
      try done.
    + simpl. rewrite Hsrv. by repeat split.
    + unfold pageItems. by rewrite Hits.
Qed.

Lemma getNewSavedTracks_stops_at_first_known_witness :
  getNewSavedTracks 2 threePages ["k1"; "k2"] (signedIn SheetAbsent)
  = Some (Some [mkItem "n1" []; mkItem "n2" []; mkItem "n3" []],
          afterFetches [SAVED_TRACKS_URL; "page2"] (signedIn SheetAbsent))
  /\
  (exists front u p back,
      [(SAVED_TRACKS_URL, pageA); ("page2", pageB)] = front ++ (u, p) :: back /\
      mkItem "k1" [] ∈ pageItems p /\
      getNewSavedTracks 2 threePages ["k1"; "k2"] (signedIn SheetAbsent)
      = Some (Some [mkItem "n1" []; mkItem "n2" []; mkItem "n3" []],
              afterFetches (urls front ++ [u]) (signedIn SheetAbsent)))
  /\
  getNewSavedTracks 1 threePages ["n1"] (signedIn SheetAbsent)
  = Some (Some [], afterFetches [SAVED_TRACKS_URL] (signedIn SheetAbsent)).
Proof.
  split; [|split].
  - apply (proj1 getNewSavedTracks_stops_at_first_known
             threePages ["k1"; "k2"] (signedIn SheetAbsent) 2
             [(SAVED_TRACKS_URL, pageA)] "page2" pageB
             [mkItem "n3" []] (mkItem "k1" []) [mkItem "k2" []]).
    + reflexivity.
    + simpl. repeat split; reflexivity.
    + reflexivity.
    + repeat constructor.
    + reflexivity.
    + simpl. lia.
  - apply (proj1 (proj2 getNewSavedTracks_stops_at_first_known)
             threePages ["k1"; "k2"] (signedIn SheetAbsent) 2
             [(SAVED_TRACKS_URL, pageA); ("page2", pageB)]
             (mkItem "n1" []) (mkItem "n2" []) (mkItem "n3" [])
             (mkItem "k1" []) (mkItem "k2" [])).
    + reflexivity.
    + simpl. repeat split; reflexivity.
    + reflexivity.
    + reflexivity.
    + reflexivity.
    + reflexivity.
    + reflexivity.
    + reflexivity.
    + simpl. lia.
  - apply (proj2 (proj2 getNewSavedTracks_stops_at_first_known)
             threePages ["n1"] (signedIn SheetAbsent) 1
             pageA (mkItem "n1" []) [mkItem "n2" []]).
    + reflexivity.
    + reflexivity.
    + reflexivity.
    + reflexivity.
    + lia.
Defined.

(** ** Helper lemmas on both walkers *)

Lemma scanItems_spec K l acc :
  scanItems K l acc = (acc ++ newPrefix K l, existsb (known K) l).
Proof.
  revert acc. induction l as [|x l IH]; intros acc; simpl.
  - by rewrite app_nil_r.
  - unfold known. destruct (JsSet.has _ K); simpl.
    + by rewrite app_nil_r.
    + rewrite IH. by rewrite <- app_assoc.
Qed.

Lemma newPrefix_clean K l :
  existsb (known K) l = false -> newPrefix K l = l.
Proof.
  induction l as [|x l IH]; simpl; [done|].
  destruct (known K x); simpl; [done|]. intros H. by rewrite IH.
Qed.

Lemma newPrefix_app_clean K l1 l2 :
  existsb (known K) l1 = false -> newPrefix K (l1 ++ l2) = l1 ++ newPrefix K l2.
Proof.
  induction l1 as [|x l IH]; simpl; [done|].
  destruct (known K x); simpl; [done|]. intros H. by rewrite IH.
Qed.

Lemma known_empty x : known JsSet.empty x = false.
Proof. unfold known, JsSet.has, JsSet.empty. apply bool_decide_eq_false. set_solver. Qed.

Lemma existsb_known_empty l : existsb (known JsSet.empty) l = false.
Proof. induction l as [|x l IH]; [done|]. cbn [existsb]. by rewrite known_empty, IH. Qed.

(** One turn of the loop of [getNewSavedTracks] on a page that is served. *)
Lemma getNewSavedTracks_loop_page fuel up K acc u p w :
  truthy u = true ->
  hasAccess w = true ->
  getResponseCode (savedTracksAt up u) = 200%Z ->
  parsedBody (savedTracksAt up u) = Some p ->
  getNewSavedTracks_loop (S fuel) up K acc (Some u) false w
  = getNewSavedTracks_loop fuel up K (acc ++ newPrefix K (pageItems p))
      (if existsb (known K) (pageItems p) then None else next p)
      (existsb (known K) (pageItems p)) (fetch u w).
Proof.
  intros Hu Hacc Hcode Hbody. simpl. rewrite Hu, Hacc. simpl.
  rewrite Hcode, Hbody. simpl. unfold pageItems.
  destruct (items p) as [its|]; simpl.
  - by rewrite scanItems_spec.
  - by rewrite app_nil_r.
Qed.

(** One turn of the loop of [getNewSavedTracks] on a page that fails. *)
Lemma getNewSavedTracks_loop_fails fuel up K acc u w :
  truthy u = true ->
  hasAccess w = true ->
  pageFails up u ->
  exists w', getNewSavedTracks_loop (S fuel) up K acc (Some u) false w = Some (None, w')
             /\ fetched w' = fetched w ++ [u].
Proof.
  intros Hu Hacc Hf. simpl. rewrite Hu, Hacc. simpl.
  destruct (getResponseCode (savedTracksAt up u) =? 200)%Z eqn:H200.
  - destruct Hf as [Hf|Hf]; [apply Z.eqb_eq in H200; done|]. rewrite Hf. eauto.
  - destruct (getResponseCode (savedTracksAt up u) =? 401)%Z; [eauto|].
    destruct (getResponseCode (savedTracksAt up u) =? 429)%Z; eauto.
Qed.

Lemma getNewSavedTracks_loop_done fuel up K acc nextUrl found w :
  truthyOpt nextUrl && negb found = false ->
  getNewSavedTracks_loop fuel up K acc nextUrl found w = Some (Some acc, w).
Proof. intros H. destruct fuel; simpl; by rewrite H. Qed.

Lemma getNewSavedTracks_loop_nonnull up K fuel :
  forall acc nextUrl w l w',
    truthyOpt nextUrl = true ->
    getNewSavedTracks_loop fuel up K acc nextUrl false w = Some (Some l, w') ->
    exists chain,
      completes up K nextUrl chain /\ l = acc ++ newPrefix K (allItems chain) /\
      w' = afterFetches (urls chain) w /\ hasAccess w = true /\ length chain <= fuel.
Proof.
  induction fuel as [|fuel IH]; intros acc nextUrl w l w' Hn H.
  - simpl in H. by rewrite Hn in H.
  - destruct nextUrl as [u|]; [|done]. simpl in Hn.
    destruct (hasAccess w) eqn:Hacc;
      [|simpl in H; rewrite Hn, Hacc in H; simpl in H; congruence].
    destruct (getResponseCode (savedTracksAt up u) =? 200)%Z eqn:H200; cycle 1.
    { simpl in H. rewrite Hn, Hacc in H. simpl in H. rewrite H200 in H.
      repeat (destruct (_ =? _)%Z in H); congruence. }
    apply Z.eqb_eq in H200.
    destruct (parsedBody (savedTracksAt up u)) as [p|] eqn:Hbody; cycle 1.
    { simpl in H. rewrite Hn, Hacc in H. simpl in H. rewrite H200, Hbody in H.
      simpl in H. congruence. }
    rewrite (getNewSavedTracks_loop_page fuel up K acc u p w) in H by done.
    destruct (existsb (known K) (pageItems p)) eqn:Hex.
    + rewrite getNewSavedTracks_loop_done in H by done. simplify_eq.
      exists [(u, p)]. simpl. rewrite Hex. repeat split; try done; [|lia].
      unfold allItems. simpl. by rewrite app_nil_r.
    + rewrite newPrefix_clean in H by done.
      destruct (truthyOpt (next p)) eqn:Hnext.
      * destruct (IH _ _ _ _ _ Hnext H) as (chain & Hc & -> & -> & _ & Hlen).
        exists ((u, p) :: chain). simpl. rewrite Hex. repeat split; try done; [| | |lia].
        -- destruct chain; [done|]. done.
        -- unfold allItems. simpl. fold (allItems chain).
           rewrite newPrefix_app_clean by done. by rewrite <- app_assoc.
        -- by rewrite afterFetches_fetch.
      * rewrite getNewSavedTracks_loop_done in H by (by rewrite Hnext).
        simplify_eq. exists [(u, p)]. simpl. rewrite Hex.
        repeat split; try done; [|lia].
        unfold allItems. simpl. rewrite app_nil_r. by rewrite newPrefix_clean.
Qed.

Lemma getNewSavedTracks_loop_failure up K front :
  forall fuel acc nextUrl w u,
    hasAccess w = true ->
    reaches up K nextUrl front u ->
    pageFails up u ->
    length front < fuel ->
    exists w', getNewSavedTracks_loop fuel up K acc nextUrl false w = Some (None, w')
               /\ fetched w' = fetched w ++ urls front ++ [u].
Proof.
  induction front as [|[u0 p0] front IH]; intros fuel acc nextUrl w u Hacc Hr Hf Hfuel.
  - destruct Hr as [-> Hu]. destruct fuel; [simpl in Hfuel; lia|].
    by apply getNewSavedTracks_loop_fails.
  - destruct Hr as (-> & Hu0 & Hcode & Hbody & Hclean & Hr).
    destruct fuel; [simpl in Hfuel; lia|]. simpl in Hfuel.
    rewrite (getNewSavedTracks_loop_page fuel up K acc u0 p0 w) by done.
    rewrite Hclean.
    destruct (IH fuel (acc ++ newPrefix K (pageItems p0)) (next p0) (fetch u0 w) u)
      as (w' & Hrun & Hlog); [done | done | done | lia |].
    exists w'. split; [done|]. rewrite Hlog. simpl. by rewrite <- app_assoc.
Qed.

(** One turn of the loop of [getAllMySavedTracks] on a page that is served. *)
Lemma getAllMySavedTracks_loop_page fuel up acc u p w :
  truthy u = true ->
  hasAccess w = true ->
  getResponseCode (savedTracksAt up u) = 200%Z ->
  parsedBody (savedTracksAt up u) = Some p ->
  getAllMySavedTracks_loop (S fuel) up acc (Some u) w
  = getAllMySavedTracks_loop fuel up (acc ++ pageItems p) (next p) (fetch u w).
Proof.
  intros Hu Hacc Hcode Hbody. simpl. rewrite Hu, Hacc. simpl.
  rewrite Hcode, Hbody. simpl. unfold pageItems.
  destruct (items p) as [its|]; simpl; [done|]. by rewrite app_nil_r.
Qed.

Lemma getAllMySavedTracks_loop_fails fuel up acc u w :
  truthy u = true ->
  hasAccess w = true ->
  pageFails up u ->
  exists w', getAllMySavedTracks_loop (S fuel) up acc (Some u) w = Some (None, w')
             /\ fetched w' = fetched w ++ [u].
Proof.
  intros Hu Hacc Hf. simpl. rewrite Hu, Hacc. simpl.
  destruct (getResponseCode (savedTracksAt up u) =? 200)%Z eqn:H200.
  - destruct Hf as [Hf|Hf]; [apply Z.eqb_eq in H200; done|]. rewrite Hf. eauto.
  - destruct (getResponseCode (savedTracksAt up u) =? 401)%Z; [eauto|].
    destruct (getResponseCode (savedTracksAt up u) =? 429)%Z; eauto.
Qed.

Lemma getAllMySavedTracks_loop_done fuel up acc nextUrl w :
  truthyOpt nextUrl = false ->
  getAllMySavedTracks_loop fuel up acc nextUrl w = Some (Some acc, w).
Proof. intros H. destruct fuel; simpl; by rewrite H. Qed.

Lemma getAllMySavedTracks_loop_nonnull up fuel :
  forall acc nextUrl w l w',
    truthyOpt nextUrl = true ->
    getAllMySavedTracks_loop fuel up acc nextUrl w = Some (Some l, w') ->
    exists chain,
      completes up JsSet.empty nextUrl chain /\ l = acc ++ allItems chain /\
      w' = afterFetches (urls chain) w /\ hasAccess w = true.
Proof.
  induction fuel as [|fuel IH]; intros acc nextUrl w l w' Hn H.
  - simpl in H. by rewrite Hn in H.
  - destruct nextUrl as [u|]; [|done]. simpl in Hn.
    destruct (hasAccess w) eqn:Hacc;
      [|simpl in H; rewrite Hn, Hacc in H; simpl in H; congruence].
    destruct (getResponseCode (savedTracksAt up u) =? 200)%Z eqn:H200; cycle 1.
    { simpl in H. rewrite Hn, Hacc in H. simpl in H. rewrite H200 in H.
      repeat (destruct (_ =? _)%Z in H); congruence. }
    apply Z.eqb_eq in H200.
    destruct (parsedBody (savedTracksAt up u)) as [p|] eqn:Hbody; cycle 1.
    { simpl in H. rewrite Hn, Hacc in H. simpl in H. rewrite H200, Hbody in H.
      simpl in H. congruence. }
    rewrite (getAllMySavedTracks_loop_page fuel up acc u p w) in H by done.
    destruct (truthyOpt (next p)) eqn:Hnext.
    + destruct (IH _ _ _ _ _ Hnext H) as (chain & Hc & -> & -> & _).
      exists ((u, p) :: chain). cbn [completes]. rewrite existsb_known_empty.
      repeat split; try done.
      * destruct chain; [done|]. done.
      * unfold allItems. simpl. by rewrite <- app_assoc.
      * by rewrite afterFetches_fetch.
    + rewrite getAllMySavedTracks_loop_done in H by done. simplify_eq.
      exists [(u, p)]. cbn [completes]. rewrite existsb_known_empty.
      repeat split; try done.
      unfold allItems. simpl. by rewrite app_nil_r.
Qed.

Lemma getAllMySavedTracks_loop_failure up front :
  forall fuel acc nextUrl w u,
    hasAccess w = true ->
    reaches up JsSet.empty nextUrl front u ->
    pageFails up u ->
    length front < fuel ->
    exists w', getAllMySavedTracks_loop fuel up acc nextUrl w = Some (None, w')
               /\ fetched w' = fetched w ++ urls front ++ [u].
Proof.
  induction front as [|[u0 p0] front IH]; intros fuel acc nextUrl w u Hacc Hr Hf Hfuel.
  - destruct Hr as [-> Hu]. destruct fuel; [simpl in Hfuel; lia|].
    by apply getAllMySavedTracks_loop_fails.
  - destruct Hr as (-> & Hu0 & Hcode & Hbody & Hclean & Hr).
    destruct fuel; [simpl in Hfuel; lia|]. simpl in Hfuel.
    rewrite (getAllMySavedTracks_loop_page fuel up acc u0 p0 w) by done.
    destruct (IH fuel (acc ++ pageItems p0) (next p0) (fetch u0 w) u)
      as (w' & Hrun & Hlog); [done | done | done | lia |].
    exists w'. split; [done|]. rewrite Hlog. simpl. by rewrite <- app_assoc.
Qed.

Lemma getNewSavedTracks_loop_completes up K (chain : Chain) :
  forall fuel acc nextUrl w,
    hasAccess w = true ->
    completes up K nextUrl chain ->
    length chain <= fuel ->
    getNewSavedTracks_loop fuel up K acc nextUrl false w
    = Some (Some (acc ++ newPrefix K (allItems chain)), afterFetches (urls chain) w).
Proof.
  induction chain as [|[u p] chain IH]; intros fuel acc nextUrl w Hacc Hc Hfuel; [done|].
  cbn [completes] in Hc. destruct Hc as (-> & Hu & Hcode & Hbody & Hrest).
  destruct fuel as [|fuel]; [simpl in Hfuel; lia|]. simpl in Hfuel.
  rewrite (getNewSavedTracks_loop_page fuel up K acc u p w) by done.
  unfold allItems. cbn [map concat snd]. fold (allItems chain).
  destruct (existsb (known K) (pageItems p)) eqn:Hex.
  - subst chain. rewrite getNewSavedTracks_loop_done by done.
    unfold allItems. simpl. by rewrite app_nil_r.
  - rewrite newPrefix_clean by done. rewrite newPrefix_app_clean by done.
    destruct chain as [|[u' p'] chain].
    + rewrite getNewSavedTracks_loop_done by (by rewrite Hrest).
      unfold allItems. simpl. by rewrite app_nil_r.
    + rewrite (IH fuel (acc ++ pageItems p) (next p) (fetch u w)); [|done|done|simpl in *; lia].
      rewrite afterFetches_fetch. by rewrite <- app_assoc.
Qed.

Lemma getAllMySavedTracks_loop_completes up (chain : Chain) :
  forall fuel acc nextUrl w,
    hasAccess w = true ->
    completes up JsSet.empty nextUrl chain ->
    length chain <= fuel ->
    getAllMySavedTracks_loop fuel up acc nextUrl w
    = Some (Some (acc ++ allItems chain), afterFetches (urls chain) w).
Proof.
  induction chain as [|[u p] chain IH]; intros fuel acc nextUrl w Hacc Hc Hfuel; [done|].
  cbn [completes] in Hc. destruct Hc as (-> & Hu & Hcode & Hbody & Hrest).
  rewrite existsb_known_empty in Hrest.
  destruct fuel as [|fuel]; [simpl in Hfuel; lia|]. simpl in Hfuel.
  rewrite (getAllMySavedTracks_loop_page fuel up acc u p w) by done.
  unfold allItems. cbn [map concat snd]. fold (allItems chain).
  destruct chain as [|[u' p'] chain].
  - rewrite getAllMySavedTracks_loop_done by done.
    unfold allItems. simpl. by rewrite app_nil_r.
  - rewrite (IH fuel (acc ++ pageItems p) (next p) (fetch u w)); [|done|done|simpl in *; lia].
    rewrite afterFetches_fetch. by rewrite <- app_assoc.
Qed.

(** C8. Both paginated walkers tell abnormal termination from normal
    completion by their return value.  For [getNewSavedTracks]: (1) a
    walk that ends normally (every requested page answered with status 200
    and a body that parsed, the last one holding a known item or having no
    [next]) returns a list, the whole of what the walk keeps, the empty
    list when the first item is known; (2) a non-null result is returned
    only after such a walk, with access granted, and is the whole of what
    that walk keeps, not a truncation; (3) when the cursor arrives at a
    page whose request fails (any status other than 200, among them 401 and
    429, or a body that does not parse), the result is [null], whatever was
    collected before; (4) without access the result is [null].  (5)-(8):
    the same for [getAllMySavedTracks], which knows no boundary and keeps
    every item.  So the result is a list exactly when the walk ended
    normally. *)
Theorem walkers_return_null_exactly_on_failure :
  (forall fuel up K w (chain : Chain),
      hasAccess w = true ->
      completes up K (Some SAVED_TRACKS_URL) chain ->
      length chain <= fuel ->
      getNewSavedTracks fuel up K w
      = Some (Some (newPrefix K (allItems chain)), afterFetches (urls chain) w))
  /\
  (forall fuel up K w l w',
      getNewSavedTracks fuel up K w = Some (Some l, w') ->
      exists chain,
        completes up K (Some SAVED_TRACKS_URL) chain /\
        l = newPrefix K (allItems chain) /\
        w' = afterFetches (urls chain) w /\ hasAccess w = true)
  /\
  (forall fuel up K w front u,
      hasAccess w = true ->
      reaches up K (Some SAVED_TRACKS_URL) front u ->
      pageFails up u ->
      length front < fuel ->
      exists w', getNewSavedTracks fuel up K w = Some (None, w')
                 /\ fetched w' = fetched w ++ urls front ++ [u])
  /\
  (forall fuel up K w,
      hasAccess w = false -> 0 < fuel ->
      getNewSavedTracks fuel up K w = Some (None, w))
  /\
  (forall fuel up w (chain : Chain),
      hasAccess w = true ->
      completes up JsSet.empty (Some SAVED_TRACKS_URL) chain ->
      length chain <= fuel ->
      getAllMySavedTracks fuel up w
      = Some (Some (allItems chain), afterFetches (urls chain) w))
  /\
  (forall fuel up w l w',
      getAllMySavedTracks fuel up w = Some (Some l, w') ->
      exists chain,
        completes up JsSet.empty (Some SAVED_TRACKS_URL) chain /\
        l = allItems chain /\
        w' = afterFetches (urls chain) w /\ hasAccess w = true)
  /\
  (forall fuel up w front u,
      hasAccess w = true ->
      reaches up JsSet.empty (Some SAVED_TRACKS_URL) front u ->
      pageFails up u ->
      length front < fuel ->
      exists w', getAllMySavedTracks fuel up w = Some (None, w')
                 /\ fetched w' = fetched w ++ urls front ++ [u])
  /\
  (forall fuel up w,
      hasAccess w = false -> 0 < fuel ->
      getAllMySavedTracks fuel up w = Some (None, w)).
Proof.
  split; [|split; [|split; [|split; [|split; [|split; [|split]]]]]].
  - intros fuel up K w chain Hacc Hc Hfuel. unfold getNewSavedTracks.
    by rewrite (getNewSavedTracks_loop_completes up K chain fuel [] _ w).
  - intros fuel up K w l w' H.
    destruct (getNewSavedTracks_loop_nonnull up K fuel [] (Some SAVED_TRACKS_URL)
                w l w' eq_refl H) as (chain & ? & ? & ? & ? & _).
    by exists chain.
  - intros fuel up K w front u Hacc Hr Hf Hfuel.
    by apply getNewSavedTracks_loop_failure.
  - intros fuel up K w Hacc Hfuel. destruct fuel; [lia|].
    unfold getNewSavedTracks. simpl. by rewrite Hacc.
  - intros fuel up w chain Hacc Hc Hfuel. unfold getAllMySavedTracks.
    by rewrite (getAllMySavedTracks_loop_completes up chain fuel [] _ w).
  - intros fuel up w l w' H.
    by apply (getAllMySavedTracks_loop_nonnull up fuel [] _ w l w').
  - intros fuel up w front u Hacc Hr Hf Hfuel.
    by apply getAllMySavedTracks_loop_failure.
  - intros fuel up w Hacc Hfuel. destruct fuel; [lia|].
    unfold getAllMySavedTracks. simpl. by rewrite Hacc.
Qed.

Lemma walkers_return_null_exactly_on_failure_witness :
  (exists w', getNewSavedTracks 3 threePages JsSet.empty (signedIn SheetAbsent)
              = Some (None, w')
              /\ fetched w' = [] ++ [SAVED_TRACKS_URL; "page2"] ++ ["page3"])
  /\
  (exists w', getAllMySavedTracks 3 threePages (signedIn SheetAbsent) = Some (None, w')
              /\ fetched w' = [] ++ [SAVED_TRACKS_URL; "page2"] ++ ["page3"])
  /\
  (exists chain,
      completes libraryAB ["b"] (Some SAVED_TRACKS_URL) chain /\
      [mkItem "a" []] = newPrefix ["b"] (allItems chain) /\
      afterFetches [SAVED_TRACKS_URL] (signedIn SheetAbsent)
      = afterFetches (urls chain) (signedIn SheetAbsent) /\
      hasAccess (signedIn SheetAbsent) = true)
  /\
  (exists chain,
      completes libraryAB JsSet.empty (Some SAVED_TRACKS_URL) chain /\
      [mkItem "a" []; mkItem "b" []] = allItems chain /\
      afterFetches [SAVED_TRACKS_URL] (signedIn SheetAbsent)
      = afterFetches (urls chain) (signedIn SheetAbsent) /\
      hasAccess (signedIn SheetAbsent) = true)
  /\
  getNewSavedTracks 1 threePages ["k1"] signedOut = Some (None, signedOut)
  /\
  getAllMySavedTracks 1 threePages signedOut = Some (None, signedOut)
  /\
  getNewSavedTracks 2 threePages ["k1"] (signedIn SheetAbsent)
  = Some (Some (newPrefix ["k1"] (allItems [(SAVED_TRACKS_URL, pageA); ("page2", pageB)])),
          afterFetches (urls [(SAVED_TRACKS_URL, pageA); ("page2", pageB)])
            (signedIn SheetAbsent))
  /\
  getNewSavedTracks 1 threePages ["n1"] (signedIn SheetAbsent)
  = Some (Some (newPrefix ["n1"] (allItems [(SAVED_TRACKS_URL, pageA)])),
          afterFetches (urls [(SAVED_TRACKS_URL, pageA)]) (signedIn SheetAbsent))
  /\
  getAllMySavedTracks 1 libraryAB (signedIn SheetAbsent)
  = Some (Some (allItems [(SAVED_TRACKS_URL, mkPage [mkItem "a" []; mkItem "b" []] None)]),
          afterFetches (urls [(SAVED_TRACKS_URL, mkPage [mkItem "a" []; mkItem "b" []] None)])
            (signedIn SheetAbsent)).
Proof.
  destruct walkers_return_null_exactly_on_failure
    as (Nlist & Nonly & Nfail & Nnoacc & Alist & Aonly & Afail & Anoacc).
  split; [|split; [|split; [|split; [|split; [|split; [|split; [|split]]]]]]].
  - apply (Nfail 3 threePages JsSet.empty (signedIn SheetAbsent)
             [(SAVED_TRACKS_URL, pageA); ("page2", pageB)] "page3").
    + reflexivity.
    + simpl. repeat split; reflexivity.
    + left. simpl. discriminate.
    + simpl. lia.
  - apply (Afail 3 threePages (signedIn SheetAbsent)
             [(SAVED_TRACKS_URL, pageA); ("page2", pageB)] "page3").
    + reflexivity.
    + simpl. repeat split; reflexivity.
    + left. simpl. discriminate.
    + simpl. lia.
  - apply (Nonly 1 libraryAB ["b"] (signedIn SheetAbsent)).
    reflexivity.
  - apply (Aonly 1 libraryAB (signedIn SheetAbsent)).
    reflexivity.
  - apply (Nnoacc 1 threePages ["k1"] signedOut); [reflexivity | lia].
  - apply (Anoacc 1 threePages signedOut); [reflexivity | lia].
  - apply (Nlist 2 threePages ["k1"] (signedIn SheetAbsent)
             [(SAVED_TRACKS_URL, pageA); ("page2", pageB)]).
    + reflexivity.
    + simpl. repeat split; reflexivity.
    + simpl. lia.
  - apply (Nlist 1 threePages ["n1"] (signedIn SheetAbsent) [(SAVED_TRACKS_URL, pageA)]).
    + reflexivity.
    + simpl. repeat split; reflexivity.
    + simpl. lia.
  - apply (Alist 1 libraryAB (signedIn SheetAbsent)
             [(SAVED_TRACKS_URL, mkPage [mkItem "a" []; mkItem "b" []] None)]).
    + reflexivity.
    + simpl. repeat split; reflexivity.
    + simpl. lia.
Defined.

(** ** The batched artist lookup *)


Lemma getArtistsDetails_small up ids w :
  0 < length ids <= 50 ->
  getArtistsDetails up (Some ids) w
  = let '(response, w1) := fetchSpotifyApi up ("artists?ids=" +:+ join "," ids) w in
    match response with
    | Some r => (Some (response_artists r), w1)
    | None => (None, w1)
    end.
Proof.
  intros [H0 H50]. unfold getArtistsDetails.
  destruct (length ids =? 0) eqn:E0; [apply Nat.eqb_eq in E0; lia|].
  destruct (50 <? length ids) eqn:E50; [apply Nat.ltb_lt in E50; lia|]. done.
Qed.



(** ** The chunk loop *)

Lemma fetchGenres_loop_chunks up ids n :
  forall i st,
    fetchGenres_loop n up ids i st
    = fold_left (fun st c => lookupChunk up c st) (chunksFrom n ids i) st.
Proof.
  induction n as [|n IH]; intros i st; simpl; [done|].
  destruct (i <? length ids); simpl; [|done]. by rewrite IH.
Qed.

Lemma slice_length {A} i (l : list A) :
  length (slice i (i + chunkSize) l) = min chunkSize (length l - i).
Proof.
  unfold slice. rewrite length_take, length_drop.
  replace (i + chunkSize - i) with chunkSize by lia. done.
Qed.

Lemma concat_chunksFrom ids n :
  forall i, length ids - i <= n -> concat (chunksFrom n ids i) = drop i ids.
Proof.
  induction n as [|n IH]; intros i Hn; simpl.
  - symmetry. apply drop_ge. lia.
  - destruct (i <? length ids) eqn:Hi.
    + apply Nat.ltb_lt in Hi. simpl. rewrite IH by (unfold chunkSize; lia).
      unfold slice. replace (i + chunkSize - i) with chunkSize by lia.
      rewrite <- drop_drop. apply take_drop.
    + apply Nat.ltb_ge in Hi. symmetry. by apply drop_ge.
Qed.

Lemma chunksFrom_sizes ids n :
  forall i, map length (chunksFrom n ids i) = chunkSizesFrom n (length ids) i.
Proof.
  induction n as [|n IH]; intros i; simpl; [done|].
  destruct (i <? length ids); simpl; [|done]. by rewrite slice_length, IH.
Qed.

Lemma chunksFrom_bounds ids n :
  forall i, Forall (fun c => 0 < length c <= 50) (chunksFrom n ids i).
Proof.
  induction n as [|n IH]; intros i; simpl; [constructor|].
  destruct (i <? length ids) eqn:Hi; [|constructor].
  apply Nat.ltb_lt in Hi. constructor; [|apply IH].
  rewrite slice_length. unfold chunkSize. lia.
Qed.

Lemma NoDup_concat_disjoint (ls : list (list string)) :
  NoDup (concat ls) ->
  forall i j a b, i <> j -> ls !! i = Some a -> ls !! j = Some b ->
                  forall x, x ∈ a -> x ∉ b.
Proof.
  induction ls as [|l ls IH]; intros Hnd i j a b Hij Ha Hb x Hxa Hxb; [done|].
  simpl in Hnd. apply NoDup_app in Hnd as (Hl & Hdisj & Hls).
  destruct i as [|i], j as [|j]; simpl in *; simplify_eq.
  - apply (Hdisj x Hxa). apply list_elem_of_In, in_concat. exists b.
    split; apply list_elem_of_In; [|done]. by apply list_elem_of_lookup_2 in Hb.
  - apply (Hdisj x Hxb). apply list_elem_of_In, in_concat. exists a.
    split; apply list_elem_of_In; [|done]. by apply list_elem_of_lookup_2 in Ha.
  - by apply (IH Hls i j a b ltac:(congruence) Ha Hb x Hxa).
Qed.

Lemma JsSet_add_NoDup x s : NoDup s -> NoDup (JsSet.add x s).
Proof.
  intros H. unfold JsSet.add, JsSet.has. case_bool_decide as Hx; [done|].
  apply NoDup_app. repeat split; [done | | apply NoDup_singleton].
  intros y Hy Hy'. apply list_elem_of_singleton in Hy'. by subst.
Qed.

Lemma collectArtistIds_NoDup newTracks : NoDup (collectArtistIds newTracks).
Proof.
  unfold collectArtistIds.
  assert (Hgen : forall s, NoDup s ->
            NoDup (fold_left
                     (fun ids item =>
                        fold_left
                          (fun ids artist =>
                             if truthy (artist_id artist)
                             then JsSet.add (artist_id artist) ids else ids)
                          (artists (track item)) ids)
                     newTracks s)).
  { induction newTracks as [|item rest IH]; intros s Hs; simpl; [done|].
    apply IH. generalize (artists (track item)). intros arts. revert s Hs.
    induction arts as [|a arts IHa]; intros s Hs; simpl; [done|].
    apply IHa. destruct (truthy (artist_id a)); [by apply JsSet_add_NoDup | done]. }
  apply Hgen. constructor.
Qed.

(** What one turn of the chunk loop does to the world when access is
    granted and the answer is not a 401: one request, access kept. *)
Lemma lookupChunk_world up c st :
  hasAccess (snd st) = true ->
  0 < length c <= 50 ->
  getResponseCode (artistsAt up (artistsUrl c)) <> 401%Z ->
  snd (lookupChunk up c st) = fetch (artistsUrl c) (snd st).
Proof.
  intros Hacc Hc H401. unfold lookupChunk.
  rewrite getArtistsDetails_small by done.
  unfold fetchSpotifyApi. rewrite Hacc. simpl. fold (artistsUrl c).
  destruct (_ =? 200)%Z; simpl; [by destruct (parsedBody _)|].
  destruct (_ =? 201)%Z; simpl; [by destruct (parsedBody _)|].
  destruct (_ =? 401)%Z eqn:E; [by apply Z.eqb_eq in E|]. done.
Qed.

Lemma fold_lookupChunk_world up cs :
  forall st,
    hasAccess (snd st) = true ->
    Forall (fun c => 0 < length c <= 50) cs ->
    (forall c, c ∈ cs -> getResponseCode (artistsAt up (artistsUrl c)) <> 401%Z) ->
    snd (fold_left (fun st c => lookupChunk up c st) cs st)
    = afterFetches (map artistsUrl cs) (snd st).
Proof.
  induction cs as [|c cs IH]; intros st Hacc Hb H401; simpl.
  - unfold afterFetches. rewrite app_nil_r. by destruct (snd st).
  - inversion Hb as [|? ? Hc Hcs]; subst.
    assert (Hw := lookupChunk_world up c st Hacc Hc (H401 c ltac:(left))).
    rewrite IH; [| by rewrite Hw | done | intros; apply H401; by right].
    rewrite Hw. apply afterFetches_fetch.
Qed.

Lemma fetchGenres_chunks up ids w :
  fetchGenres up ids w = fold_left (fun st c => lookupChunk up c st) (chunks ids) (∅, w).
Proof.
  unfold fetchGenres, chunks. destruct ids as [|x ids]; [done|].
  cbn [length Nat.ltb Nat.leb]. apply fetchGenres_loop_chunks.
Qed.

Lemma concat_chunks ids : concat (chunks ids) = ids.
Proof. unfold chunks. rewrite concat_chunksFrom by lia. apply drop_0. Qed.

(** C6. The genre enrichment cuts the list of unique artist ids into
    consecutive chunks of at most 50 ids and makes one lookup per chunk, in
    order: the loop is the fold of [lookupChunk] over [chunks ids]; the
    chunks put end to end give back the list (they cover it, in order);
    none is empty or longer than 50; when the ids are distinct, two
    different chunks share no id; 120 ids give exactly three chunks, of
    sizes 50, 50 and 20; and, with access granted and no answer 401, the
    requests made are exactly one per chunk.  The id list the source builds
    has no duplicates. *)
Theorem enrichment_chunks_of_at_most_50 :
  (forall up (ids : list string) w,
      fetchGenres up ids w
      = fold_left (fun st c => lookupChunk up c st) (chunks ids) (∅, w)
      /\ concat (chunks ids) = ids
      /\ Forall (fun c => 0 < length c <= 50) (chunks ids)
      /\ (NoDup ids ->
          forall i j a b, i <> j -> chunks ids !! i = Some a -> chunks ids !! j = Some b ->
                          forall x, x ∈ a -> x ∉ b)
      /\ (length ids = 120 -> map length (chunks ids) = [50; 50; 20])
      /\ (hasAccess w = true ->
          (forall c, c ∈ chunks ids ->
                     getResponseCode (artistsAt up (artistsUrl c)) <> 401%Z) ->
          fetched (snd (fetchGenres up ids w))
          = fetched w ++ map artistsUrl (chunks ids)))
  /\
  (forall newTracks, NoDup (JsSet.toArray (collectArtistIds newTracks))).
Proof.
  split; [|apply collectArtistIds_NoDup].
  intros up ids w.
  assert (Hloop := fetchGenres_chunks up ids w).
  assert (Hcat := concat_chunks ids).
  repeat split.
  - done.
  - done.
  - apply chunksFrom_bounds.
  - intros Hnd. apply NoDup_concat_disjoint. by rewrite Hcat.
  - intros Hlen. unfold chunks. rewrite chunksFrom_sizes, Hlen. reflexivity.
  - intros Hacc H401. rewrite Hloop.
    rewrite fold_lookupChunk_world; [done | done | apply chunksFrom_bounds | done].
Qed.

Lemma enrichment_chunks_of_at_most_50_witness :
  map length (chunks manyArtistIds) = [50; 50; 20]
  /\ fetched (snd (fetchGenres threePages manyArtistIds (signedIn SheetAbsent)))
     = map artistsUrl (chunks manyArtistIds)
  /\ (forall a b, chunks manyArtistIds !! 0 = Some a -> chunks manyArtistIds !! 2 = Some b ->
                  forall x, x ∈ a -> x ∉ b).
Proof.
  destruct (proj1 enrichment_chunks_of_at_most_50
              threePages manyArtistIds (signedIn SheetAbsent))
    as (_ & _ & _ & Hdisj & Hsizes & Hreq).
  split; [apply Hsizes; reflexivity|]. split.
  - apply Hreq; [reflexivity|]. intros c _. simpl. discriminate.
  - intros a b. apply Hdisj; [|discriminate].
    apply (bool_decide_unpack _). vm_compute. exact I.
Defined.

(** ** Genre rendering *)

Lemma JsSet_has_true x s : JsSet.has x s = true <-> x ∈ s.
Proof. unfold JsSet.has. apply bool_decide_eq_true. Qed.

Lemma JsSet_has_false x s : JsSet.has x s = false <-> x ∉ s.
Proof. unfold JsSet.has. apply bool_decide_eq_false. Qed.

Lemma filter_absorb x s (l : list string) :
  x ∈ s ->
  List.filter (fun y => negb (JsSet.has y s)) (List.filter (fun y => negb (String.eqb y x)) l)
  = List.filter (fun y => negb (JsSet.has y s)) l.
Proof.
  intros Hx. induction l as [|y l IH]; simpl; [done|].
  destruct (String.eqb_spec y x) as [->|Hne]; simpl.
  - apply JsSet_has_true in Hx. by rewrite Hx.
  - destruct (JsSet.has y s); simpl; by rewrite IH.
Qed.

Lemma filter_snoc x s (l : list string) :
  List.filter (fun y => negb (JsSet.has y (s ++ [x]))) l
  = List.filter (fun y => negb (JsSet.has y s)) (List.filter (fun y => negb (String.eqb y x)) l).
Proof.
  induction l as [|y l IH]; simpl; [done|].
  destruct (String.eqb_spec y x) as [->|Hne]; simpl.
  - replace (JsSet.has x (s ++ [x])) with true; [done|].
    symmetry. apply JsSet_has_true. apply elem_of_app. right. by left.
  - rewrite IH. replace (JsSet.has y (s ++ [x])) with (JsSet.has y s); [done|].
    destruct (JsSet.has y s) eqn:E; symmetry.
    + apply JsSet_has_true. apply JsSet_has_true in E. apply elem_of_app. by left.
    + apply JsSet_has_false. apply JsSet_has_false in E.
      rewrite elem_of_app, list_elem_of_singleton. tauto.
Qed.

(** Adding the elements of [l] to the set [s] one by one. *)
Lemma addAll_dedupFirst (l : list string) :
  forall s, fold_left (fun s g => JsSet.add g s) l s
            = s ++ List.filter (fun y => negb (JsSet.has y s)) (dedupFirst l).
Proof.
  induction l as [|x l IH]; intros s; simpl.
  - by rewrite app_nil_r.
  - rewrite IH. unfold JsSet.add. destruct (JsSet.has x s) eqn:Hx; simpl.
    + apply JsSet_has_true in Hx. by rewrite filter_absorb.
    + rewrite filter_snoc. by rewrite <- app_assoc.
Qed.

Lemma trackGenres_fold m arts :
  forall s,
    fold_left
      (fun s artist =>
         match m !! artist_id artist with
         | Some gs => fold_left (fun s g => JsSet.add g s) gs s
         | None => s
         end) arts s
    = fold_left (fun s g => JsSet.add g s) (concat (map (genresOf m) arts)) s.
Proof.
  induction arts as [|a arts IH]; intros s; simpl; [done|].
  rewrite fold_left_app, IH. unfold genresOf.
  by destruct (m !! artist_id a).
Qed.

Lemma trackGenres_dedupFirst m t :
  JsSet.toArray (trackGenres m t) = dedupFirst (artistGenres m t).
Proof.
  unfold trackGenres, JsSet.toArray, artistGenres.
  rewrite trackGenres_fold, addAll_dedupFirst. simpl.
  generalize (dedupFirst (concat (map (genresOf m) (artists t)))). intros l.
  induction l as [|y l IH]; simpl; [done|].
  replace (JsSet.has y JsSet.empty) with false; [simpl; by rewrite IH|].
  symmetry. apply JsSet_has_false. set_solver.
Qed.

Lemma dedupFirst_elem (l : list string) x : x ∈ dedupFirst l <-> x ∈ l.
Proof.
  induction l as [|y l IH]; simpl; [done|].
  rewrite !elem_of_cons, <- IH, !list_elem_of_In, filter_In, <- !list_elem_of_In.
  destruct (String.eqb_spec x y) as [->|Hne]; simpl; [tauto|]. tauto.
Qed.

Lemma dedupFirst_NoDup (l : list string) : NoDup (dedupFirst l).
Proof.
  induction l as [|y l IH]; simpl; [constructor|].
  apply NoDup_cons. split.
  - rewrite list_elem_of_In, filter_In, String.eqb_refl. simpl. intros [_ ?]. done.
  - apply NoDup_ListNoDup, List.NoDup_filter. by apply NoDup_ListNoDup.
Qed.

(** C9. The Genres cell of a track's row (the seventh column) is the
    genres that the index resolves for the track's artists, artist after
    artist, with every genre kept at its first occurrence only, joined by
    a comma and a space: the list has no duplicate and holds exactly the
    genres of the track's artists.  Artists with genres [rock] and
    [rock, pop] give "rock, pop". *)
Theorem rendered_genres_are_first_seen_union :
  header !! 6 = Some "Genres" /\
  (forall m item,
      renderRow m item !! 6
      = Some (join ", " (dedupFirst (artistGenres m (track item))))
      /\ NoDup (dedupFirst (artistGenres m (track item)))
      /\ (forall g, g ∈ dedupFirst (artistGenres m (track item))
                    <-> exists a, a ∈ artists (track item) /\ g ∈ genresOf m a))
  /\
  (forall (m : gmap string (list string)) item a1 a2,
      artists (track item) = [a1; a2] ->
      m !! artist_id a1 = Some ["rock"] ->
      m !! artist_id a2 = Some ["rock"; "pop"] ->
      JsSet.toArray (trackGenres m (track item)) = ["rock"; "pop"]
      /\ renderRow m item !! 6 = Some "rock, pop").
Proof.
  split; [done|]. split.
  - intros m item. split; [|split].
    + unfold renderRow. simpl. by rewrite trackGenres_dedupFirst.
    + apply dedupFirst_NoDup.
    + intros g. rewrite dedupFirst_elem. unfold artistGenres.
      rewrite list_elem_of_In, in_concat. split.
      * intros (gs & Hgs & Hg). apply in_map_iff in Hgs as (a & <- & Ha).
        exists a. by rewrite !list_elem_of_In.
      * intros (a & Ha & Hg). exists (genresOf m a). rewrite in_map_iff.
        split; [exists a|]; by rewrite <- ?list_elem_of_In.
  - intros m item a1 a2 Harts H1 H2.
    assert (Hg : JsSet.toArray (trackGenres m (track item)) = ["rock"; "pop"]).
    { rewrite trackGenres_dedupFirst. unfold artistGenres, genresOf.
      rewrite Harts. simpl. by rewrite H1, H2. }
    split; [done|]. unfold renderRow. simpl. by rewrite Hg.
Qed.

Lemma rendered_genres_are_first_seen_union_witness :
  JsSet.toArray
    (trackGenres rockPop (track (mkItem "t" [mkArtist "a1"; mkArtist "a2"])))
  = ["rock"; "pop"]
  /\ renderRow rockPop (mkItem "t" [mkArtist "a1"; mkArtist "a2"]) !! 6
     = Some "rock, pop".
Proof.
  apply (proj2 (proj2 rendered_genres_are_first_seen_union)
           rockPop (mkItem "t" [mkArtist "a1"; mkArtist "a2"])
           (mkArtist "a1") (mkArtist "a2")).
  - reflexivity.
  - vm_compute. reflexivity.
  - vm_compute. reflexivity.
Defined.

(** ** The sync run *)

Lemma readExisting_lastRow sheet : snd (readExisting sheet) = length (default [] sheet).
Proof.
  unfold readExisting. destruct sheet as [data|]; simpl; [|done].
  destruct (1 <? length data); [|done]. by destruct (indexOf "Track ID" header).
Qed.

(** The three outcomes of a run that starts with access and a spreadsheet. *)
Lemma updateLikedSongsSheet_unfold fuel up w :
  hasAccess w = true ->
  store w <> NoSpreadsheet ->
  updateLikedSongsSheet fuel up w
  = match getNewSavedTracks fuel up (existingOf (store w)) w with
    | None => None
    | Some (None, w1) => Some w1
    | Some (Some newTracks, w1) =>
      if length newTracks =? 0 then Some w1
      else
        Some (setStore
                (SheetPresent
                   (writeNewTracks (getSheetByName (store w)) (length (gridOf (store w)))
                      (genreIndex up newTracks w1) newTracks))
                (snd (fetchGenres up (JsSet.toArray (collectArtistIds newTracks)) w1)))
    end.
Proof.
  intros Hacc Hss. unfold updateLikedSongsSheet, isSpotifyAuthorized, existingOf,
    genreIndex, gridOf.
  rewrite Hacc. cbn [negb].
  destruct (store w) as [| |grid] eqn:Hst; [done| |].
  - simpl.
    destruct (getNewSavedTracks fuel up JsSet.empty w) as [[[nt|] w1]|]; [|done|done].
    destruct (length nt =? 0); [done|].
    by destruct (fetchGenres up (JsSet.toArray (collectArtistIds nt)) w1).
  - simpl. destruct (1 <? length grid); simpl;
      (match goal with
       | |- context [getNewSavedTracks fuel up ?E w] =>
         destruct (getNewSavedTracks fuel up E w) as [[[nt|] w1]|]; [|done|done]
       end;
       destruct (length nt =? 0); [done|];
       by destruct (fetchGenres up (JsSet.toArray (collectArtistIds nt)) w1)).
Qed.

Lemma getNewSavedTracks_loop_store up K fuel :
  forall acc nextUrl found w r w',
    getNewSavedTracks_loop fuel up K acc nextUrl found w = Some (r, w') ->
    store w' = store w.
Proof.
  induction fuel as [|fuel IH]; intros acc nextUrl found w r w' H; simpl in H.
  - destruct (truthyOpt nextUrl && negb found); [done|]. by simplify_eq.
  - destruct (truthyOpt nextUrl && negb found); [|by simplify_eq].
    destruct (negb (hasAccess w)); [by simplify_eq|].
    destruct (_ =? 200)%Z.
    + destruct (parsedBody _) as [p|]; [|by simplify_eq].
      destruct (match items p with Some _ => _ | None => _ end) as [nt f].
      by apply IH in H.
    + repeat (destruct (_ =? _)%Z); by simplify_eq.
Qed.

Lemma ensureHeader_shape (s : Store) :
  ensureHeader (getSheetByName s) (length (gridOf s)) = firstRowAfter s :: dataRows s.
Proof.
  unfold firstRowAfter, dataRows, gridOf.
  destruct (getSheetByName s) as [grid|]; simpl; [|done].
  destruct grid as [|r rest]; simpl; [done|].
  destruct rest as [|r' rest]; simpl; [|done].
  by destruct (String.eqb _ "").
Qed.

Lemma writeNewTracks_shape (s : Store) m nt :
  nt <> [] ->
  writeNewTracks (getSheetByName s) (length (gridOf s)) m nt
  = firstRowAfter s :: map (renderRow m) nt ++ dataRows s.
Proof.
  intros Hnt. unfold writeNewTracks. rewrite ensureHeader_shape, length_map.
  destruct nt as [|x nt]; [done|]. done.
Qed.

Lemma firstRowAfter_cases (s : Store) :
  (gridOf s = [] -> firstRowAfter s = header) /\
  (forall r r' rest, gridOf s = r :: r' :: rest -> firstRowAfter s = r).
Proof.
  unfold firstRowAfter, gridOf. split.
  - destruct (getSheetByName s) as [grid|]; simpl; [|done]. by intros ->.
  - intros r r' rest. destruct (getSheetByName s) as [grid|]; simpl; [|done].
    by intros ->.
Qed.

Lemma updateLikedSongsSheet_unauthorized fuel up w :
  hasAccess w = false -> updateLikedSongsSheet fuel up w = Some w.
Proof. intros H. unfold updateLikedSongsSheet, isSpotifyAuthorized. by rewrite H. Qed.

Lemma getNewSavedTracks_unauthorized fuel up K w r w' :
  hasAccess w = false -> getNewSavedTracks fuel up K w = Some (r, w') -> r = None.
Proof.
  intros Hacc H. unfold getNewSavedTracks in H.
  destruct fuel; simpl in H; [done|]. rewrite Hacc in H. simpl in H. by simplify_eq.
Qed.

(** A run that finds new tracks. *)
Lemma updateLikedSongsSheet_inserts fuel up w nt w1 :
  hasAccess w = true ->
  store w <> NoSpreadsheet ->
  getNewSavedTracks fuel up (existingOf (store w)) w = Some (Some nt, w1) ->
  nt <> [] ->
  exists w',
    updateLikedSongsSheet fuel up w = Some w' /\
    hasAccess w'
    = hasAccess (snd (fetchGenres up (JsSet.toArray (collectArtistIds nt)) w1)) /\
    store w'
    = SheetPresent (firstRowAfter (store w)
                      :: map (renderRow (genreIndex up nt w1)) nt ++ dataRows (store w)).
Proof.
  intros Hacc Hss Hnew Hnt.
  rewrite updateLikedSongsSheet_unfold, Hnew by done.
  destruct nt as [|x nt]; [done|]. cbn [length Nat.eqb].
  eexists. split; [done|]. split; [done|]. simpl.
  by rewrite (writeNewTracks_shape (store w)).
Qed.

(** The two ways a run can end: the store as it was, or the new rows
    inserted. *)
Lemma updateLikedSongsSheet_outcomes fuel up w w' :
  updateLikedSongsSheet fuel up w = Some w' ->
  store w' = store w \/
  exists nt wa,
    nt <> [] /\ hasAccess w = true /\ store w <> NoSpreadsheet /\
    getNewSavedTracks fuel up (existingOf (store w)) w = Some (Some nt, wa) /\
    store w'
    = SheetPresent (firstRowAfter (store w)
                      :: map (renderRow (genreIndex up nt wa)) nt ++ dataRows (store w)).
Proof.
  intros Hrun.
  destruct (hasAccess w) eqn:Hacc; cycle 1.
  { rewrite updateLikedSongsSheet_unauthorized in Hrun by done.
    injection Hrun as <-. by left. }
  assert (Hdec : store w = NoSpreadsheet \/ store w <> NoSpreadsheet)
    by (destruct (store w); [by left | by right | by right]).
  destruct Hdec as [Hss|Hss].
  { unfold updateLikedSongsSheet, isSpotifyAuthorized in Hrun.
    rewrite Hacc, Hss in Hrun. injection Hrun as <-. by left. }
  destruct (getNewSavedTracks fuel up (existingOf (store w)) w) as [[[nt|] wa]|] eqn:Hnew.
  - destruct nt as [|x rest0].
    + rewrite updateLikedSongsSheet_unfold, Hnew in Hrun by done.
      simpl in Hrun. injection Hrun as <-.
      left. by apply getNewSavedTracks_loop_store in Hnew.
    + destruct (updateLikedSongsSheet_inserts fuel up w (x :: rest0) wa)
        as (w'' & Hrun' & _ & Hst); try done.
      rewrite Hrun in Hrun'. injection Hrun' as <-.
      right. by exists (x :: rest0), wa.
  - rewrite updateLikedSongsSheet_unfold, Hnew in Hrun by done.
    injection Hrun as <-. left. by apply getNewSavedTracks_loop_store in Hnew.
  - rewrite updateLikedSongsSheet_unfold, Hnew in Hrun by done. done.
Qed.

(** C5, as the code has it. When the detector returns the empty list, the
    run leaves the store exactly as it found it, whatever state the store
    was in: absent, without rows, or populated.  No sheet is created and
    no header is written.  The store changes only in a run that has new
    rows to write: a run that ends with the store changed started with
    access and a spreadsheet, its detector returned a non-empty list, and
    the store holds the first row, the new rows and the earlier rows; so a
    run that starts from an absent sheet and ends with a sheet is such a
    run, and the sheet it leaves starts with the header.  A run whose
    detector returns [null], or that starts without access or without a
    spreadsheet, leaves the store as it was. *)
Theorem empty_new_set_leaves_store_untouched :
  (forall fuel up w w1,
      getNewSavedTracks fuel up (existingOf (store w)) w = Some (Some [], w1) ->
      exists w', updateLikedSongsSheet fuel up w = Some w' /\ store w' = store w)
  /\
  (forall fuel up w w',
      updateLikedSongsSheet fuel up w = Some w' ->
      store w' <> store w ->
      hasAccess w = true /\ store w <> NoSpreadsheet /\
      exists nt w1,
        getNewSavedTracks fuel up (existingOf (store w)) w = Some (Some nt, w1) /\
        nt <> [] /\
        store w'
        = SheetPresent (firstRowAfter (store w)
                          :: map (renderRow (genreIndex up nt w1)) nt ++ dataRows (store w)))
  /\
  (forall fuel up w w',
      store w = SheetAbsent ->
      updateLikedSongsSheet fuel up w = Some w' ->
      store w' <> SheetAbsent ->
      exists nt w1,
        getNewSavedTracks fuel up JsSet.empty w = Some (Some nt, w1) /\
        nt <> [] /\
        store w' = SheetPresent (header :: map (renderRow (genreIndex up nt w1)) nt))
  /\
  (forall fuel up w w1,
      getNewSavedTracks fuel up (existingOf (store w)) w = Some (None, w1) ->
      exists w', updateLikedSongsSheet fuel up w = Some w' /\ store w' = store w).
Proof.
  assert (Honly : forall fuel up w w',
      updateLikedSongsSheet fuel up w = Some w' ->
      store w' <> store w ->
      hasAccess w = true /\ store w <> NoSpreadsheet /\
      exists nt w1,
        getNewSavedTracks fuel up (existingOf (store w)) w = Some (Some nt, w1) /\
        nt <> [] /\
        store w'
        = SheetPresent (firstRowAfter (store w)
                          :: map (renderRow (genreIndex up nt w1)) nt ++ dataRows (store w))).
  { intros fuel up w w' Hrun Hch.
    destruct (updateLikedSongsSheet_outcomes fuel up w w' Hrun)
      as [Hsame | (nt & wa & Hnt & Hacc & Hss & Hnew & Hst)]; [done|].
    split; [done|]. split; [done|]. by exists nt, wa. }
  assert (Hquiet : forall fuel up w r w1,
      getNewSavedTracks fuel up (existingOf (store w)) w = Some (r, w1) ->
      r = None \/ r = Some [] ->
      exists w', updateLikedSongsSheet fuel up w = Some w' /\ store w' = store w).
  { intros fuel up w r w1 H Hr.
    destruct (hasAccess w) eqn:Hacc; cycle 1.
    { exists w. by rewrite updateLikedSongsSheet_unauthorized. }
    assert (Hdec : store w = NoSpreadsheet \/ store w <> NoSpreadsheet)
      by (destruct (store w); [by left | by right | by right]).
    destruct Hdec as [Hss|Hss].
    { exists w. unfold updateLikedSongsSheet, isSpotifyAuthorized.
      by rewrite Hacc, Hss. }
    exists w1. rewrite updateLikedSongsSheet_unfold, H by done.
    split; [by destruct Hr as [-> | ->]|]. by apply getNewSavedTracks_loop_store in H. }
  split; [|split; [|split]].
  - intros fuel up w w1 H. apply (Hquiet fuel up w (Some []) w1 H). by right.
  - exact Honly.
  - intros fuel up w w' Habs Hrun Hch.
    destruct (Honly fuel up w w' Hrun) as (_ & _ & nt & w1 & Hnew & Hnt & Hst);
      [by rewrite Habs|].
    exists nt, w1. rewrite Habs in Hnew, Hst. split; [exact Hnew|]. split; [done|].
    rewrite Hst. unfold firstRowAfter, dataRows, gridOf. simpl. by rewrite app_nil_r.
  - intros fuel up w w1 H. apply (Hquiet fuel up w None w1 H). by left.
Qed.

Lemma empty_new_set_leaves_store_untouched_witness :
  (exists w', updateLikedSongsSheet 1 emptyLibrary (signedIn SheetAbsent) = Some w'
              /\ store w' = store (signedIn SheetAbsent))
  /\
  (exists w', updateLikedSongsSheet 3 threePages (signedIn SheetAbsent) = Some w'
              /\ store w' = store (signedIn SheetAbsent))
  /\
  (exists nt w1,
      getNewSavedTracks 1 libraryAB JsSet.empty (signedIn SheetAbsent) = Some (Some nt, w1) /\
      nt <> [] /\
      store (setStore
               (SheetPresent [header; renderRow ∅ (mkItem "a" []); renderRow ∅ (mkItem "b" [])])
               (afterFetches [SAVED_TRACKS_URL] (signedIn SheetAbsent)))
      = SheetPresent (header :: map (renderRow (genreIndex libraryAB nt w1)) nt)).
Proof.
  destruct empty_new_set_leaves_store_untouched as (Hempty & _ & Hcreated & Hnull).
  split; [|split].
  - apply (Hempty 1 emptyLibrary (signedIn SheetAbsent)
             (afterFetches [SAVED_TRACKS_URL] (signedIn SheetAbsent))).
    reflexivity.
  - apply (Hnull 3 threePages (signedIn SheetAbsent)
             (afterFetches [SAVED_TRACKS_URL; "page2"; "page3"] (signedIn SheetAbsent))).
    vm_compute. reflexivity.
  - apply (Hcreated 1 libraryAB (signedIn SheetAbsent)).
    + reflexivity.
    + vm_compute. reflexivity.
    + discriminate.
Defined.

(** C5, as the specification has it, fails in the bootstrap cases: with an
    empty library the run leaves an absent sheet absent (none is created)
    and a sheet without rows without rows (no header is written). *)
Lemma empty_new_set_bootstrap_counterexample :
  updateLikedSongsSheet 1 emptyLibrary (signedIn SheetAbsent)
  = Some (afterFetches [SAVED_TRACKS_URL] (signedIn SheetAbsent))
  /\ store (afterFetches [SAVED_TRACKS_URL] (signedIn SheetAbsent)) = SheetAbsent
  /\ updateLikedSongsSheet 1 emptyLibrary (signedIn (SheetPresent []))
     = Some (afterFetches [SAVED_TRACKS_URL] (signedIn (SheetPresent [])))
  /\ store (afterFetches [SAVED_TRACKS_URL] (signedIn (SheetPresent []))) = SheetPresent []
  /\ ~ (forall fuel up w w1,
          store w = SheetAbsent ->
          getNewSavedTracks fuel up (existingOf (store w)) w = Some (Some [], w1) ->
          exists w' grid, updateLikedSongsSheet fuel up w = Some w'
                          /\ store w' = SheetPresent (header :: grid)).
Proof.
  repeat split; try reflexivity.
  intros H.
  destruct (H 1 emptyLibrary (signedIn SheetAbsent)
              (afterFetches [SAVED_TRACKS_URL] (signedIn SheetAbsent))
              eq_refl eq_refl) as (w' & grid & Hrun & Hst).
  vm_compute in Hrun. inversion Hrun; subst. discriminate.
Qed.

Lemma keyColumn_after first (rows old : list (list string)) :
  keyColumn (SheetPresent (first :: rows ++ old))
  = map (fun row => default "" (row !! 5)) rows ++ map (fun row => default "" (row !! 5)) old.
Proof.
  unfold keyColumn, dataRows, gridOf. simpl.
  by rewrite drop_0, map_app.
Qed.

Lemma keyColumn_rendered m (nt : list SpotifySavedTrackObject) :
  map (fun row => default "" (row !! 5)) (map (renderRow m) nt)
  = map (fun x => track_id (track x)) nt.
Proof. rewrite map_map. by apply map_ext. Qed.

Lemma newPrefix_is_prefix K l : exists rest, l = newPrefix K l ++ rest.
Proof.
  induction l as [|y l [rest IH]]; simpl; [by exists []|].
  destruct (known K y); [by exists (y :: l)|]. exists rest. simpl. by rewrite <- IH.
Qed.

Lemma newPrefix_prefix K l : newPrefix K l `prefix_of` l.
Proof. destruct (newPrefix_is_prefix K l) as [rest H]. by exists rest. Qed.

Lemma join_blank (l : list string) : join "" l = "" <-> blank l.
Proof.
  unfold join, blank. induction l as [|x l IH]; [by split; [constructor|]|].
  destruct l as [|y l].
  - simpl. split; [intros ->; by repeat constructor | by inversion 1].
  - change (String.concat "" (x :: y :: l)) with (x +:+ String.concat "" (y :: l)).
    split.
    + intros H. destruct x; [|discriminate]. constructor; [done|]. by apply IH.
    + inversion 1 as [|? ? -> Hrest]; subst. by apply IH.
Qed.

Lemma firstRowValues_blank (r : list string) :
  join "" (firstRowValues (length header) [r]) = "" <-> blank (take (length header) r).
Proof.
  rewrite join_blank. unfold firstRowValues, blank. cbn [lookup list_lookup default from_option id].
  rewrite take_app, Forall_app. split; [by intros [? _]|]. intros H. split; [done|].
  apply Forall_take, Forall_replicate. done.
Qed.

(** The first row a run leaves, case by case. *)
Lemma firstRowAfter_one_row (s : Store) r :
  gridOf s = [r] ->
  (blank (take (length header) r) -> firstRowAfter s = header ++ drop (length header) r) /\
  (~ blank (take (length header) r) -> firstRowAfter s = r).
Proof.
  unfold firstRowAfter, gridOf.
  destruct (getSheetByName s) as [grid|]; cbn [default from_option id]; [|done].
  intros ->. unfold ensureHeader. cbn [length Nat.eqb andb].
  destruct (String.eqb_spec (join "" (firstRowValues (length header) [r])) "") as [Hb|Hb];
    rewrite firstRowValues_blank in Hb.
  - split; [|done]. intros _. unfold setFirstRow. done.
  - split; [done|]. done.
Qed.

Lemma firstRowAfter_header (s : Store) :
  gridOf s = [] \/
  (exists r, gridOf s = [r] /\ blank r /\ length r <= length header) \/
  (exists rest, gridOf s = header :: rest) ->
  firstRowAfter s = header.
Proof.
  intros [H|[(r & H & Hb & Hlen)|(rest & H)]].
  - by apply firstRowAfter_cases.
  - destruct (firstRowAfter_one_row s r H) as [Hblank _].
    rewrite Hblank by (by apply Forall_take).
    rewrite drop_ge by done. apply app_nil_r.
  - destruct rest as [|r' rest].
    + destruct (firstRowAfter_one_row s header H) as [_ Hkeep].
      apply Hkeep. unfold blank. intros Hall. inversion Hall as [|? ? Hx _]. discriminate.
    + by apply (proj2 (firstRowAfter_cases s) header r' rest).
Qed.

Lemma addedAtColumn_after first (rows old : list (list string)) :
  addedAtColumn (SheetPresent (first :: rows ++ old))
  = map (fun row => default "" (row !! 0)) rows ++ map (fun row => default "" (row !! 0)) old.
Proof.
  unfold addedAtColumn, dataRows, gridOf. simpl.
  by rewrite drop_0, map_app.
Qed.

Lemma addedAtColumn_rendered m (nt : list SpotifySavedTrackObject) :
  map (fun row => default "" (row !! 0)) (map (renderRow m) nt) = map added_at nt.
Proof. rewrite map_map. by apply map_ext. Qed.

Lemma newestFirst_app_l recent (l1 l2 : list string) :
  newestFirst recent (l1 ++ l2) -> newestFirst recent l1.
Proof.
  induction l1 as [|x l1 IH]; [done|]. destruct l1 as [|y l1]; [done|].
  cbn [app newestFirst]. intros [Hxy H]. split; [done|]. by apply IH.
Qed.

Lemma newestFirst_app recent (l1 l2 : list string) :
  newestFirst recent l1 ->
  newestFirst recent l2 ->
  (forall x y, x ∈ l1 -> head l2 = Some y -> recent x y) ->
  newestFirst recent (l1 ++ l2).
Proof.
  induction l1 as [|x l1 IH]; intros H1 H2 Hb; [done|].
  destruct l1 as [|y l1].
  - destruct l2 as [|z l2]; [done|]. cbn [app newestFirst]. split; [|done].
    apply Hb; [by left | done].
  - cbn [app newestFirst] in *. destruct H1 as [Hxy H1]. split; [done|].
    apply IH; [done | done |]. intros a b Ha. apply Hb. by right.
Qed.

(** C4. A run that finds new tracks leaves the sheet as: its first row,
    then the rows of the new tracks in the order the detector returned
    them (newest first), as one block starting at row 2, then all the rows
    that were below the first row before, unchanged and in their order; the
    Added At column of the rows below the first is the [added_at] of the
    new tracks followed by the column as it was.  The first row is the
    header when the sheet was absent, had no row, had one row of at most
    eight blank cells, or started with the header; on a sheet of one row
    whose first eight cells are blank the header is written over them; a
    row that is not blank, and the first row of a sheet with more rows,
    are left as they are.  Descending recency is kept by every run,
    whatever its outcome: when the rows below the first were in descending
    recency, the upstream serves its items in descending recency, and no
    new track is older than the newest row of the sheet, the rows below the
    first are in descending recency after the run.  Two successive runs
    that add [a b] and then [c d] leave the rows of [c d a b] followed by
    the earlier rows. *)
Theorem new_rows_inserted_below_first_row :
  (forall fuel up w nt w1,
      hasAccess w = true ->
      store w <> NoSpreadsheet ->
      getNewSavedTracks fuel up (existingOf (store w)) w = Some (Some nt, w1) ->
      nt <> [] ->
      exists w',
        updateLikedSongsSheet fuel up w = Some w' /\
        store w'
        = SheetPresent (firstRowAfter (store w)
                          :: map (renderRow (genreIndex up nt w1)) nt
                          ++ dataRows (store w)) /\
        keyColumn (store w') = map (fun x => track_id (track x)) nt ++ keyColumn (store w) /\
        addedAtColumn (store w') = map added_at nt ++ addedAtColumn (store w))
  /\
  (forall s, (gridOf s = [] -> firstRowAfter s = header) /\
             (forall r, gridOf s = [r] -> blank (take (length header) r) ->
                        firstRowAfter s = header ++ drop (length header) r) /\
             (forall r, gridOf s = [r] -> ~ blank (take (length header) r) ->
                        firstRowAfter s = r) /\
             (forall r r' rest, gridOf s = r :: r' :: rest -> firstRowAfter s = r) /\
             (gridOf s = [] \/
              (exists r, gridOf s = [r] /\ blank r /\ length r <= length header) \/
              (exists rest, gridOf s = header :: rest) ->
              firstRowAfter s = header))
  /\
  (forall (recent : string -> string -> Prop) fuel up w w',
      updateLikedSongsSheet fuel up w = Some w' ->
      newestFirst recent (addedAtColumn (store w)) ->
      (forall chain : Chain,
          completes up (existingOf (store w)) (Some SAVED_TRACKS_URL) chain ->
          newestFirst recent (map added_at (allItems chain)) /\
          (forall x y,
              x ∈ newPrefix (existingOf (store w)) (allItems chain) ->
              head (addedAtColumn (store w)) = Some y ->
              recent (added_at x) y)) ->
      newestFirst recent (addedAtColumn (store w')))
  /\
  (forall fuel1 fuel2 up1 up2 w a b c d wa w1 wc,
      hasAccess w = true ->
      store w <> NoSpreadsheet ->
      getNewSavedTracks fuel1 up1 (existingOf (store w)) w = Some (Some [a; b], wa) ->
      updateLikedSongsSheet fuel1 up1 w = Some w1 ->
      getNewSavedTracks fuel2 up2 (existingOf (store w1)) w1 = Some (Some [c; d], wc) ->
      exists w2,
        updateLikedSongsSheet fuel2 up2 w1 = Some w2 /\
        store w2
        = SheetPresent (firstRowAfter (store w)
                          :: [renderRow (genreIndex up2 [c; d] wc) c;
                              renderRow (genreIndex up2 [c; d] wc) d;
                              renderRow (genreIndex up1 [a; b] wa) a;
                              renderRow (genreIndex up1 [a; b] wa) b]
                          ++ dataRows (store w)) /\
        keyColumn (store w2)
        = [track_id (track c); track_id (track d); track_id (track a); track_id (track b)]
          ++ keyColumn (store w)).
Proof.
  split; [|split; [|split]].
  - intros fuel up w nt w1 Hacc Hss Hnew Hnt.
    destruct (updateLikedSongsSheet_inserts fuel up w nt w1) as (w' & Hrun & _ & Hst);
      try done.
    exists w'. split; [done|]. split; [done|]. split.
    + rewrite Hst, keyColumn_after, keyColumn_rendered. done.
    + rewrite Hst, addedAtColumn_after, addedAtColumn_rendered. done.
  - intros s. split; [apply firstRowAfter_cases|].
    split; [intros r Hr; by apply firstRowAfter_one_row|].
    split; [intros r Hr; by apply firstRowAfter_one_row|].
    split; [apply firstRowAfter_cases|]. apply firstRowAfter_header.
  - intros recent fuel up w w' Hrun Hold Hup.
    destruct (updateLikedSongsSheet_outcomes fuel up w w' Hrun)
      as [Hsame | (nt & wa & Hnt & Hacc & Hss & Hnew & Hst)]; [by rewrite Hsame|].
    destruct (getNewSavedTracks_loop_nonnull up (existingOf (store w)) fuel []
                (Some SAVED_TRACKS_URL) w nt wa eq_refl Hnew)
      as (chain & Hc & Hl & _). simpl in Hl. subst nt.
    destruct (Hup chain Hc) as [Hsorted Hbound].
    rewrite Hst, addedAtColumn_after, addedAtColumn_rendered.
    apply newestFirst_app; [|exact Hold|].
    + destruct (newPrefix_prefix (existingOf (store w)) (allItems chain)) as [k Hk].
      rewrite Hk, map_app in Hsorted. by apply newestFirst_app_l in Hsorted.
    + intros t y Ht Hy. apply list_elem_of_fmap in Ht as (x & -> & Hx).
      by apply Hbound.
  - intros fuel1 fuel2 up1 up2 w a b c d wa w1 wc Hacc Hss Hnew1 Hrun1 Hnew2.
    destruct (updateLikedSongsSheet_inserts fuel1 up1 w [a; b] wa) as (w1' & Hrun1' & _ & Hst1);
      try done.
    rewrite Hrun1 in Hrun1'. injection Hrun1' as <-.
    assert (Hacc1 : hasAccess w1 = true).
    { destruct (getNewSavedTracks_loop_nonnull up2 (existingOf (store w1)) fuel2 []
                  (Some SAVED_TRACKS_URL) w1 [c; d] wc) as (_ & _ & _ & _ & ? & _); done. }
    destruct (updateLikedSongsSheet_inserts fuel2 up2 w1 [c; d] wc) as (w2 & Hrun2 & _ & Hst2);
      try done.
    { by rewrite Hst1. }
    exists w2. split; [done|].
    assert (Hfirst : firstRowAfter (store w1) = firstRowAfter (store w)).
    { rewrite Hst1. unfold firstRowAfter, gridOf. simpl. done. }
    assert (Hst2' : store w2
        = SheetPresent (firstRowAfter (store w)
                          :: [renderRow (genreIndex up2 [c; d] wc) c;
                              renderRow (genreIndex up2 [c; d] wc) d;
                              renderRow (genreIndex up1 [a; b] wa) a;
                              renderRow (genreIndex up1 [a; b] wa) b]
                          ++ dataRows (store w))).
    { rewrite Hst2, Hfirst. rewrite Hst1 at 1. unfold dataRows at 1, gridOf. simpl.
      done. }
    split; [done|]. rewrite Hst2'. by rewrite keyColumn_after.
Qed.

Lemma new_rows_inserted_below_first_row_witness :
  (exists w1 w2,
      updateLikedSongsSheet 1 libraryAB (signedIn oldSheet) = Some w1 /\
      updateLikedSongsSheet 1 libraryCDAB w1 = Some w2 /\
      keyColumn (store w2) = ["c"; "d"; "a"; "b"] ++ ["old"])
  /\
  (exists w',
      updateLikedSongsSheet 1 libraryAB (signedIn blankSheet) = Some w' /\
      store w'
      = SheetPresent
          (firstRowAfter blankSheet
             :: map (renderRow
                       (genreIndex libraryAB [mkItem "a" []; mkItem "b" []]
                          (afterFetches [SAVED_TRACKS_URL] (signedIn blankSheet))))
                  [mkItem "a" []; mkItem "b" []]
             ++ dataRows blankSheet) /\
      keyColumn (store w') = ["a"; "b"] ++ [] /\
      addedAtColumn (store w')
      = map added_at [mkItem "a" []; mkItem "b" []] ++ addedAtColumn blankSheet)
  /\ firstRowAfter blankSheet = header ++ drop (length header) [""]
  /\ firstRowAfter (SheetPresent [["my notes"]]) = ["my notes"]
  /\ newestFirst atLeastAsRecent
       (addedAtColumn
          (store (setStore
                    (SheetPresent
                       [header;
                        renderRow ∅ (mkItemAt "2025-03-01T00:00:00Z" "c");
                        renderRow ∅ (mkItemAt "2025-02-01T00:00:00Z" "b");
                        renderRow ∅ (mkItemAt "2025-01-01T00:00:00Z" "a")])
                    (afterFetches [SAVED_TRACKS_URL] (signedIn datedSheet))))).
Proof.
  destruct new_rows_inserted_below_first_row as (Hblock & Hfirst & Hrecent & Htwo).
  split; [|split; [|split; [|split]]].
  - destruct (Htwo 1 1 libraryAB libraryCDAB (signedIn oldSheet)
                (mkItem "a" []) (mkItem "b" []) (mkItem "c" []) (mkItem "d" [])
                (afterFetches [SAVED_TRACKS_URL] (signedIn oldSheet))
                (setStore
                   (SheetPresent
                      [header; renderRow ∅ (mkItem "a" []); renderRow ∅ (mkItem "b" []);
                       renderRow ∅ (mkItem "old" [])])
                   (afterFetches [SAVED_TRACKS_URL] (signedIn oldSheet)))
                (afterFetches [SAVED_TRACKS_URL]
                   (setStore
                      (SheetPresent
                         [header; renderRow ∅ (mkItem "a" []); renderRow ∅ (mkItem "b" []);
                          renderRow ∅ (mkItem "old" [])])
                      (afterFetches [SAVED_TRACKS_URL] (signedIn oldSheet)))))
      as (w2 & Hrun2 & _ & Hkeys).
    + reflexivity.
    + discriminate.
    + vm_compute. reflexivity.
    + vm_compute. reflexivity.
    + vm_compute. reflexivity.
    + eexists. exists w2. split; [vm_compute; reflexivity|].
      split; [exact Hrun2|exact Hkeys].
  - apply (Hblock 1 libraryAB (signedIn blankSheet) [mkItem "a" []; mkItem "b" []]
             (afterFetches [SAVED_TRACKS_URL] (signedIn blankSheet))).
    + reflexivity.
    + discriminate.
    + reflexivity.
    + discriminate.
  - apply (proj1 (proj2 (Hfirst blankSheet)) [""]); [reflexivity|].
    repeat constructor.
  - apply (proj1 (proj2 (proj2 (Hfirst (SheetPresent [["my notes"]])))) ["my notes"]);
      [reflexivity|].
    intros Hall. inversion Hall as [|? ? Hx _]. discriminate.
  - apply (Hrecent atLeastAsRecent 1 datedLibrary (signedIn datedSheet)).
    + vm_compute. reflexivity.
    + exact I.
    + intros chain Hc. destruct chain as [|[u p] chain]; [done|].
      cbn [completes] in Hc. destruct Hc as (_ & _ & _ & Hp & Hrest).
      injection Hp as <-.
      change (existsb (known (existingOf (store (signedIn datedSheet)))) (pageItems datedPage))
        with true in Hrest.
      cbn iota in Hrest. subst chain. split.
      * repeat split; reflexivity.
      * intros x y Hx Hy. injection Hy as <-.
        change (newPrefix (existingOf (store (signedIn datedSheet)))
                  (allItems [(u, datedPage)]))
          with [mkItemAt "2025-03-01T00:00:00Z" "c"; mkItemAt "2025-02-01T00:00:00Z" "b"]
          in Hx.
        apply elem_of_cons in Hx as [->|Hx]; [reflexivity|].
        apply list_elem_of_singleton in Hx as ->. reflexivity.
Defined.

(** ** Running the sync again *)

(** The walk reads the world only through [hasAccess]. *)
Lemma getNewSavedTracks_loop_frame up K fuel :
  forall acc nextUrl found w v,
    hasAccess w = hasAccess v ->
    match getNewSavedTracks_loop fuel up K acc nextUrl found w with
    | None => getNewSavedTracks_loop fuel up K acc nextUrl found v = None
    | Some (r, w') =>
      exists v', getNewSavedTracks_loop fuel up K acc nextUrl found v = Some (r, v')
                 /\ hasAccess v' = hasAccess w'
    end.
Proof.
  induction fuel as [|fuel IH]; intros acc nextUrl found w v Hwv; simpl.
  - destruct (truthyOpt nextUrl && negb found); [done|]. eauto.
  - destruct (truthyOpt nextUrl && negb found); [|eauto].
    rewrite <- Hwv. destruct (hasAccess w) eqn:Hacc; simpl; [|eauto].
    destruct (_ =? 200)%Z.
    + destruct (parsedBody _) as [p|]; [|eauto].
      destruct (match items p with Some _ => _ | None => _ end) as [nt f].
      apply IH. simpl. congruence.
    + repeat (destruct (_ =? _)%Z); eauto.
Qed.

Lemma completes_serves up K (chain : Chain) :
  forall nextUrl, completes up K nextUrl chain -> serves up nextUrl chain.
Proof.
  induction chain as [|[u p] chain IH]; intros nextUrl H; [done|].
  simpl in *. destruct H as (? & ? & ? & ? & H). repeat split; try done.
  destruct (existsb (known K) (pageItems p)); [by subst|].
  destruct chain; [done|]. by apply IH.
Qed.

Lemma first_item_split (chain : Chain) x rest :
  allItems chain = x :: rest ->
  exists front u p back b,
    chain = front ++ (u, p) :: back /\ allItems front = [] /\ pageItems p = x :: b.
Proof.
  induction chain as [|[u0 p0] chain IH]; intros H; [done|].
  unfold allItems in H. simpl in H. fold (allItems chain) in H.
  destruct (pageItems p0) as [|y b] eqn:Hp0.
  - simpl in H. destruct (IH H) as (front & u & p & back & b & -> & Hf & Hp).
    exists ((u0, p0) :: front), u, p, back, b. repeat split; try done.
    unfold allItems. simpl. by rewrite Hp0.
  - simpl in H. injection H as -> _. by exists [], u0, p0, chain, b.
Qed.

Lemma newPrefix_head K l x rest : newPrefix K l = x :: rest -> exists l', l = x :: l'.
Proof.
  destruct l as [|y l]; simpl; [done|]. destruct (known K y); [done|].
  intros [= -> _]. eauto.
Qed.

Lemma JsSet_add_elem x y s : y ∈ JsSet.add x s <-> y = x \/ y ∈ s.
Proof.
  unfold JsSet.add. destruct (JsSet.has x s) eqn:Hx.
  - apply JsSet_has_true in Hx. split; [by right|]. by intros [->|].
  - rewrite elem_of_app, list_elem_of_singleton. tauto.
Qed.

Lemma readTrackIds_mono c rows :
  forall s y, y ∈ s -> y ∈ readTrackIds c rows s.
Proof.
  induction rows as [|row rows IH]; intros s y Hy; simpl; [done|].
  apply IH. destruct (row !! c) as [cell|]; [|done].
  destruct (truthy cell); [|done]. apply JsSet_add_elem. by right.
Qed.

Lemma readTrackIds_elem c rows :
  forall s y,
    truthy y = true ->
    y ∈ map (fun row => default "" (row !! c)) rows ->
    y ∈ readTrackIds c rows s.
Proof.
  induction rows as [|row rows IH]; intros s y Hy Hin; simpl in *; [by inversion Hin|].
  apply elem_of_cons in Hin as [->|Hin]; [|by apply IH].
  apply readTrackIds_mono. destruct (row !! c) as [cell|]; simpl in *; [|done].
  rewrite Hy. apply JsSet_add_elem. by left.
Qed.

Lemma existingOf_populated first r rows :
  existingOf (SheetPresent (first :: r :: rows)) = readTrackIds 5 (r :: rows) JsSet.empty.
Proof. done. Qed.

(** The second walk of a run that follows a run which added [x :: _]:
    it stops at [x]. *)
Lemma second_walk_stops up K K2 fuel w x rest wa v :
  getNewSavedTracks fuel up K w = Some (Some (x :: rest), wa) ->
  known K2 x = true ->
  hasAccess v = true ->
  exists v', getNewSavedTracks fuel up K2 v = Some (Some [], v') /\ store v' = store v.
Proof.
  intros Hnew Hk Hv.
  destruct (getNewSavedTracks_loop_nonnull up K fuel [] (Some SAVED_TRACKS_URL)
              w (x :: rest) wa eq_refl Hnew) as (chain & Hc & Hnt & _ & _ & Hlen).
  simpl in Hnt. symmetry in Hnt. apply newPrefix_head in Hnt as [l' Hall].
  destruct (first_item_split chain x l' Hall) as (front & u & p & back & b & -> & Hf & Hp).
  apply completes_serves in Hc.
  replace (front ++ (u, p) :: back) with ((front ++ [(u, p)]) ++ back) in Hc
    by (by rewrite <- app_assoc).
  apply serves_app_l in Hc.
  rewrite length_app in Hlen. simpl in Hlen.
  eexists. split.
  - unfold getNewSavedTracks.
    rewrite (getNewSavedTracks_loop_boundary up K2 front fuel [] _ v u p [] x b);
      try done; [|rewrite Hf; constructor|lia].
    by rewrite Hf.
  - done.
Qed.

(** C2, as the code has it. Running the sync again, against the same
    upstream and with the same bound, leaves the store as the first run
    left it, and the second walk brings no new track (it returns the empty
    list, or [null] where the first walk failed too or access was lost),
    provided the newest track the first run added, if it added any, has a
    non-empty id. *)
Theorem resync_leaves_store_unchanged :
  forall fuel up w w1,
    updateLikedSongsSheet fuel up w = Some w1 ->
    (forall x rest wa,
        getNewSavedTracks fuel up (existingOf (store w)) w = Some (Some (x :: rest), wa) ->
        truthy (track_id (track x)) = true) ->
    exists w2,
      updateLikedSongsSheet fuel up w1 = Some w2 /\
      store w2 = store w1 /\
      (store w1 <> NoSpreadsheet ->
       forall r w',
         getNewSavedTracks fuel up (existingOf (store w1)) w1 = Some (r, w') ->
         r = None \/ r = Some []).
Proof.
  intros fuel up w w1 Hrun Hid.
  destruct (hasAccess w) eqn:Hacc; cycle 1.
  { rewrite updateLikedSongsSheet_unauthorized in Hrun by done. injection Hrun as <-.
    exists w. split; [by apply updateLikedSongsSheet_unauthorized|]. split; [done|].
    intros _ r w' Hget. left. by eapply getNewSavedTracks_unauthorized. }
  assert (Hdec : store w = NoSpreadsheet \/ store w <> NoSpreadsheet)
    by (destruct (store w); [by left | by right | by right]).
  destruct Hdec as [Hss|Hss].
  { assert (Hu : updateLikedSongsSheet fuel up w = Some w).
    { unfold updateLikedSongsSheet, isSpotifyAuthorized. by rewrite Hacc, Hss. }
    rewrite Hu in Hrun. injection Hrun as <-. exists w. by repeat split. }
  rewrite updateLikedSongsSheet_unfold in Hrun by done.
  destruct (getNewSavedTracks fuel up (existingOf (store w)) w) as [[[nt|] wa]|] eqn:Hnew;
    [| |done].
  - destruct nt as [|x rest].
    + simpl in Hrun. injection Hrun as <-.
      assert (Hst : store wa = store w) by (by apply getNewSavedTracks_loop_store in Hnew).
      destruct (getNewSavedTracks_loop_nonnull up _ fuel [] (Some SAVED_TRACKS_URL)
                  w [] wa eq_refl Hnew) as (chain0 & _ & _ & Hwa & _ & _).
      assert (Haa : hasAccess wa = true) by (by rewrite Hwa).
      pose proof (getNewSavedTracks_loop_frame up (existingOf (store w)) fuel []
                    (Some SAVED_TRACKS_URL) false w wa ltac:(congruence)) as Hf.
      unfold getNewSavedTracks in Hnew. rewrite Hnew in Hf.
      destruct Hf as (v' & Hv & _).
      exists v'. split; [|split].
      * rewrite updateLikedSongsSheet_unfold by congruence.
        rewrite Hst. unfold getNewSavedTracks. by rewrite Hv.
      * by apply getNewSavedTracks_loop_store in Hv.
      * intros _ r w' Hget. rewrite Hst in Hget. unfold getNewSavedTracks in Hget.
        rewrite Hv in Hget. injection Hget as <- _. by right.
    + cbn [length Nat.eqb] in Hrun. injection Hrun as <-.
      rewrite writeNewTracks_shape by done. cbn [map app store setStore].
      set (m := genreIndex up (x :: rest) wa).
      set (wg := snd (fetchGenres up (JsSet.toArray (collectArtistIds (x :: rest))) wa)).
      set (grid := firstRowAfter (store w)
                     :: renderRow m x :: map (renderRow m) rest ++ dataRows (store w)).
      destruct (hasAccess wg) eqn:Hag.
      * assert (Hk : known (existingOf (SheetPresent grid)) x = true).
        { unfold grid. rewrite existingOf_populated. apply JsSet_has_true.
          apply readTrackIds_elem; [by eapply Hid|]. simpl. by left. }
        destruct (second_walk_stops up _ (existingOf (SheetPresent grid)) fuel w x rest wa
                    (setStore (SheetPresent grid) wg) Hnew Hk Hag) as (v' & Hv & Hsv).
        exists v'. split; [|split].
        -- rewrite updateLikedSongsSheet_unfold by done. simpl store.
           by rewrite Hv.
        -- done.
        -- intros _ r w' Hget. simpl store in Hget. rewrite Hv in Hget.
           injection Hget as <- _. by right.
      * exists (setStore (SheetPresent grid) wg). split; [|split].
        -- by apply updateLikedSongsSheet_unauthorized.
        -- done.
        -- intros _ r w' Hget. left.
           eapply getNewSavedTracks_unauthorized; [|exact Hget]. exact Hag.
  - injection Hrun as <-.
    assert (Hst : store wa = store w) by (by apply getNewSavedTracks_loop_store in Hnew).
    destruct (hasAccess wa) eqn:Haa.
    + pose proof (getNewSavedTracks_loop_frame up (existingOf (store w)) fuel []
                    (Some SAVED_TRACKS_URL) false w wa ltac:(congruence)) as Hf.
      unfold getNewSavedTracks in Hnew. rewrite Hnew in Hf.
      destruct Hf as (v' & Hv & _).
      exists v'. split; [|split].
      * rewrite updateLikedSongsSheet_unfold by congruence.
        rewrite Hst. unfold getNewSavedTracks. by rewrite Hv.
      * by apply getNewSavedTracks_loop_store in Hv.
      * intros _ r w' Hget. rewrite Hst in Hget. unfold getNewSavedTracks in Hget.
        rewrite Hv in Hget. injection Hget as <- _. by left.
    + exists wa. split; [|split].
      * by apply updateLikedSongsSheet_unauthorized.
      * done.
      * intros _ r w' Hget. left. by eapply getNewSavedTracks_unauthorized.
Qed.

Lemma resync_leaves_store_unchanged_witness :
  exists w2,
    updateLikedSongsSheet 1 libraryAB
      (setStore
         (SheetPresent
            [header; renderRow ∅ (mkItem "a" []); renderRow ∅ (mkItem "b" []);
             renderRow ∅ (mkItem "old" [])])
         (afterFetches [SAVED_TRACKS_URL] (signedIn oldSheet))) = Some w2 /\
    store w2
    = SheetPresent
        [header; renderRow ∅ (mkItem "a" []); renderRow ∅ (mkItem "b" []);
         renderRow ∅ (mkItem "old" [])].
Proof.
  destruct (resync_leaves_store_unchanged 1 libraryAB (signedIn oldSheet)
              (setStore
                 (SheetPresent
                    [header; renderRow ∅ (mkItem "a" []); renderRow ∅ (mkItem "b" []);
                     renderRow ∅ (mkItem "old" [])])
                 (afterFetches [SAVED_TRACKS_URL] (signedIn oldSheet))))
    as (w2 & Hrun & Hst & _).
  - vm_compute. reflexivity.
  - intros x rest wa H. vm_compute in H. injection H as <- _ _. reflexivity.
  - exists w2. split; [exact Hrun | exact Hst].
Defined.

(** C2, as the specification has it, fails when the newest track has the
    empty string as id: the first run on an absent sheet writes the header
    and one row, the second run reads a blank key cell, which it skips,
    finds the same track new again and inserts a second row. *)
Lemma resync_blank_id_counterexample :
  exists w1 w2,
    updateLikedSongsSheet 1 blankIdLibrary (signedIn SheetAbsent) = Some w1 /\
    updateLikedSongsSheet 1 blankIdLibrary w1 = Some w2 /\
    length (gridOf (store w1)) = 2 /\
    length (gridOf (store w2)) = 3 /\
    store w2 <> store w1.
Proof.
  eexists. eexists. split; [vm_compute; reflexivity|].
  split; [vm_compute; reflexivity|]. repeat split; try reflexivity. discriminate.
Qed.

(** ** Uniqueness of the keys *)

Lemma newPrefix_unknown K l x : x ∈ newPrefix K l -> known K x = false.
Proof.
  induction l as [|y l IH]; simpl; [by inversion 1|].
  destruct (known K y) eqn:Hy; [by inversion 1|].
  intros [->|H]%elem_of_cons; [done|]. by apply IH.
Qed.

Lemma existingOf_complete (s : Store) y :
  truthy y = true -> y ∈ keyColumn s -> y ∈ existingOf s.
Proof.
  intros Hy Hin. destruct s as [| |grid]; [by inversion Hin..|].
  destruct grid as [|first [|r rows]]; [by inversion Hin..|].
  rewrite existingOf_populated. by apply readTrackIds_elem.
Qed.

(** C3, as the code has it. (1) The detector never returns an item whose
    id is in the key set it was given, and the key set a run reads holds
    every non-blank Track ID of the rows below the first one.  (2) When no
    two rows shared a Track ID before the run, and the pages the upstream
    serves carry pairwise distinct, non-empty ids, no two rows share a
    Track ID after the run. *)
Theorem sync_keeps_track_ids_unique :
  (forall fuel up K w nt wa,
      getNewSavedTracks fuel up K w = Some (Some nt, wa) ->
      forall x, x ∈ nt -> track_id (track x) ∉ K)
  /\
  (forall (s : Store) y, truthy y = true -> y ∈ keyColumn s -> y ∈ existingOf s)
  /\
  (forall fuel up w w',
      updateLikedSongsSheet fuel up w = Some w' ->
      NoDup (keyColumn (store w)) ->
      (forall chain : Chain,
          serves up (Some SAVED_TRACKS_URL) chain ->
          NoDup (map (fun x => track_id (track x)) (allItems chain)) /\
          Forall (fun x => truthy (track_id (track x)) = true) (allItems chain)) ->
      NoDup (keyColumn (store w'))).
Proof.
  assert (Hpart1 : forall fuel up K w nt wa,
             getNewSavedTracks fuel up K w = Some (Some nt, wa) ->
             forall x, x ∈ nt -> track_id (track x) ∉ K).
  { intros fuel up K w nt wa Hnew x Hx.
    destruct (getNewSavedTracks_loop_nonnull up K fuel [] (Some SAVED_TRACKS_URL)
                w nt wa eq_refl Hnew) as (chain & _ & -> & _).
    simpl in Hx. apply newPrefix_unknown in Hx. by apply JsSet_has_false in Hx. }
  split; [exact Hpart1|]. split; [exact existingOf_complete|].
  intros fuel up w w' Hrun Hnd Hup.
  destruct (hasAccess w) eqn:Hacc; cycle 1.
  { rewrite updateLikedSongsSheet_unauthorized in Hrun by done. by injection Hrun as <-. }
  assert (Hdec : store w = NoSpreadsheet \/ store w <> NoSpreadsheet)
    by (destruct (store w); [by left | by right | by right]).
  destruct Hdec as [Hss|Hss].
  { unfold updateLikedSongsSheet, isSpotifyAuthorized in Hrun.
    rewrite Hacc, Hss in Hrun. by injection Hrun as <-. }
  destruct (getNewSavedTracks fuel up (existingOf (store w)) w) as [[[nt|] wa]|] eqn:Hnew.
  - destruct nt as [|x rest].
    + rewrite updateLikedSongsSheet_unfold, Hnew in Hrun by done.
      simpl in Hrun. injection Hrun as <-.
      apply getNewSavedTracks_loop_store in Hnew. by rewrite Hnew.
    + destruct (updateLikedSongsSheet_inserts fuel up w (x :: rest) wa)
        as (w'' & Hrun' & _ & Hst); try done.
      rewrite Hrun in Hrun'. injection Hrun' as <-.
      rewrite Hst, keyColumn_after, keyColumn_rendered.
      destruct (getNewSavedTracks_loop_nonnull up _ fuel [] (Some SAVED_TRACKS_URL)
                  w (x :: rest) wa eq_refl Hnew) as (chain & Hc & Hnt & _).
      simpl in Hnt. apply completes_serves in Hc.
      destruct (Hup chain Hc) as [Hids Htruthy].
      destruct (newPrefix_is_prefix (existingOf (store w)) (allItems chain)) as [tl Htl].
      rewrite <- Hnt in Htl.
      apply NoDup_app. repeat split.
      * rewrite Htl, map_app in Hids. by apply NoDup_app in Hids as [? _].
      * intros y Hy Hy'. apply list_elem_of_fmap in Hy as (z & -> & Hz).
        assert (Hzt : truthy (track_id (track z)) = true).
        { rewrite Forall_forall in Htruthy. apply Htruthy. rewrite Htl.
          apply elem_of_app. by left. }
        apply (Hpart1 _ _ _ _ _ _ Hnew z Hz).
        by apply existingOf_complete.
      * exact Hnd.
  - rewrite updateLikedSongsSheet_unfold, Hnew in Hrun by done.
    injection Hrun as <-. apply getNewSavedTracks_loop_store in Hnew. by rewrite Hnew.
  - rewrite updateLikedSongsSheet_unfold, Hnew in Hrun by done. done.
Qed.

Lemma sync_keeps_track_ids_unique_witness :
  (exists w',
      updateLikedSongsSheet 1 libraryAB (signedIn oldSheet) = Some w' /\
      NoDup (keyColumn (store w')))
  /\ (track_id (track (mkItem "a" [])) ∉ ["b"])
  /\ ("old" ∈ existingOf oldSheet).
Proof.
  split; [|split].
  - eexists. split; [vm_compute; reflexivity|].
    eapply (proj2 (proj2 sync_keeps_track_ids_unique) 1 libraryAB (signedIn oldSheet)).
    + vm_compute. reflexivity.
    + apply (bool_decide_unpack _). vm_compute. exact I.
    + intros chain Hs. destruct chain as [|[u p] chain]; simpl.
      * split; constructor.
      * simpl in Hs. destruct Hs as (_ & _ & _ & Hp & Hrest).
        injection Hp as <-. destruct chain as [|[u' p'] chain].
        -- split; [apply (bool_decide_unpack _); vm_compute; exact I|].
           repeat constructor.
        -- simpl in Hrest. destruct Hrest as [Hnone _]. discriminate.
  - apply (proj1 sync_keeps_track_ids_unique 1 libraryAB ["b"] (signedIn SheetAbsent)
             [mkItem "a" []] (afterFetches [SAVED_TRACKS_URL] (signedIn SheetAbsent))).
    + reflexivity.
    + by left.
  - apply (proj1 (proj2 sync_keeps_track_ids_unique) oldSheet "old").
    + reflexivity.
    + by left.
Defined.

(** C3, as the specification has it, fails when the upstream repeats an
    item within one walk: the code keeps every item that is not in the key
    set read before the walk, so the rows of one run can share an id.  On
    an absent sheet the shifted library leaves the keys [a b b c]. *)
Lemma duplicate_within_run_counterexample :
  exists w',
    updateLikedSongsSheet 2 shiftedLibrary (signedIn SheetAbsent) = Some w' /\
    keyColumn (store w') = ["a"; "b"; "b"; "c"] /\
    ~ NoDup (keyColumn (store w')).
Proof.
  eexists. split; [vm_compute; reflexivity|]. split; [reflexivity|].
  simpl. intros H. inversion H as [|? ? _ H']; subst.
  inversion H' as [|? ? Hin _]; subst. apply Hin. by left.
Qed.

Lemma fetchSpotifyApi_is_Of up endpoint w :
  fetchSpotifyApi up endpoint w = fetchSpotifyApiOf (artistsAt up) endpoint w.
Proof. done. Qed.

Lemma fetchSpotifyApiOf_no_access {T} (srv : string -> HTTPResponse T) endpoint w :
  hasAccess w = false -> fetchSpotifyApiOf srv endpoint w = (None, w).
Proof. intros H. unfold fetchSpotifyApiOf. by rewrite H. Qed.

Lemma getArtistsDetails_no_access up ids w :
  hasAccess w = false ->
  snd (getArtistsDetails up ids w) = w /\
  (fst (getArtistsDetails up ids w) = None \/ fst (getArtistsDetails up ids w) = Some []).
Proof.
  intros H. unfold getArtistsDetails. destruct ids as [ids|]; [|by split; [|right]].
  destruct (length ids =? 0); [by split; [|right]|].
  rewrite fetchSpotifyApi_is_Of, fetchSpotifyApiOf_no_access by done. by split; [|left].
Qed.

Lemma lookupChunk_no_access up c st :
  hasAccess (snd st) = false -> lookupChunk up c st = st.
Proof.
  intros H. unfold lookupChunk.
  destruct (getArtistsDetails_no_access up (Some c) (snd st) H) as [Hw Hr].
  destruct (getArtistsDetails up (Some c) (snd st)) as [r w1]. simpl in *. subst w1.
  destruct st as [m w]. by destruct Hr as [-> | ->].
Qed.

Lemma lookupChunk_401 up c st :
  hasAccess (snd st) = true ->
  0 < length c <= 50 ->
  getResponseCode (artistsAt up (artistsUrl c)) = 401%Z ->
  lookupChunk up c st = (fst st, resetSpotifyService (fetch (artistsUrl c) (snd st))).
Proof.
  intros Hacc Hc H401. unfold lookupChunk.
  rewrite getArtistsDetails_small by done.
  unfold fetchSpotifyApi. rewrite Hacc. cbn [negb]. fold (artistsUrl c).
  by rewrite H401.
Qed.

(** ** Partial enrichment *)

Lemma recordArtist_other m d id :
  (forall a, d = Some a -> artist_id a <> id) ->
  recordArtist m d !! id = m !! id.
Proof.
  intros H. unfold recordArtist. destruct d as [a|]; [|done].
  destruct (truthy (artist_id a)); [|done]. destruct (genres a); [|done].
  apply lookup_insert_ne. by apply H.
Qed.

Lemma recordGenres_other ds :
  forall m id,
    (forall a, Some a ∈ ds -> artist_id a <> id) ->
    recordGenres m ds !! id = m !! id.
Proof.
  unfold recordGenres.
  induction ds as [|d ds IH]; intros m id H; simpl; [done|].
  rewrite IH by (intros a Ha; apply H; by right).
  apply recordArtist_other. intros a ->. apply H. by left.
Qed.

Lemma recordGenres_agree ds :
  forall (m m' : gmap string (list string)) id,
    m !! id = m' !! id ->
    recordGenres m ds !! id = recordGenres m' ds !! id.
Proof.
  unfold recordGenres.
  induction ds as [|d ds IH]; intros m m' id H; simpl; [done|].
  apply IH. unfold recordArtist. destruct d as [a|]; [|done].
  destruct (truthy (artist_id a)); [|done]. destruct (genres a); [|done].
  rewrite !lookup_insert. by case_decide.
Qed.

Lemma recordGenres_snoc m ds d :
  recordGenres m (ds ++ [d]) = recordArtist (recordGenres m ds) d.
Proof. unfold recordGenres. by rewrite fold_left_app. Qed.

Lemma recordGenres_present ds :
  forall m a gs,
    Some a ∈ ds ->
    truthy (artist_id a) = true ->
    genres a = Some gs ->
    (forall b, Some b ∈ ds -> artist_id b = artist_id a -> b = a) ->
    recordGenres m ds !! artist_id a = Some gs.
Proof.
  induction ds as [|d ds IH] using rev_ind; intros m a gs Hin Hid Hgs Huniq;
    [by inversion Hin|].
  rewrite recordGenres_snoc.
  destruct d as [b|]; cycle 1.
  { simpl. apply IH; try done.
    - apply elem_of_app in Hin as [?|Hin]; [done|].
      apply list_elem_of_singleton in Hin. done.
    - intros b Hb. apply Huniq. apply elem_of_app. by left. }
  destruct (decide (artist_id b = artist_id a)) as [Heq|Hne].
  - assert (b = a) as -> by (apply Huniq; [apply elem_of_app; right; by left | done]).
    simpl. rewrite Hid, Hgs. apply lookup_insert_eq.
  - rewrite recordArtist_other by (by intros ? [= <-]).
    apply IH; try done.
    + apply elem_of_app in Hin as [?|Hin]; [done|].
      apply list_elem_of_singleton in Hin. by simplify_eq.
    + intros c Hc. apply Huniq. apply elem_of_app. by left.
Qed.

Lemma trackGenres_ext (m m' : gmap string (list string)) t :
  (forall a, a ∈ artists t -> m !! artist_id a = m' !! artist_id a) ->
  trackGenres m t = trackGenres m' t.
Proof.
  intros H. unfold trackGenres. generalize JsSet.empty.
  induction (artists t) as [|a arts IH]; intros s; simpl; [done|].
  rewrite (H a) by (by left). apply IH. intros b Hb. apply H. by right.
Qed.

Lemma renderRow_ext (m m' : gmap string (list string)) item :
  (forall a, a ∈ artists (track item) -> m !! artist_id a = m' !! artist_id a) ->
  renderRow m item = renderRow m' item.
Proof. intros H. unfold renderRow. by rewrite (trackGenres_ext m m'). Qed.

Lemma renderRow_no_genres (m : gmap string (list string)) item :
  (forall a, a ∈ artists (track item) -> m !! artist_id a = None) ->
  renderRow m item !! 6 = Some "".
Proof.
  intros H. rewrite (renderRow_ext m ∅) by (intros a Ha; by rewrite H, lookup_empty).
  unfold renderRow. simpl.
  assert (Hg : trackGenres ∅ (track item) = []).
  { unfold trackGenres. generalize (artists (track item)). intros arts.
    induction arts as [|a arts IH]; simpl; [done|]. by rewrite lookup_empty. }
  by rewrite Hg.
Qed.

Lemma lookupChunk_answers up c r st :
  hasAccess (snd st) = true ->
  0 < length c <= 50 ->
  lookupAnswers up c r ->
  lookupChunk up c st = (recordGenres (fst st) r, fetch (artistsUrl c) (snd st)).
Proof.
  intros Hacc Hc [Hcode Hbody]. unfold lookupChunk.
  rewrite getArtistsDetails_small by done.
  unfold fetchSpotifyApi. rewrite Hacc. cbn [negb]. fold (artistsUrl c).
  rewrite Hbody. by destruct Hcode as [-> | ->].
Qed.

Lemma lookupChunk_fails up c st :
  hasAccess (snd st) = true ->
  0 < length c <= 50 ->
  lookupFails up c ->
  getResponseCode (artistsAt up (artistsUrl c)) <> 401%Z ->
  lookupChunk up c st = (fst st, fetch (artistsUrl c) (snd st)).
Proof.
  intros Hacc Hc Hf H401. unfold lookupChunk.
  rewrite getArtistsDetails_small by done.
  unfold fetchSpotifyApi. rewrite Hacc. cbn [negb]. fold (artistsUrl c).
  destruct Hf as [[H200 H201]|Hbody].
  - apply Z.eqb_neq in H200, H201, H401. by rewrite H200, H201, H401.
  - rewrite Hbody. apply Z.eqb_neq in H401. rewrite H401.
    by destruct (_ || _).
Qed.

(** The chunk loop on three chunks of which the first and the third are
    answered and the second fails: after a 401 the third is not
    requested. *)
Lemma fetchGenres_second_of_three up ids w c1 c2 c3 r1 r3 :
  hasAccess w = true ->
  chunks ids = [c1; c2; c3] ->
  lookupAnswers up c1 r1 ->
  lookupFails up c2 ->
  lookupAnswers up c3 r3 ->
  fetchGenres up ids w
  = if (getResponseCode (artistsAt up (artistsUrl c2)) =? 401)%Z
    then (recordGenres ∅ r1,
          resetSpotifyService (fetch (artistsUrl c2) (fetch (artistsUrl c1) w)))
    else (recordGenres (recordGenres ∅ r1) r3,
          fetch (artistsUrl c3) (fetch (artistsUrl c2) (fetch (artistsUrl c1) w))).
Proof.
  intros Hacc Hchunks H1 H2 H3.
  pose proof (chunksFrom_bounds ids (length ids) 0) as Hb. fold (chunks ids) in Hb.
  rewrite Hchunks in Hb.
  inversion Hb as [|? ? B1 Hb']; subst. inversion Hb' as [|? ? B2 Hb'']; subst.
  inversion Hb'' as [|? ? B3 _]; subst.
  rewrite fetchGenres_chunks, Hchunks. cbn [fold_left].
  rewrite (lookupChunk_answers up c1 r1) by done. cbn [fst snd].
  destruct (getResponseCode (artistsAt up (artistsUrl c2)) =? 401)%Z eqn:E401.
  - apply Z.eqb_eq in E401. rewrite (lookupChunk_401 up c2) by done. cbn [fst snd].
    by rewrite lookupChunk_no_access.
  - apply Z.eqb_neq in E401. rewrite (lookupChunk_fails up c2) by done. cbn [fst snd].
    by rewrite (lookupChunk_answers up c3 r3).
Qed.

Lemma recordGenres_answered ds m id gs :
  answeredIn ds id gs -> recordGenres m ds !! id = Some gs.
Proof.
  intros (a & Ha & <- & Hid & Hgs & Huniq). by apply recordGenres_present.
Qed.

(** The Genres cell of a track all of whose artists are in the index. *)
Lemma renderRow_genres_resolved (m : gmap string (list string)) item
    (g : string -> list string) :
  (forall a, a ∈ artists (track item) -> m !! artist_id a = Some (g (artist_id a))) ->
  renderRow m item !! 6
  = Some (join ", "
            (dedupFirst (concat (map (fun a => g (artist_id a)) (artists (track item)))))).
Proof.
  intros H. unfold renderRow. cbn [lookup list_lookup]. rewrite trackGenres_dedupFirst.
  unfold artistGenres. do 4 f_equal. apply map_ext_in. intros a Ha.
  unfold genresOf. rewrite H by (by apply list_elem_of_In). done.
Qed.

(** C7, as the code has it. A failed genre lookup does not abort the run.
    In a run that finds the new tracks [nt], whose artist ids fill three
    chunks, against an upstream that answers the lookups of the first and
    third chunk with artists and fails the lookup of the second: the run
    completes and writes one row for every new track, below the first row
    and above the old rows; no id of the second chunk is in the genre
    index; a track whose artists are all of the second chunk gets the empty
    Genres cell; a track whose artists were all answered in the first chunk
    gets their genres, joined, each at its first occurrence.  When the
    second chunk fails with any status but 401 (or a body that does not
    parse), the three chunks are requested, access is kept, the index is
    what the first and third answers record, a track whose artists were
    all answered in the first or third chunk gets their genres, and gets
    the row it would have got had the second lookup succeeded.  When the
    second chunk fails with status 401, access is dropped, the third chunk
    is not requested, the index is what the first answer records, and a
    track whose artists are all of the second or third chunk gets the
    empty Genres cell.  The answers are taken to name only artists that
    were asked for. *)
Theorem failed_chunk_does_not_abort_run :
  forall fuel up w nt wa c1 c2 c3 r1 r3,
    hasAccess w = true ->
    store w <> NoSpreadsheet ->
    getNewSavedTracks fuel up (existingOf (store w)) w = Some (Some nt, wa) ->
    nt <> [] ->
    chunks (JsSet.toArray (collectArtistIds nt)) = [c1; c2; c3] ->
    lookupAnswers up c1 r1 ->
    lookupFails up c2 ->
    lookupAnswers up c3 r3 ->
    (forall a, Some a ∈ r1 -> artist_id a ∈ c1) ->
    (forall a, Some a ∈ r3 -> artist_id a ∈ c3) ->
    let idx := genreIndex up nt wa in
    (exists w',
        updateLikedSongsSheet fuel up w = Some w' /\
        store w'
        = SheetPresent (firstRowAfter (store w) :: map (renderRow idx) nt
                          ++ dataRows (store w)) /\
        length (gridOf (store w')) = S (length nt + length (dataRows (store w))) /\
        genresColumn (store w')
        = map (fun item => default "" (renderRow idx item !! 6)) nt
          ++ genresColumn (store w) /\
        (getResponseCode (artistsAt up (artistsUrl c2)) <> 401%Z ->
         hasAccess w' = true /\
         fetched w' = fetched wa ++ [artistsUrl c1; artistsUrl c2; artistsUrl c3]) /\
        (getResponseCode (artistsAt up (artistsUrl c2)) = 401%Z ->
         hasAccess w' = false /\
         fetched w' = fetched wa ++ [artistsUrl c1; artistsUrl c2]))
    /\ (forall id, id ∈ c2 -> idx !! id = None)
    /\ (forall item,
           (forall a, a ∈ artists (track item) -> artist_id a ∈ c2) ->
           renderRow idx item !! 6 = Some "")
    /\ (forall item (g : string -> list string),
           (forall a, a ∈ artists (track item) ->
                      answeredIn r1 (artist_id a) (g (artist_id a))) ->
           renderRow idx item !! 6
           = Some (join ", "
                     (dedupFirst
                        (concat (map (fun a => g (artist_id a)) (artists (track item)))))))
    /\ (getResponseCode (artistsAt up (artistsUrl c2)) <> 401%Z ->
        idx = recordGenres (recordGenres ∅ r1) r3 /\
        (forall item (g : string -> list string),
            (forall a, a ∈ artists (track item) ->
                       answeredIn r1 (artist_id a) (g (artist_id a)) \/
                       answeredIn r3 (artist_id a) (g (artist_id a))) ->
            renderRow idx item !! 6
            = Some (join ", "
                      (dedupFirst
                         (concat (map (fun a => g (artist_id a)) (artists (track item))))))) /\
        (forall item r2,
            (forall a, Some a ∈ r2 -> artist_id a ∈ c2) ->
            (forall a, a ∈ artists (track item) -> artist_id a ∈ c1 \/ artist_id a ∈ c3) ->
            renderRow idx item
            = renderRow (recordGenres (recordGenres (recordGenres ∅ r1) r2) r3) item))
    /\ (getResponseCode (artistsAt up (artistsUrl c2)) = 401%Z ->
        idx = recordGenres ∅ r1 /\
        (forall item,
            (forall a, a ∈ artists (track item) ->
                       artist_id a ∈ c2 \/ artist_id a ∈ c3) ->
            renderRow idx item !! 6 = Some "")).
Proof.
  intros fuel up w nt wa c1 c2 c3 r1 r3
         Hacc Hss Hnew Hnt Hchunks H1 H2 H3 Hr1 Hr3 idx.
  assert (Hnd : NoDup (concat [c1; c2; c3])).
  { rewrite <- Hchunks, concat_chunks. apply collectArtistIds_NoDup. }
  assert (D12 : forall x, x ∈ c1 -> x ∉ c2)
    by (by apply (NoDup_concat_disjoint _ Hnd 0 1)).
  assert (D13 : forall x, x ∈ c1 -> x ∉ c3)
    by (by apply (NoDup_concat_disjoint _ Hnd 0 2)).
  assert (D32 : forall x, x ∈ c3 -> x ∉ c2)
    by (by apply (NoDup_concat_disjoint _ Hnd 2 1)).
  assert (Hwa : hasAccess wa = true).
  { destruct (getNewSavedTracks_loop_nonnull up (existingOf (store w)) fuel []
                (Some SAVED_TRACKS_URL) w nt wa eq_refl Hnew) as (chain & _ & _ & -> & _).
    done. }
  pose proof (fetchGenres_second_of_three up _ wa c1 c2 c3 r1 r3 Hwa Hchunks H1 H2 H3)
    as Hfg.
  assert (Hidx : idx = if (getResponseCode (artistsAt up (artistsUrl c2)) =? 401)%Z
                       then recordGenres ∅ r1
                       else recordGenres (recordGenres ∅ r1) r3).
  { unfold idx, genreIndex. rewrite Hfg. by destruct (_ =? 401)%Z. }
  assert (Hone : forall id, id ∈ c2 \/ id ∈ c3 -> recordGenres ∅ r1 !! id = None).
  { intros id Hid. rewrite recordGenres_other; [apply lookup_empty|].
    intros a Ha Heq. apply Hr1 in Ha. rewrite Heq in Ha.
    destruct Hid as [Hid|Hid]; [by apply (D12 id) | by apply (D13 id)]. }
  assert (Hboth : forall id, id ∈ c2 -> recordGenres (recordGenres ∅ r1) r3 !! id = None).
  { intros id Hid. rewrite recordGenres_other; [apply Hone; by left|].
    intros a Ha Heq. apply (D32 _ (Hr3 a Ha)). by rewrite Heq. }
  assert (Habsent : forall id, id ∈ c2 -> idx !! id = None).
  { intros id Hid. rewrite Hidx. destruct (_ =? 401)%Z; [apply Hone; by left | by apply Hboth]. }
  assert (Hfirst : forall id gs, answeredIn r1 id gs -> idx !! id = Some gs).
  { intros id gs Hans. rewrite Hidx. destruct (_ =? 401)%Z.
    - by apply recordGenres_answered.
    - rewrite recordGenres_other; [by apply recordGenres_answered|].
      intros b Hb Heq. destruct Hans as (a & Ha & Hid & _).
      apply (D13 id); [rewrite <- Hid; by apply Hr1 | rewrite <- Heq; by apply Hr3]. }
  split; [|split; [|split; [|split; [|split]]]].
  - rewrite updateLikedSongsSheet_unfold, Hnew by done.
    destruct nt as [|x nt']; [done|]. cbn [length Nat.eqb].
    eexists. split; [reflexivity|].
    rewrite (writeNewTracks_shape (store w)) by done. fold idx.
    split; [done|]. split.
    { unfold gridOf. simpl. by rewrite length_app, length_map. }
    split.
    { unfold genresColumn at 1, dataRows at 1, gridOf at 1.
      cbn [store setStore getSheetByName default from_option id drop].
      rewrite drop_0, map_app, map_map. done. }
    rewrite Hfg. split.
    + intros Hne. apply Z.eqb_neq in Hne. rewrite Hne. split; [done|].
      simpl. by rewrite <- !app_assoc.
    + intros ->. split; [done|]. simpl. by rewrite <- !app_assoc.
  - exact Habsent.
  - intros item Hall. apply renderRow_no_genres. intros a Ha. by apply Habsent, Hall.
  - intros item g Hall. apply renderRow_genres_resolved. intros a Ha.
    by apply Hfirst, Hall.
  - intros Hne. apply Z.eqb_neq in Hne. rewrite Hne in Hidx. split; [done|]. split.
    + intros item g Hall. apply renderRow_genres_resolved. intros a Ha.
      destruct (Hall a Ha) as [Hans|Hans]; [by apply Hfirst|].
      rewrite Hidx. by apply recordGenres_answered.
    + intros item r2 Hr2 Hall. apply renderRow_ext. intros a Ha. rewrite Hidx.
      apply recordGenres_agree. symmetry. apply recordGenres_other.
      intros b Hb Heq. destruct (Hall a Ha) as [Hc|Hc].
      * apply (D12 _ Hc). rewrite <- Heq. by apply Hr2.
      * apply (D32 _ Hc). rewrite <- Heq. by apply Hr2.
  - intros Heq. rewrite Heq in Hidx. simpl in Hidx. split; [done|].
    intros item Hall. apply renderRow_no_genres. intros a Ha. rewrite Hidx.
    by apply Hone, Hall.
Qed.

(** The sample answers name every artist of their chunk once. *)
Lemma sample_answer_answers (gs : list string) (chunk : list string) a :
  Forall (fun id => truthy id = true) chunk ->
  a ∈ map mkArtist chunk ->
  answeredIn (map (fun id => Some (artistWith gs id)) chunk) (artist_id a) gs.
Proof.
  intros Htruthy Ha. apply list_elem_of_fmap in Ha as (id & -> & Hid).
  exists (artistWith gs id). split; [|split; [|split; [|split]]].
  - apply list_elem_of_fmap. by exists id.
  - done.
  - rewrite Forall_forall in Htruthy. by apply Htruthy.
  - done.
  - intros b Hb Heq. apply list_elem_of_fmap in Hb as (id' & [= ->] & _).
    simpl in Heq. by subst.
Qed.

Lemma failed_chunk_does_not_abort_run_witness :
  (exists w',
      updateLikedSongsSheet 1 flakyGenres (signedIn SheetAbsent) = Some w' /\
      genresColumn (store w') = ["rock"; ""; "pop"] /\
      hasAccess w' = true /\
      fetched w' = [SAVED_TRACKS_URL; artistsUrl firstChunk; artistsUrl secondChunk;
                    artistsUrl thirdChunk])
  /\
  (exists w',
      updateLikedSongsSheet 1 revokedOnSecond (signedIn SheetAbsent) = Some w' /\
      genresColumn (store w') = ["rock"; ""; ""] /\
      hasAccess w' = false /\
      fetched w' = [SAVED_TRACKS_URL; artistsUrl firstChunk; artistsUrl secondChunk]).
Proof.
  assert (T1 : Forall (fun id => truthy id = true) firstChunk)
    by (apply (bool_decide_unpack _); vm_compute; exact I).
  assert (T3 : Forall (fun id => truthy id = true) thirdChunk)
    by (apply (bool_decide_unpack _); vm_compute; exact I).
  split.
  - destruct (failed_chunk_does_not_abort_run 1 flakyGenres (signedIn SheetAbsent)
                threeTracks (afterFetches [SAVED_TRACKS_URL] (signedIn SheetAbsent))
                firstChunk secondChunk thirdChunk rockAnswer popAnswer)
      as ((w' & Hrun & _ & _ & Hcol & Hother & _) & _ & Hblank & Hcell1 & Hcell13 & _).
    + reflexivity.
    + discriminate.
    + vm_compute. reflexivity.
    + discriminate.
    + vm_compute. reflexivity.
    + split; [left|]; vm_compute; reflexivity.
    + left. split; intros H; vm_compute in H; discriminate.
    + split; [left|]; vm_compute; reflexivity.
    + intros a Ha. unfold rockAnswer in Ha.
      apply list_elem_of_fmap in Ha as (id & [= ->] & Hid). exact Hid.
    + intros a Ha. unfold popAnswer in Ha.
      apply list_elem_of_fmap in Ha as (id & [= ->] & Hid). exact Hid.
    + assert (Hne : getResponseCode (artistsAt flakyGenres (artistsUrl secondChunk)) <> 401%Z)
        by (intros H; vm_compute in H; discriminate).
      destruct (Hother Hne) as [Hacc Hlog]. destruct (Hcell13 Hne) as (_ & Hcell & _).
      exists w'. split; [exact Hrun|]. split; [|split; [exact Hacc | exact Hlog]].
      set (idx := genreIndex _ threeTracks _) in *.
      rewrite Hcol. unfold threeTracks. cbn [map app].
      rewrite (Hcell1 (mkItem "t1" (map mkArtist firstChunk)) (fun _ => ["rock"]))
        by (intros a Ha; by apply (sample_answer_answers ["rock"] firstChunk)).
      rewrite (Hblank (mkItem "t2" (map mkArtist secondChunk)))
        by (intros a Ha; change (a ∈ map mkArtist secondChunk) in Ha;
            apply list_elem_of_fmap in Ha as (id & -> & Hid); exact Hid).
      rewrite (Hcell (mkItem "t3" (map mkArtist thirdChunk)) (fun _ => ["pop"]))
        by (intros a Ha; right; by apply (sample_answer_answers ["pop"] thirdChunk)).
      vm_compute. reflexivity.
  - destruct (failed_chunk_does_not_abort_run 1 revokedOnSecond (signedIn SheetAbsent)
                threeTracks (afterFetches [SAVED_TRACKS_URL] (signedIn SheetAbsent))
                firstChunk secondChunk thirdChunk rockAnswer popAnswer)
      as ((w' & Hrun & _ & _ & Hcol & _ & Hrevoked) & _ & _ & Hcell1 & _ & H401).
    + reflexivity.
    + discriminate.
    + vm_compute. reflexivity.
    + discriminate.
    + vm_compute. reflexivity.
    + split; [left|]; vm_compute; reflexivity.
    + left. split; intros H; vm_compute in H; discriminate.
    + split; [left|]; vm_compute; reflexivity.
    + intros a Ha. unfold rockAnswer in Ha.
      apply list_elem_of_fmap in Ha as (id & [= ->] & Hid). exact Hid.
    + intros a Ha. unfold popAnswer in Ha.
      apply list_elem_of_fmap in Ha as (id & [= ->] & Hid). exact Hid.
    + assert (Heq : getResponseCode (artistsAt revokedOnSecond (artistsUrl secondChunk))
                    = 401%Z) by (vm_compute; reflexivity).
      destruct (Hrevoked Heq) as [Hacc Hlog]. destruct (H401 Heq) as [_ Hblank].
      exists w'. split; [exact Hrun|]. split; [|split; [exact Hacc | exact Hlog]].
      set (idx := genreIndex _ threeTracks _) in *.
      rewrite Hcol. unfold threeTracks. cbn [map app].
      rewrite (Hcell1 (mkItem "t1" (map mkArtist firstChunk)) (fun _ => ["rock"]))
        by (intros a Ha; by apply (sample_answer_answers ["rock"] firstChunk)).
      rewrite (Hblank (mkItem "t2" (map mkArtist secondChunk)))
        by (intros a Ha; left; change (a ∈ map mkArtist secondChunk) in Ha;
            apply list_elem_of_fmap in Ha as (id & -> & Hid); exact Hid).
      rewrite (Hblank (mkItem "t3" (map mkArtist thirdChunk)))
        by (intros a Ha; right; change (a ∈ map mkArtist thirdChunk) in Ha;
            apply list_elem_of_fmap in Ha as (id & -> & Hid); exact Hid).
      vm_compute. reflexivity.
Defined.

(** C7, as the specification has it, fails when the second chunk is
    answered with status 401: the token is reset, the lookup of the third
    chunk returns [null] without a request, and the track whose artists
    are all of the third chunk, which the upstream would have answered
    with [pop], gets the empty Genres cell.  The run still completes and
    writes the three rows. *)
Lemma failed_chunk_401_counterexample :
  chunks (JsSet.toArray (collectArtistIds threeTracks))
  = [firstChunk; secondChunk; thirdChunk]
  /\ lookupAnswers revokedOnSecond firstChunk rockAnswer
  /\ lookupFails revokedOnSecond secondChunk
  /\ lookupAnswers revokedOnSecond thirdChunk popAnswer
  /\ (exists w',
         updateLikedSongsSheet 1 revokedOnSecond (signedIn SheetAbsent) = Some w' /\
         genresColumn (store w') = ["rock"; ""; ""] /\
         keyColumn (store w') = ["t1"; "t2"; "t3"] /\
         hasAccess w' = false /\
         fetched w' = [SAVED_TRACKS_URL; artistsUrl firstChunk; artistsUrl secondChunk])
  /\ ~ (forall fuel up w nt wa c1 c2 c3 r1 r3 item gs,
          hasAccess w = true ->
          store w <> NoSpreadsheet ->
          getNewSavedTracks fuel up (existingOf (store w)) w = Some (Some nt, wa) ->
          chunks (JsSet.toArray (collectArtistIds nt)) = [c1; c2; c3] ->
          lookupAnswers up c1 r1 ->
          lookupFails up c2 ->
          lookupAnswers up c3 r3 ->
          item ∈ nt ->
          artists (track item) <> [] ->
          gs <> [] ->
          (forall a, a ∈ artists (track item) -> answeredIn r3 (artist_id a) gs) ->
          renderRow (genreIndex up nt wa) item !! 6 <> Some "").
Proof.
  assert (L1 : lookupAnswers revokedOnSecond firstChunk rockAnswer)
    by (split; [left|]; vm_compute; reflexivity).
  assert (L2 : lookupFails revokedOnSecond secondChunk)
    by (left; split; intros H; vm_compute in H; discriminate).
  assert (L3 : lookupAnswers revokedOnSecond thirdChunk popAnswer)
    by (split; [left|]; vm_compute; reflexivity).
  split; [vm_compute; reflexivity|]. split; [exact L1|]. split; [exact L2|].
  split; [exact L3|]. split.
  - eexists. split; [vm_compute; reflexivity|]. repeat split; vm_compute; reflexivity.
  - intros H.
    apply (H 1 revokedOnSecond (signedIn SheetAbsent) threeTracks
             (afterFetches [SAVED_TRACKS_URL] (signedIn SheetAbsent))
             firstChunk secondChunk thirdChunk rockAnswer popAnswer
             (mkItem "t3" (map mkArtist thirdChunk)) ["pop"]);
      try done.
    + unfold threeTracks. right. right. left.
    + intros a Ha. apply (sample_answer_answers ["pop"] thirdChunk); [|exact Ha].
      apply (bool_decide_unpack _). vm_compute. exact I.
Qed.

(** * Further properties of the code *)

(** ** The walkers on a walk that ends normally *)

(** X1. When the upstream serves a page sequence up to a page without
    [next], and access is granted, [getAllMySavedTracks] returns the items
    of all the pages, in order, and has requested each page once, in
    order. *)
Theorem getAllMySavedTracks_returns_every_page :
  forall fuel up w (chain : Chain),
    hasAccess w = true ->
    completes up JsSet.empty (Some SAVED_TRACKS_URL) chain ->
    length chain <= fuel ->
    getAllMySavedTracks fuel up w
    = Some (Some (allItems chain), afterFetches (urls chain) w).
Proof.
  intros fuel up w chain Hacc Hc Hfuel. unfold getAllMySavedTracks.
  by rewrite (getAllMySavedTracks_loop_completes up chain fuel [] _ w).
Qed.

Lemma getAllMySavedTracks_returns_every_page_witness :
  getAllMySavedTracks 1 libraryAB (signedIn SheetAbsent)
  = Some (Some (allItems [(SAVED_TRACKS_URL, mkPage [mkItem "a" []; mkItem "b" []] None)]),
          afterFetches (urls [(SAVED_TRACKS_URL, mkPage [mkItem "a" []; mkItem "b" []] None)])
            (signedIn SheetAbsent)).
Proof.
  apply (getAllMySavedTracks_returns_every_page 1 libraryAB (signedIn SheetAbsent)
           [(SAVED_TRACKS_URL, mkPage [mkItem "a" []; mkItem "b" []] None)]).
  - reflexivity.
  - simpl. repeat split; reflexivity.
  - simpl. lia.
Defined.

(** X2. When the walk ends normally (at the first page that holds a known
    item, or at a page without [next] when no known item is met),
    [getNewSavedTracks] returns the items before the first known one, all
    of them when none is known, and has requested exactly the pages of the
    walk. *)
Theorem getNewSavedTracks_on_a_normal_walk :
  forall fuel up K w (chain : Chain),
    hasAccess w = true ->
    completes up K (Some SAVED_TRACKS_URL) chain ->
    length chain <= fuel ->
    getNewSavedTracks fuel up K w
    = Some (Some (newPrefix K (allItems chain)), afterFetches (urls chain) w)
    /\ (Forall (fun x => known K x = false) (allItems chain) ->
        newPrefix K (allItems chain) = allItems chain).
Proof.
  intros fuel up K w chain Hacc Hc Hfuel. split.
  - unfold getNewSavedTracks.
    by rewrite (getNewSavedTracks_loop_completes up K chain fuel [] _ w).
  - intros Hall. apply newPrefix_clean. apply not_true_iff_false. intros Hex.
    apply existsb_exists in Hex as (x & Hx & Hk).
    rewrite Forall_forall in Hall. apply list_elem_of_In, Hall in Hx. congruence.
Qed.

Lemma getNewSavedTracks_on_a_normal_walk_witness :
  getNewSavedTracks 1 libraryAB ["zz"] (signedIn SheetAbsent)
  = Some (Some (newPrefix ["zz"]
                  (allItems [(SAVED_TRACKS_URL, mkPage [mkItem "a" []; mkItem "b" []] None)])),
          afterFetches (urls [(SAVED_TRACKS_URL, mkPage [mkItem "a" []; mkItem "b" []] None)])
            (signedIn SheetAbsent))
  /\ (Forall (fun x => known ["zz"] x = false)
        (allItems [(SAVED_TRACKS_URL, mkPage [mkItem "a" []; mkItem "b" []] None)]) ->
      newPrefix ["zz"] (allItems [(SAVED_TRACKS_URL, mkPage [mkItem "a" []; mkItem "b" []] None)])
      = allItems [(SAVED_TRACKS_URL, mkPage [mkItem "a" []; mkItem "b" []] None)]).
Proof.
  apply (getNewSavedTracks_on_a_normal_walk 1 libraryAB ["zz"] (signedIn SheetAbsent)
           [(SAVED_TRACKS_URL, mkPage [mkItem "a" []; mkItem "b" []] None)]).
  - reflexivity.
  - simpl. repeat split; reflexivity.
  - simpl. lia.
Defined.

(** ** The two walkers side by side *)

Lemma existsb_known_false K (l : list SpotifySavedTrackObject) :
  (forall x, x ∈ l -> known K x = false) -> existsb (known K) l = false.
Proof.
  intros H. apply not_true_iff_false. intros Hex.
  apply existsb_exists in Hex as (x & Hx & Hk).
  apply list_elem_of_In, H in Hx. congruence.
Qed.

Lemma walkers_agree_loop up K fuel :
  (forall u p x, parsedBody (savedTracksAt up u) = Some p ->
                 x ∈ pageItems p -> known K x = false) ->
  forall acc nextUrl w,
    getNewSavedTracks_loop fuel up K acc nextUrl false w
    = getAllMySavedTracks_loop fuel up acc nextUrl w.
Proof.
  intros Hfresh. induction fuel as [|fuel IH]; intros acc nextUrl w; simpl.
  - by rewrite andb_true_r.
  - rewrite andb_true_r. destruct (truthyOpt nextUrl); [|done].
    destruct (negb (hasAccess w)); [done|].
    destruct (_ =? 200)%Z; [|done].
    destruct (parsedBody _) as [p|] eqn:Hbody; [|done].
    assert (Hex : existsb (known K) (pageItems p) = false)
      by (apply existsb_known_false; intros x; by apply (Hfresh _ _ _ Hbody)).
    unfold pageItems in Hex. destruct (items p) as [its|]; simpl in Hex.
    + rewrite scanItems_spec, Hex, newPrefix_clean by done. apply IH.
    + apply IH.
Qed.

(** X3. With a key set that holds the id of no item the upstream serves,
    in particular with the empty key set of a first run, the boundary
    detector does exactly what the full walker does: same result, same
    requests, same failures. *)
Theorem getNewSavedTracks_without_known_ids_is_getAllMySavedTracks :
  (forall fuel up K w,
      (forall u p x, parsedBody (savedTracksAt up u) = Some p ->
                     x ∈ pageItems p -> known K x = false) ->
      getNewSavedTracks fuel up K w = getAllMySavedTracks fuel up w)
  /\
  (forall fuel up w,
      getNewSavedTracks fuel up JsSet.empty w = getAllMySavedTracks fuel up w).
Proof.
  split.
  - intros fuel up K w H. by apply walkers_agree_loop.
  - intros fuel up w. apply walkers_agree_loop. intros. apply known_empty.
Qed.

Lemma getNewSavedTracks_without_known_ids_is_getAllMySavedTracks_witness :
  getNewSavedTracks 1 libraryAB ["zz"] (signedIn SheetAbsent)
  = getAllMySavedTracks 1 libraryAB (signedIn SheetAbsent).
Proof.
  apply (proj1 getNewSavedTracks_without_known_ids_is_getAllMySavedTracks
           1 libraryAB ["zz"] (signedIn SheetAbsent)).
  intros u p x Hp Hx. injection Hp as <-.
  apply elem_of_cons in Hx as [->|Hx]; [reflexivity|].
  apply elem_of_cons in Hx as [->|Hx]; [reflexivity|]. by inversion Hx.
Defined.

Lemma completes_prefix up K (c1 : Chain) :
  forall (c2 : Chain) nextUrl,
    completes up K nextUrl c1 ->
    completes up JsSet.empty nextUrl c2 ->
    c1 `prefix_of` c2.
Proof.
  induction c1 as [|[u p] c1 IH]; intros c2 nextUrl H1 H2; [done|].
  destruct c2 as [|[u' p'] c2]; [done|].
  cbn [completes] in H1, H2.
  destruct H1 as (-> & Hu & Hcode & Hbody & Hrest1).
  destruct H2 as ([= <-] & _ & _ & Hbody' & Hrest2).
  rewrite Hbody in Hbody'. injection Hbody' as <-.
  rewrite existsb_known_empty in Hrest2.
  destruct (existsb (known K) (pageItems p)).
  - subst c1. by apply prefix_cons, prefix_nil.
  - apply prefix_cons. destruct c1 as [|x1 c1]; [apply prefix_nil|].
    destruct c2 as [|x2 c2].
    + destruct x1 as [u1 p1]. cbn [completes] in Hrest1.
      destruct Hrest1 as (Hn & Hu1 & _). rewrite Hn in Hrest2. simpl in Hrest2. congruence.
    + by apply (IH _ (next p)).
Qed.

Lemma allItems_prefix (c1 c2 : Chain) : c1 `prefix_of` c2 -> allItems c1 `prefix_of` allItems c2.
Proof. intros [k ->]. rewrite allItems_app. by apply prefix_app_r. Qed.

(** X4. Against the same upstream, what the boundary detector returns is
    always an initial segment of what the full walker returns, whenever
    both return a list: the new tracks are the newest entries of the
    library, in the library's order, with nothing skipped in between. *)
Theorem new_tracks_are_an_initial_segment_of_all_tracks :
  forall fuel1 fuel2 up K w1 w2 new all w1' w2',
    getNewSavedTracks fuel1 up K w1 = Some (Some new, w1') ->
    getAllMySavedTracks fuel2 up w2 = Some (Some all, w2') ->
    new `prefix_of` all.
Proof.
  intros fuel1 fuel2 up K w1 w2 new all w1' w2' Hnew Hall.
  destruct (getNewSavedTracks_loop_nonnull up K fuel1 [] (Some SAVED_TRACKS_URL)
              w1 new w1' eq_refl Hnew) as (c1 & Hc1 & -> & _).
  destruct (getAllMySavedTracks_loop_nonnull up fuel2 [] (Some SAVED_TRACKS_URL)
              w2 all w2' eq_refl Hall) as (c2 & Hc2 & -> & _).
  simpl. etrans; [apply newPrefix_prefix|].
  apply allItems_prefix. by eapply completes_prefix.
Qed.

Lemma new_tracks_are_an_initial_segment_of_all_tracks_witness :
  [mkItem "c" []; mkItem "d" []]
  `prefix_of` [mkItem "c" []; mkItem "d" []; mkItem "a" []; mkItem "b" []].
Proof.
  apply (new_tracks_are_an_initial_segment_of_all_tracks 1 1 libraryCDAB ["a"; "b"]
           (signedIn SheetAbsent) (signedIn oldSheet)
           [mkItem "c" []; mkItem "d" []]
           [mkItem "c" []; mkItem "d" []; mkItem "a" []; mkItem "b" []]
           (afterFetches [SAVED_TRACKS_URL] (signedIn SheetAbsent))
           (afterFetches [SAVED_TRACKS_URL] (signedIn oldSheet))).
  - reflexivity.
  - reflexivity.
Defined.

(** ** The fetch client *)

Lemma fetchSpotifyApiOf_fetched {T} (srv : string -> HTTPResponse T) endpoint w :
  hasAccess w = true ->
  fetched (snd (fetchSpotifyApiOf srv endpoint w)) = fetched w ++ [API_BASE +:+ endpoint]
  /\ store (snd (fetchSpotifyApiOf srv endpoint w)) = store w.
Proof.
  intros H. unfold fetchSpotifyApiOf. rewrite H. cbn [negb].
  destruct (_ || _); [done|]. by destruct (_ =? 401)%Z.
Qed.

Lemma getAllMySavedTracks_unauthorized fuel up w :
  hasAccess w = false -> 0 < fuel -> getAllMySavedTracks fuel up w = Some (None, w).
Proof.
  intros Hacc Hfuel. destruct fuel; [lia|]. unfold getAllMySavedTracks. simpl. by rewrite Hacc.
Qed.

(** X5. The fetch client sends nothing without access, and a 401 answer is
    final for the run: the call that receives it returns [null] and drops
    the access, after which every call of the fetch client, of
    [getArtistsDetails], of [getMySavedTracks] and of the two walkers
    returns without a request and leaves the world as it is (an empty id
    list still gets its empty array). *)
Theorem a_401_answer_ends_all_requests :
  forall (T : Type) (srv : string -> HTTPResponse T) endpoint w,
    hasAccess w = true ->
    getResponseCode (srv (API_BASE +:+ endpoint)) = 401%Z ->
    let w1 := snd (fetchSpotifyApiOf srv endpoint w) in
    fst (fetchSpotifyApiOf srv endpoint w) = None /\
    hasAccess w1 = false /\
    fetched w1 = fetched w ++ [API_BASE +:+ endpoint] /\
    store w1 = store w /\
    (forall (T' : Type) (srv' : string -> HTTPResponse T') endpoint',
        fetchSpotifyApiOf srv' endpoint' w1 = (None, w1)) /\
    (forall up ids,
        snd (getArtistsDetails up ids w1) = w1 /\
        (fst (getArtistsDetails up ids w1) = None \/
         fst (getArtistsDetails up ids w1) = Some [])) /\
    (forall up limit, getMySavedTracks up limit w1 = (None, w1)) /\
    (forall fuel up K, 0 < fuel -> getNewSavedTracks fuel up K w1 = Some (None, w1)) /\
    (forall fuel up, 0 < fuel -> getAllMySavedTracks fuel up w1 = Some (None, w1)).
Proof.
  intros T srv endpoint w Hacc H401 w1.
  assert (Hw1 : fetchSpotifyApiOf srv endpoint w
                = (None, resetSpotifyService (fetch (API_BASE +:+ endpoint) w))).
  { unfold fetchSpotifyApiOf. rewrite Hacc, H401. done. }
  assert (Hno : hasAccess w1 = false) by (unfold w1; by rewrite Hw1).
  split; [by rewrite Hw1|]. split; [done|].
  split; [unfold w1; by rewrite Hw1|]. split; [unfold w1; by rewrite Hw1|].
  split; [intros; by apply fetchSpotifyApiOf_no_access|].
  split; [intros; by apply getArtistsDetails_no_access|].
  split.
  { intros up limit. unfold getMySavedTracks.
    by rewrite fetchSpotifyApiOf_no_access. }
  split.
  - intros fuel up K Hfuel. destruct fuel; [lia|].
    unfold getNewSavedTracks. simpl. by rewrite Hno.
  - intros fuel up Hfuel. by apply getAllMySavedTracks_unauthorized.
Qed.

Lemma a_401_answer_ends_all_requests_witness :
  fst (fetchSpotifyApiOf (artistsAt revoked) "artists?ids=x" (signedIn SheetAbsent)) = None
  /\ hasAccess (snd (fetchSpotifyApiOf (artistsAt revoked) "artists?ids=x"
                       (signedIn SheetAbsent))) = false.
Proof.
  destruct (a_401_answer_ends_all_requests _ (artistsAt revoked) "artists?ids=x"
              (signedIn SheetAbsent)) as (H1 & H2 & _).
  - reflexivity.
  - reflexivity.
  - split; [exact H1 | exact H2].
Defined.

Lemma lessThan_Integer (a b : Z) : lessThan (Integer a) (Integer b) = (a <? b)%Z.
Proof.
  unfold lessThan, valueOf, QArith_base.Qle_bool, QArith_base.inject_Z.
  cbn [QArith_base.Qnum QArith_base.Qden].
  rewrite !Z.mul_1_r. symmetry. apply Z.ltb_antisym.
Qed.

Lemma validLimit_Integer (z : Z) :
  validLimit (Some (Integer z)) = Integer (Z.max 1 (Z.min 50 z)).
Proof.
  unfold validLimit, Math_max, Math_min. cbn [default from_option id isNaN orb].
  rewrite lessThan_Integer.
  destruct (z <? 50)%Z eqn:E50; cbn [isNaN orb]; rewrite lessThan_Integer.
  - apply Z.ltb_lt in E50. destruct (1 <? z)%Z eqn:E1.
    + apply Z.ltb_lt in E1. f_equal. lia.
    + apply Z.ltb_ge in E1. f_equal. lia.
  - apply Z.ltb_ge in E50. simpl. f_equal. lia.
Qed.

Lemma validLimit_Fraction q text :
  validLimit (Some (Fraction q text))
  = if QArith_base.Qle_bool (QArith_base.inject_Z 50) q then Integer 50
    else if QArith_base.Qle_bool q (QArith_base.inject_Z 1) then Integer 1
    else Fraction q text.
Proof.
  unfold validLimit, Math_max, Math_min, lessThan.
  cbn [default from_option id isNaN orb valueOf].
  destruct (QArith_base.Qle_bool (QArith_base.inject_Z 50) q); cbn [negb isNaN orb valueOf].
  - done.
  - by destruct (QArith_base.Qle_bool q (QArith_base.inject_Z 1)).
Qed.

(** X6. [getMySavedTracks] makes exactly one request with access, for the
    limit [validLimit], and none without access.  [validLimit] lies
    between 1 and 50 for every limit but not-a-number, which
    [Math.min] and [Math.max] hand through: the request then reads
    [limit=NaN].  The omitted limit is 10; an integer is clamped to 1 and
    50; so is a number that is not an integer, which is asked for as it is
    when it lies between them; the infinities become 50 and 1.  At 50 the
    request is the first page of the walkers. *)
Theorem getMySavedTracks_clamps_all_but_NaN :
  (forall up limit w,
      hasAccess w = true ->
      fetched (snd (getMySavedTracks up limit w))
      = fetched w
        ++ [API_BASE +:+ ("me/tracks?limit=" +:+ numberToString (validLimit limit))])
  /\ (forall up limit w, hasAccess w = false -> getMySavedTracks up limit w = (None, w))
  /\ (forall limit, limit <> Some NaN -> between1and50 (validLimit limit))
  /\ (forall up w,
         hasAccess w = true ->
         fetched (snd (getMySavedTracks up (Some NaN) w))
         = fetched w ++ ["https://api.spotify.com/v1/me/tracks?limit=NaN"])
  /\ validLimit None = Integer 10
  /\ (forall z : Z, validLimit (Some (Integer z)) = Integer (Z.max 1 (Z.min 50 z)))
  /\ (forall q text,
         (QArith_base.Qle (QArith_base.inject_Z 50) q ->
          validLimit (Some (Fraction q text)) = Integer 50) /\
         (QArith_base.Qle q (QArith_base.inject_Z 1) ->
          validLimit (Some (Fraction q text)) = Integer 1) /\
         (QArith_base.Qlt (QArith_base.inject_Z 1) q ->
          QArith_base.Qlt q (QArith_base.inject_Z 50) ->
          validLimit (Some (Fraction q text)) = Fraction q text))
  /\ validLimit (Some (Infinity false)) = Integer 50
  /\ validLimit (Some (Infinity true)) = Integer 1
  /\ API_BASE +:+ ("me/tracks?limit=" +:+ numberToString (validLimit (Some (Integer 50))))
     = SAVED_TRACKS_URL.
Proof.
  assert (Hreq : forall up limit w,
             hasAccess w = true ->
             fetched (snd (getMySavedTracks up limit w))
             = fetched w
               ++ [API_BASE +:+ ("me/tracks?limit=" +:+ numberToString (validLimit limit))]).
  { intros up limit w Hacc. unfold getMySavedTracks.
    pose proof (fetchSpotifyApiOf_fetched (savedTracksAt up)
                  ("me/tracks?limit=" +:+ numberToString (validLimit limit))
                  w Hacc) as [Hf _].
    destruct (fetchSpotifyApiOf _ _ w) as [[r|] w1]; exact Hf. }
  split; [exact Hreq|]. split.
  { intros up limit w Hacc. unfold getMySavedTracks.
    by rewrite fetchSpotifyApiOf_no_access. }
  split.
  { intros [[| neg | z | q text]|] Hn.
    - done.
    - by destruct neg; vm_compute.
    - rewrite validLimit_Integer. simpl. lia.
    - rewrite validLimit_Fraction.
      destruct (QArith_base.Qle_bool (QArith_base.inject_Z 50) q) eqn:E50;
        [simpl; lia|].
      destruct (QArith_base.Qle_bool q (QArith_base.inject_Z 1)) eqn:E1;
        [simpl; lia|].
      simpl. split; apply QArith_base.Qlt_le_weak, QArith_base.Qnot_le_lt;
        rewrite <- QArith_base.Qle_bool_iff; congruence.
    - vm_compute. split; discriminate. }
  split; [intros up w Hacc; by rewrite Hreq|].
  split; [done|]. split; [apply validLimit_Integer|]. split.
  { intros q text. rewrite validLimit_Fraction. split; [|split].
    - intros H. apply QArith_base.Qle_bool_iff in H. by rewrite H.
    - intros H.
      destruct (QArith_base.Qle_bool (QArith_base.inject_Z 50) q) eqn:E50.
      + apply QArith_base.Qle_bool_iff in E50.
        exfalso. assert (H' := QArith_base.Qle_trans _ _ _ E50 H). by vm_compute in H'.
      + apply QArith_base.Qle_bool_iff in H. by rewrite H.
    - intros H1 H50.
      destruct (QArith_base.Qle_bool (QArith_base.inject_Z 50) q) eqn:E50.
      { apply QArith_base.Qle_bool_iff in E50.
        exfalso. by apply (QArith_base.Qlt_not_le _ _ H50). }
      destruct (QArith_base.Qle_bool q (QArith_base.inject_Z 1)) eqn:E1; [|done].
      apply QArith_base.Qle_bool_iff in E1.
      exfalso. by apply (QArith_base.Qlt_not_le _ _ H1). }
  done.
Qed.

Lemma getMySavedTracks_clamps_all_but_NaN_witness :
  fetched (snd (getMySavedTracks libraryAB (Some NaN) (signedIn SheetAbsent)))
  = fetched (signedIn SheetAbsent) ++ ["https://api.spotify.com/v1/me/tracks?limit=NaN"]
  /\ between1and50 (validLimit (Some (Integer 500)))
  /\ between1and50
       (validLimit (Some (Fraction {| QArith_base.Qnum := 5; QArith_base.Qden := 2 |} "2.5")))
  /\ validLimit (Some (Fraction {| QArith_base.Qnum := 5; QArith_base.Qden := 2 |} "2.5"))
     = Fraction {| QArith_base.Qnum := 5; QArith_base.Qden := 2 |} "2.5".
Proof.
  destruct getMySavedTracks_clamps_all_but_NaN
    as (_ & _ & Hrange & Hnan & _ & _ & Hfrac & _).
  split; [apply (Hnan libraryAB (signedIn SheetAbsent)); reflexivity|].
  split; [apply (Hrange (Some (Integer 500))); discriminate|].
  split; [apply (Hrange (Some (Fraction _ "2.5"))); discriminate|].
  apply (Hfrac {| QArith_base.Qnum := 5; QArith_base.Qden := 2 |} "2.5");
    vm_compute; reflexivity.
Defined.

(** X7. The fetch client takes status 201 for a success, the walkers do
    not: when the first page is answered 201 with a body that parses,
    [getMySavedTracks] returns its items while [getAllMySavedTracks] and
    [getNewSavedTracks] return [null]; each has made the one request. *)
Theorem status_201_is_success_for_the_client_only :
  forall fuel up K w p,
    hasAccess w = true ->
    getResponseCode (savedTracksAt up SAVED_TRACKS_URL) = 201%Z ->
    parsedBody (savedTracksAt up SAVED_TRACKS_URL) = Some p ->
    0 < fuel ->
    getMySavedTracks up (Some (Integer 50)) w = (items p, fetch SAVED_TRACKS_URL w) /\
    getAllMySavedTracks fuel up w = Some (None, fetch SAVED_TRACKS_URL w) /\
    getNewSavedTracks fuel up K w = Some (None, fetch SAVED_TRACKS_URL w).
Proof.
  intros fuel up K w p Hacc Hcode Hbody Hfuel. destruct fuel; [lia|]. split; [|split].
  - unfold getMySavedTracks, fetchSpotifyApiOf. rewrite Hacc.
    change (API_BASE +:+ ("me/tracks?limit=" +:+ numberToString (validLimit (Some (Integer 50)))))
      with SAVED_TRACKS_URL.
    cbn [negb]. rewrite Hcode, Hbody. done.
  - unfold getAllMySavedTracks. simpl. rewrite Hacc. simpl. by rewrite Hcode.
  - unfold getNewSavedTracks. simpl. rewrite Hacc. simpl. by rewrite Hcode.
Qed.

Lemma status_201_is_success_for_the_client_only_witness :
  getMySavedTracks created201 (Some (Integer 50)) (signedIn SheetAbsent)
  = (items (mkPage [mkItem "a" []] None), fetch SAVED_TRACKS_URL (signedIn SheetAbsent)) /\
  getAllMySavedTracks 1 created201 (signedIn SheetAbsent)
  = Some (None, fetch SAVED_TRACKS_URL (signedIn SheetAbsent)) /\
  getNewSavedTracks 1 created201 JsSet.empty (signedIn SheetAbsent)
  = Some (None, fetch SAVED_TRACKS_URL (signedIn SheetAbsent)).
Proof.
  apply (status_201_is_success_for_the_client_only 1 created201 JsSet.empty
           (signedIn SheetAbsent) (mkPage [mkItem "a" []] None)).
  - reflexivity.
  - reflexivity.
  - reflexivity.
  - lia.
Defined.

(** ** The genre lookups after a 401 *)

Lemma fold_lookupChunk_no_access up cs :
  forall st, hasAccess (snd st) = false ->
             fold_left (fun st c => lookupChunk up c st) cs st = st.
Proof.
  induction cs as [|c cs IH]; intros st H; simpl; [done|].
  rewrite lookupChunk_no_access by done. by apply IH.
Qed.

(** X8. In the genre enrichment, a chunk answered 401 is the last one
    requested: the chunks before it are requested one by one, the chunks
    after it are not, access is gone when the loop ends, and the genre
    index is what the chunks before it recorded. *)
Theorem a_401_stops_the_genre_lookups :
  forall up (ids : list string) w cs1 c cs2,
    hasAccess w = true ->
    chunks ids = cs1 ++ c :: cs2 ->
    (forall c', c' ∈ cs1 -> getResponseCode (artistsAt up (artistsUrl c')) <> 401%Z) ->
    getResponseCode (artistsAt up (artistsUrl c)) = 401%Z ->
    fst (fetchGenres up ids w)
    = fst (fold_left (fun st c => lookupChunk up c st) cs1 (∅, w)) /\
    fetched (snd (fetchGenres up ids w))
    = fetched w ++ map artistsUrl cs1 ++ [artistsUrl c] /\
    hasAccess (snd (fetchGenres up ids w)) = false /\
    store (snd (fetchGenres up ids w)) = store w.
Proof.
  intros up ids w cs1 c cs2 Hacc Hchunks Hno H401.
  pose proof (chunksFrom_bounds ids (length ids) 0) as Hb. fold (chunks ids) in Hb.
  rewrite Hchunks in Hb. apply Forall_app in Hb as [Hb1 Hb2].
  inversion Hb2 as [|? ? Hc _]; subst.
  rewrite fetchGenres_chunks, Hchunks, fold_left_app. cbn [fold_left].
  set (st1 := fold_left (fun st c0 => lookupChunk up c0 st) cs1 (∅, w)).
  assert (Hw1 : snd st1 = afterFetches (map artistsUrl cs1) w)
    by (by apply fold_lookupChunk_world).
  rewrite (lookupChunk_401 up c st1) by (by rewrite ?Hw1).
  rewrite fold_lookupChunk_no_access by done. cbn [fst snd]. rewrite Hw1.
  repeat split; try done. simpl. by rewrite <- app_assoc.
Qed.

Lemma a_401_stops_the_genre_lookups_witness :
  fetched (snd (fetchGenres revoked manyArtistIds (signedIn SheetAbsent)))
  = fetched (signedIn SheetAbsent) ++ map artistsUrl [] ++ [artistsUrl firstChunk]
  /\ hasAccess (snd (fetchGenres revoked manyArtistIds (signedIn SheetAbsent))) = false.
Proof.
  destruct (a_401_stops_the_genre_lookups revoked manyArtistIds (signedIn SheetAbsent)
              [] firstChunk [secondChunk; thirdChunk]) as (_ & H2 & H3 & _).
  - reflexivity.
  - vm_compute. reflexivity.
  - intros c' Hc'. by inversion Hc'.
  - reflexivity.
  - split; [exact H2 | exact H3].
Defined.

(** ** What a run never does *)

Lemma fetchGenres_store up ids w : store (snd (fetchGenres up ids w)) = store w.
Proof.
  rewrite fetchGenres_chunks.
  assert (H : forall cs st,
             store (snd (fold_left (fun st c => lookupChunk up c st) cs st)) = store (snd st)).
  { induction cs as [|c cs IH]; intros st; simpl; [done|]. rewrite IH.
    unfold lookupChunk, getArtistsDetails.
    destruct (length c =? 0); [done|].
    match goal with
    | |- context [fetchSpotifyApi up ?e ?v] =>
      pose proof (fetchSpotifyApiOf_fetched (artistsAt up) e v) as Hf;
      pose proof (fetchSpotifyApiOf_no_access (artistsAt up) e v) as Hn;
      rewrite <- fetchSpotifyApi_is_Of in Hf, Hn;
      destruct (hasAccess v);
      [destruct (Hf eq_refl) as [_ Hs] | rewrite (Hn eq_refl) in *; simpl; done];
      destruct (fetchSpotifyApi up e v) as [[r|] v']; exact Hs
    end. }
  apply H.
Qed.

(** X9. A run writes nothing when its walk fails, whatever the walk had
    collected before: if the cursor arrives, after any number of pages of
    new tracks, at a page whose request fails, the store is left as it
    was. *)
Theorem failed_walk_writes_nothing :
  forall fuel up w (front : Chain) u,
    hasAccess w = true ->
    reaches up (existingOf (store w)) (Some SAVED_TRACKS_URL) front u ->
    pageFails up u ->
    length front < fuel ->
    exists w', updateLikedSongsSheet fuel up w = Some w' /\ store w' = store w.
Proof.
  intros fuel up w front u Hacc Hr Hf Hfuel.
  assert (Hdec : store w = NoSpreadsheet \/ store w <> NoSpreadsheet)
    by (destruct (store w); [by left | by right | by right]).
  destruct Hdec as [Hss|Hss].
  { exists w. unfold updateLikedSongsSheet, isSpotifyAuthorized. by rewrite Hacc, Hss. }
  destruct (getNewSavedTracks_loop_failure up _ front fuel [] _ w u Hacc Hr Hf Hfuel)
    as (w' & Hrun & _).
  exists w'. rewrite updateLikedSongsSheet_unfold by done.
  unfold getNewSavedTracks. rewrite Hrun. split; [done|].
  by apply getNewSavedTracks_loop_store in Hrun.
Qed.

Lemma failed_walk_writes_nothing_witness :
  exists w', updateLikedSongsSheet 3 threePages (signedIn oldSheet) = Some w'
             /\ store w' = store (signedIn oldSheet).
Proof.
  apply (failed_walk_writes_nothing 3 threePages (signedIn oldSheet)
           [(SAVED_TRACKS_URL, pageA); ("page2", pageB)] "page3").
  - reflexivity.
  - simpl. repeat split; reflexivity.
  - left. simpl. discriminate.
  - simpl. lia.
Defined.

(** X10. A run never removes, changes or reorders a row below the first
    one: whatever its outcome, the data rows after the run are the data
    rows before it, with the rows the run added in front; and the first row
    of a sheet that had data rows stays as it was. *)
Theorem run_keeps_every_existing_row :
  forall fuel up w w',
    updateLikedSongsSheet fuel up w = Some w' ->
    (exists added, dataRows (store w') = added ++ dataRows (store w)) /\
    (forall r r' rest, gridOf (store w) = r :: r' :: rest -> gridOf (store w') !! 0 = Some r).
Proof.
  intros fuel up w w' Hrun.
  assert (Hsame : store w' = store w ->
            (exists added, dataRows (store w') = added ++ dataRows (store w)) /\
            (forall r r' rest, gridOf (store w) = r :: r' :: rest ->
                               gridOf (store w') !! 0 = Some r)).
  { intros ->. split; [by exists []|]. by intros r r' rest ->. }
  destruct (hasAccess w) eqn:Hacc; cycle 1.
  { rewrite updateLikedSongsSheet_unauthorized in Hrun by done.
    injection Hrun as <-. by apply Hsame. }
  assert (Hdec : store w = NoSpreadsheet \/ store w <> NoSpreadsheet)
    by (destruct (store w); [by left | by right | by right]).
  destruct Hdec as [Hss|Hss].
  { unfold updateLikedSongsSheet, isSpotifyAuthorized in Hrun.
    rewrite Hacc, Hss in Hrun. injection Hrun as <-. by apply Hsame. }
  destruct (getNewSavedTracks fuel up (existingOf (store w)) w) as [[[nt|] wa]|] eqn:Hnew.
  - destruct nt as [|x rest0].
    + rewrite updateLikedSongsSheet_unfold, Hnew in Hrun by done.
      simpl in Hrun. injection Hrun as <-.
      apply Hsame. by apply getNewSavedTracks_loop_store in Hnew.
    + destruct (updateLikedSongsSheet_inserts fuel up w (x :: rest0) wa)
        as (w'' & Hrun' & _ & Hst); try done.
      rewrite Hrun in Hrun'. injection Hrun' as <-. rewrite Hst. split.
      * exists (map (renderRow (genreIndex up (x :: rest0) wa)) (x :: rest0)).
        unfold dataRows at 1, gridOf at 1. simpl. done.
      * intros r r' rest Hgrid. unfold gridOf at 1. simpl.
        by rewrite (proj2 (firstRowAfter_cases (store w)) r r' rest Hgrid).
  - rewrite updateLikedSongsSheet_unfold, Hnew in Hrun by done.
    injection Hrun as <-. apply Hsame. by apply getNewSavedTracks_loop_store in Hnew.
  - rewrite updateLikedSongsSheet_unfold, Hnew in Hrun by done. done.
Qed.

Lemma run_keeps_every_existing_row_witness :
  (exists added,
      dataRows (store (setStore
                         (SheetPresent
                            [header; renderRow ∅ (mkItem "a" []); renderRow ∅ (mkItem "b" []);
                             renderRow ∅ (mkItem "old" [])])
                         (afterFetches [SAVED_TRACKS_URL] (signedIn oldSheet))))
      = added ++ dataRows (store (signedIn oldSheet))).
Proof.
  apply (run_keeps_every_existing_row 1 libraryAB (signedIn oldSheet)).
  vm_compute. reflexivity.
Defined.

Lemma readTrackIds_sound c rows :
  forall s y,
    y ∈ readTrackIds c rows s ->
    y ∈ s \/ (truthy y = true /\ y ∈ map (fun row => default "" (row !! c)) rows).
Proof.
  induction rows as [|row rows IH]; intros s y Hy; simpl in *; [by left|].
  apply IH in Hy as [Hy|[Ht Hy]]; [|right; split; [done|by right]].
  destruct (row !! c) as [cell|] eqn:Hcell; simpl; [|by left].
  destruct (truthy cell) eqn:Hcellt; [|by left].
  apply JsSet_add_elem in Hy as [->|Hy]; [|by left].
  right. split; [done|]. by left.
Qed.

Lemma existingOf_sound (s : Store) y :
  y ∈ existingOf s -> truthy y = true /\ y ∈ keyColumn s.
Proof.
  destruct s as [| |grid]; [by inversion 1..|].
  destruct grid as [|first [|r rows]]; [by inversion 1..|].
  rewrite existingOf_populated. intros [Hy|Hy]%readTrackIds_sound; [by inversion Hy|done].
Qed.

(** X11. The key set a run reads from the sheet is exactly the non-blank
    cells of the Track ID column below the first row.  It only grows from
    run to run, and every non-empty id a run writes is in the key set the
    next run reads: this is what makes the next walk stop at it. *)
Theorem keys_written_are_read_back :
  (forall (s : Store) y, y ∈ existingOf s <-> truthy y = true /\ y ∈ keyColumn s)
  /\
  (forall fuel up w w',
      updateLikedSongsSheet fuel up w = Some w' ->
      forall y, y ∈ existingOf (store w) -> y ∈ existingOf (store w'))
  /\
  (forall fuel up w nt wa w',
      hasAccess w = true ->
      store w <> NoSpreadsheet ->
      getNewSavedTracks fuel up (existingOf (store w)) w = Some (Some nt, wa) ->
      updateLikedSongsSheet fuel up w = Some w' ->
      forall x, x ∈ nt -> truthy (track_id (track x)) = true ->
                track_id (track x) ∈ existingOf (store w')).
Proof.
  split; [|split].
  - intros s y. split; [apply existingOf_sound|]. intros [? ?]. by apply existingOf_complete.
  - intros fuel up w w' Hrun y Hy.
    destruct (updateLikedSongsSheet_outcomes fuel up w w' Hrun)
      as [->|(nt & wa & _ & _ & _ & _ & Hst)]; [done|].
    apply existingOf_sound in Hy as [Ht Hy]. apply existingOf_complete; [done|].
    rewrite Hst, keyColumn_after. apply elem_of_app. by right.
  - intros fuel up w nt wa w' Hacc Hss Hnew Hrun x Hx Ht.
    destruct nt as [|x0 nt0]; [by inversion Hx|].
    destruct (updateLikedSongsSheet_inserts fuel up w (x0 :: nt0) wa)
      as (w'' & Hrun' & _ & Hst); try done.
    rewrite Hrun in Hrun'. injection Hrun' as <-.
    apply existingOf_complete; [done|].
    rewrite Hst, keyColumn_after, keyColumn_rendered. apply elem_of_app. left.
    apply list_elem_of_fmap. by exists x.
Qed.

Lemma keys_written_are_read_back_witness :
  track_id (track (mkItem "a" []))
  ∈ existingOf (store (setStore
                         (SheetPresent
                            [header; renderRow ∅ (mkItem "a" []); renderRow ∅ (mkItem "b" []);
                             renderRow ∅ (mkItem "old" [])])
                         (afterFetches [SAVED_TRACKS_URL] (signedIn oldSheet)))).
Proof.
  apply (proj2 (proj2 keys_written_are_read_back) 1 libraryAB (signedIn oldSheet)
           [mkItem "a" []; mkItem "b" []]
           (afterFetches [SAVED_TRACKS_URL] (signedIn oldSheet))).
  - reflexivity.
  - discriminate.
  - vm_compute. reflexivity.
  - vm_compute. reflexivity.
  - by left.
  - reflexivity.
Defined.

(** ** getFollowedArtists *)

Lemma getFollowedArtists_loop_page fuel followedAt acc u p w :
  truthy u = true ->
  hasAccess w = true ->
  getResponseCode (followedAt u) = 200%Z ->
  parsedBody (followedAt u) = Some p ->
  getFollowedArtists_loop (S fuel) followedAt acc (Some u) w
  = getFollowedArtists_loop fuel followedAt (acc ++ followedPageItems p) (followed_next p)
      (fetch u w).
Proof.
  intros Hu Hacc Hcode Hbody. simpl. rewrite Hu, Hacc. simpl.
  rewrite Hcode, Hbody. simpl. unfold followedPageItems.
  destruct (followed_items p) as [its|]; simpl; [done|]. by rewrite app_nil_r.
Qed.

Lemma getFollowedArtists_loop_fails fuel followedAt acc u w :
  truthy u = true ->
  hasAccess w = true ->
  getResponseCode (followedAt u) <> 200%Z \/ parsedBody (followedAt u) = None ->
  exists w', getFollowedArtists_loop (S fuel) followedAt acc (Some u) w = Some (None, w')
             /\ fetched w' = fetched w ++ [u] /\ store w' = store w.
Proof.
  intros Hu Hacc Hf. simpl. rewrite Hu, Hacc. simpl.
  destruct (getResponseCode (followedAt u) =? 200)%Z eqn:H200.
  - destruct Hf as [Hf|Hf]; [apply Z.eqb_eq in H200; done|]. rewrite Hf. eauto.
  - destruct (getResponseCode (followedAt u) =? 401)%Z; eauto.
Qed.

Lemma getFollowedArtists_loop_done fuel followedAt acc nextUrl w :
  truthyOpt nextUrl = false ->
  getFollowedArtists_loop fuel followedAt acc nextUrl w = Some (Some acc, w).
Proof. intros H. destruct fuel; simpl; by rewrite H. Qed.

Lemma getFollowedArtists_loop_completes followedAt (chain : FollowedChain) :
  forall fuel acc nextUrl w,
    hasAccess w = true ->
    followedCompletes followedAt nextUrl chain ->
    length chain <= fuel ->
    getFollowedArtists_loop fuel followedAt acc nextUrl w
    = Some (Some (acc ++ allFollowed chain), afterFetches (map fst chain) w).
Proof.
  induction chain as [|[u p] chain IH]; intros fuel acc nextUrl w Hacc Hc Hfuel; [done|].
  cbn [followedCompletes] in Hc. destruct Hc as (-> & Hu & Hcode & Hbody & Hrest).
  destruct fuel as [|fuel]; [simpl in Hfuel; lia|]. simpl in Hfuel.
  rewrite (getFollowedArtists_loop_page fuel followedAt acc u p w) by done.
  unfold allFollowed. cbn [map concat snd fst]. fold (allFollowed chain).
  destruct chain as [|[u' p'] chain].
  - rewrite getFollowedArtists_loop_done by done.
    unfold allFollowed. simpl. by rewrite app_nil_r.
  - rewrite (IH fuel (acc ++ followedPageItems p) (followed_next p) (fetch u w));
      [|done|done|simpl in *; lia].
    rewrite afterFetches_fetch. by rewrite <- app_assoc.
Qed.

Lemma getFollowedArtists_loop_nonnull followedAt fuel :
  forall acc nextUrl w l w',
    truthyOpt nextUrl = true ->
    getFollowedArtists_loop fuel followedAt acc nextUrl w = Some (Some l, w') ->
    exists chain : FollowedChain,
      followedCompletes followedAt nextUrl chain /\ l = acc ++ allFollowed chain /\
      w' = afterFetches (map fst chain) w /\ hasAccess w = true /\ length chain <= fuel.
Proof.
  induction fuel as [|fuel IH]; intros acc nextUrl w l w' Hn H.
  - simpl in H. by rewrite Hn in H.
  - destruct nextUrl as [u|]; [|done]. simpl in Hn.
    destruct (hasAccess w) eqn:Hacc;
      [|simpl in H; rewrite Hn, Hacc in H; simpl in H; congruence].
    destruct (getResponseCode (followedAt u) =? 200)%Z eqn:H200; cycle 1.
    { simpl in H. rewrite Hn, Hacc in H. simpl in H. rewrite H200 in H.
      repeat (destruct (_ =? _)%Z in H); congruence. }
    apply Z.eqb_eq in H200.
    destruct (parsedBody (followedAt u)) as [p|] eqn:Hbody; cycle 1.
    { simpl in H. rewrite Hn, Hacc in H. simpl in H. rewrite H200, Hbody in H.
      simpl in H. congruence. }
    rewrite (getFollowedArtists_loop_page fuel followedAt acc u p w) in H by done.
    destruct (truthyOpt (followed_next p)) eqn:Hnext.
    + destruct (IH _ _ _ _ _ Hnext H) as (chain & Hc & -> & -> & _ & Hlen).
      exists ((u, p) :: chain). cbn [followedCompletes].
      repeat split; try done; [| | |simpl; lia].
      * destruct chain; [done|]. done.
      * unfold allFollowed. simpl. by rewrite <- app_assoc.
      * by rewrite afterFetches_fetch.
    + rewrite getFollowedArtists_loop_done in H by done. simplify_eq.
      exists [(u, p)]. cbn [followedCompletes]. repeat split; try done; [|simpl; lia].
      unfold allFollowed. simpl. by rewrite app_nil_r.
Qed.

Lemma getFollowedArtists_loop_failure followedAt (front : FollowedChain) :
  forall fuel acc nextUrl w u,
    hasAccess w = true ->
    followedReaches followedAt nextUrl front u ->
    getResponseCode (followedAt u) <> 200%Z \/ parsedBody (followedAt u) = None ->
    length front < fuel ->
    exists w', getFollowedArtists_loop fuel followedAt acc nextUrl w = Some (None, w')
               /\ fetched w' = fetched w ++ map fst front ++ [u] /\ store w' = store w.
Proof.
  induction front as [|[u0 p0] front IH]; intros fuel acc nextUrl w u Hacc Hr Hf Hfuel.
  - destruct Hr as [-> Hu]. destruct fuel; [simpl in Hfuel; lia|].
    by apply getFollowedArtists_loop_fails.
  - destruct Hr as (-> & Hu0 & Hcode & Hbody & Hr).
    destruct fuel; [simpl in Hfuel; lia|]. simpl in Hfuel.
    rewrite (getFollowedArtists_loop_page fuel followedAt acc u0 p0 w) by done.
    destruct (IH fuel (acc ++ followedPageItems p0) (followed_next p0) (fetch u0 w) u)
      as (w' & Hrun & Hlog & Hst); [done | done | done | lia |].
    exists w'. split; [done|]. split; [|done]. rewrite Hlog. simpl. by rewrite <- app_assoc.
Qed.

(** X12. [getFollowedArtists] returns a list exactly when its walk ends
    normally, and then the whole list: (1) when the upstream serves a page
    sequence up to a page without [next], the result is the artists of all
    the pages, in order, each page requested once; (2) a non-null result
    comes only from such a walk, with access granted; (3) when the cursor
    arrives at a page whose request fails (a status other than 200, or a
    body that does not parse), the result is [null], whatever was collected
    before. *)
Theorem getFollowedArtists_returns_all_or_null :
  (forall fuel followedAt w (chain : FollowedChain),
      hasAccess w = true ->
      followedCompletes followedAt (Some FOLLOWING_URL) chain ->
      length chain <= fuel ->
      getFollowedArtists fuel followedAt w
      = Some (Some (allFollowed chain), afterFetches (map fst chain) w))
  /\
  (forall fuel followedAt w l w',
      getFollowedArtists fuel followedAt w = Some (Some l, w') ->
      exists chain : FollowedChain,
        followedCompletes followedAt (Some FOLLOWING_URL) chain /\
        l = allFollowed chain /\
        w' = afterFetches (map fst chain) w /\ hasAccess w = true)
  /\
  (forall fuel followedAt w (front : FollowedChain) u,
      hasAccess w = true ->
      followedReaches followedAt (Some FOLLOWING_URL) front u ->
      getResponseCode (followedAt u) <> 200%Z \/ parsedBody (followedAt u) = None ->
      length front < fuel ->
      exists w', getFollowedArtists fuel followedAt w = Some (None, w')
                 /\ fetched w' = fetched w ++ map fst front ++ [u]).
Proof.
  split; [|split].
  - intros fuel followedAt w chain Hacc Hc Hfuel. unfold getFollowedArtists.
    by rewrite (getFollowedArtists_loop_completes followedAt chain fuel [] _ w).
  - intros fuel followedAt w l w' H.
    destruct (getFollowedArtists_loop_nonnull followedAt fuel [] (Some FOLLOWING_URL)
                w l w' eq_refl H) as (chain & ? & ? & ? & ? & _).
    by exists chain.
  - intros fuel followedAt w front u Hacc Hr Hf Hfuel.
    destruct (getFollowedArtists_loop_failure followedAt front fuel [] _ w u Hacc Hr Hf Hfuel)
      as (w' & ? & ? & _).
    by exists w'.
Qed.

Lemma getFollowedArtists_returns_all_or_null_witness :
  getFollowedArtists 2 followsXYZ (signedIn SheetAbsent)
  = Some (Some (allFollowed [(FOLLOWING_URL, followedPage1); ("following2", followedPage2)]),
          afterFetches (map fst [(FOLLOWING_URL, followedPage1); ("following2", followedPage2)])
            (signedIn SheetAbsent))
  /\
  (exists w', getFollowedArtists 2 followsThenFails (signedIn SheetAbsent) = Some (None, w')
              /\ fetched w' = fetched (signedIn SheetAbsent)
                              ++ map fst [(FOLLOWING_URL, followedPage1)] ++ ["following2"]).
Proof.
  split.
  - apply (proj1 getFollowedArtists_returns_all_or_null 2 followsXYZ (signedIn SheetAbsent)
             [(FOLLOWING_URL, followedPage1); ("following2", followedPage2)]).
    + reflexivity.
    + simpl. repeat split; reflexivity.
    + simpl. lia.
  - apply (proj2 (proj2 getFollowedArtists_returns_all_or_null) 2 followsThenFails
             (signedIn SheetAbsent) [(FOLLOWING_URL, followedPage1)] "following2").
    + reflexivity.
    + simpl. repeat split; reflexivity.
    + left. simpl. discriminate.
    + simpl. lia.
Defined.

(** ** updateFollowedArtistsSheet *)

Lemma getFollowedArtists_loop_store followedAt fuel :
  forall acc nextUrl w r w',
    getFollowedArtists_loop fuel followedAt acc nextUrl w = Some (r, w') ->
    store w' = store w.
Proof.
  induction fuel as [|fuel IH]; intros acc nextUrl w r w' H; simpl in H.
  - destruct (truthyOpt nextUrl); [done|]. by simplify_eq.
  - destruct (truthyOpt nextUrl); [|by simplify_eq].
    destruct (negb (hasAccess w)); [by simplify_eq|].
    destruct (_ =? 200)%Z.
    + destruct (parsedBody _) as [p|]; [|by simplify_eq]. by apply IH in H.
    + destruct (_ =? _)%Z; by simplify_eq.
Qed.

(** The walk reads the world only through [hasAccess]. *)
Lemma getFollowedArtists_loop_frame followedAt fuel :
  forall acc nextUrl w v,
    hasAccess w = hasAccess v ->
    match getFollowedArtists_loop fuel followedAt acc nextUrl w with
    | None => getFollowedArtists_loop fuel followedAt acc nextUrl v = None
    | Some (r, w') =>
      exists v', getFollowedArtists_loop fuel followedAt acc nextUrl v = Some (r, v')
                 /\ hasAccess v' = hasAccess w'
    end.
Proof.
  induction fuel as [|fuel IH]; intros acc nextUrl w v Hwv; simpl.
  - destruct (truthyOpt nextUrl); [done|]. eauto.
  - destruct (truthyOpt nextUrl); [|eauto].
    rewrite <- Hwv. destruct (hasAccess w) eqn:Hacc; simpl; [|eauto].
    destruct (_ =? 200)%Z.
    + destruct (parsedBody _) as [p|]; [|eauto]. apply IH. simpl. congruence.
    + destruct (_ =? _)%Z; eauto.
Qed.

Lemma readExistingArtists_lastRow sheet :
  snd (readExistingArtists sheet) = length (default [] sheet).
Proof.
  unfold readExistingArtists. destruct sheet as [data|]; simpl; [|done].
  by destruct (1 <? length data).
Qed.

Lemma ensureHeaderOf_artists_shape sheet :
  ensureHeaderOf artistsHeader sheet (length (default [] sheet))
  = firstArtistRowAfter sheet :: drop 1 (default [] sheet).
Proof.
  unfold firstArtistRowAfter.
  destruct sheet as [grid|]; simpl; [|done].
  destruct grid as [|r rest]; simpl; [done|].
  destruct rest as [|r' rest]; simpl; [|done].
  by destruct (String.eqb _ "").
Qed.

Lemma writeNewArtists_shape sheet new :
  new <> [] ->
  writeNewArtists sheet (length (default [] sheet)) new
  = firstArtistRowAfter sheet :: map renderArtistRow new ++ drop 1 (default [] sheet).
Proof.
  intros Hnew. unfold writeNewArtists. rewrite ensureHeaderOf_artists_shape, length_map.
  destruct new as [|x new]; [done|]. done.
Qed.

(** A run that starts with access and a spreadsheet and whose walk returns
    [followed]. *)
Lemma updateFollowedArtistsSheet_unfold fuel followedAt w sheet :
  hasAccess w = true ->
  store w <> NoSpreadsheet ->
  updateFollowedArtistsSheet fuel followedAt w sheet
  = match getFollowedArtists fuel followedAt w with
    | None => None
    | Some (None, w1) => Some (w1, sheet)
    | Some (Some followed, w1) =>
      match unknownArtists (existingArtistsOf sheet) followed with
      | [] => Some (w1, sheet)
      | new =>
        Some (w1, Some (firstArtistRowAfter sheet
                          :: map renderArtistRow new ++ drop 1 (default [] sheet)))
      end
    end.
Proof.
  intros Hacc Hss. unfold updateFollowedArtistsSheet, isSpotifyAuthorized, existingArtistsOf.
  rewrite Hacc. cbn [negb].
  assert (Hlast := readExistingArtists_lastRow sheet).
  destruct (readExistingArtists sheet) as [E lastRow]. simpl in Hlast. subst lastRow.
  cbn [fst].
  destruct (store w) eqn:Hst; [done| |];
    (destruct (getFollowedArtists fuel followedAt w) as [[[followed|] w1]|]; [|done|done];
     fold (unknownArtists E followed);
     destruct followed as [|a followed]; [done|]; cbn [length Nat.eqb];
     destruct (unknownArtists E (a :: followed)) as [|b new] eqn:Hnew; [done|];
     cbn [length Nat.eqb]; by rewrite writeNewArtists_shape).
Qed.

Lemma existingArtistsOf_populated first r rows :
  existingArtistsOf (Some (first :: r :: rows)) = readTrackIds 2 (r :: rows) JsSet.empty.
Proof. done. Qed.

Lemma existingArtistsOf_sound sheet y :
  y ∈ existingArtistsOf sheet -> truthy y = true /\ y ∈ artistKeyColumn sheet.
Proof.
  destruct sheet as [grid|]; [|by inversion 1].
  destruct grid as [|first [|r rows]]; [by inversion 1..|].
  rewrite existingArtistsOf_populated.
  intros [Hy|Hy]%readTrackIds_sound; [by inversion Hy|done].
Qed.

Lemma existingArtistsOf_complete sheet y :
  truthy y = true -> y ∈ artistKeyColumn sheet -> y ∈ existingArtistsOf sheet.
Proof.
  intros Hy Hin. destruct sheet as [grid|]; [|by inversion Hin].
  destruct grid as [|first [|r rows]]; [by inversion Hin..|].
  rewrite existingArtistsOf_populated. by apply readTrackIds_elem.
Qed.

Lemma unknownArtists_elem E followed a :
  a ∈ unknownArtists E followed
  <-> a ∈ followed /\ artist_id (followed_artist a) ∉ E.
Proof.
  unfold unknownArtists. rewrite list_elem_of_In, filter_In, <- list_elem_of_In.
  rewrite negb_true_iff, JsSet_has_false. done.
Qed.

(** X13. A followed-artists run that starts with access and a spreadsheet
    and whose walk returns the list [followed] adds one row for every
    followed artist whose id is not in the Artist ID column, wherever the
    artist stands in the list (there is no boundary here: an unknown
    artist behind a known one is added too), in the order of the list, as
    one block below the first row and above the rows that were there; when
    no artist is unknown, the sheet is left as it was, an absent sheet
    included. *)
Theorem followed_artists_run_adds_the_unknown_artists :
  forall fuel followedAt w sheet followed w1,
    hasAccess w = true ->
    store w <> NoSpreadsheet ->
    getFollowedArtists fuel followedAt w = Some (Some followed, w1) ->
    let new := unknownArtists (existingArtistsOf sheet) followed in
    updateFollowedArtistsSheet fuel followedAt w sheet
    = Some (w1, match new with
                | [] => sheet
                | _ => Some (firstArtistRowAfter sheet
                               :: map renderArtistRow new ++ drop 1 (default [] sheet))
                end)
    /\ (forall a, a ∈ new <-> a ∈ followed /\
                              artist_id (followed_artist a) ∉ existingArtistsOf sheet)
    /\ new `sublist_of` followed.
Proof.
  intros fuel followedAt w sheet followed w1 Hacc Hss Hget new. split; [|split].
  - rewrite updateFollowedArtistsSheet_unfold, Hget by done. fold new. by destruct new.
  - intros a. apply unknownArtists_elem.
  - unfold new, unknownArtists. generalize followed. intros l.
    induction l as [|x l IH]; simpl; [done|].
    destruct (negb _); [by apply sublist_skip | by apply sublist_cons].
Qed.

Lemma followed_artists_run_adds_the_unknown_artists_witness :
  updateFollowedArtistsSheet 2 followsXYZ (signedIn SheetAbsent) artistsSheetY
  = Some (afterFetches [FOLLOWING_URL; "following2"] (signedIn SheetAbsent),
          Some [artistsHeader;
                renderArtistRow (mkFollowed "x" (Some ["rock"; "pop"]));
                renderArtistRow (mkFollowed "z" (Some []));
                renderArtistRow (mkFollowed "y" None)]).
Proof.
  apply (proj1 (followed_artists_run_adds_the_unknown_artists 2 followsXYZ
                  (signedIn SheetAbsent) artistsSheetY
                  [mkFollowed "x" (Some ["rock"; "pop"]); mkFollowed "y" None;
                   mkFollowed "z" (Some [])]
                  (afterFetches [FOLLOWING_URL; "following2"] (signedIn SheetAbsent))
                  eq_refl ltac:(discriminate) eq_refl)).
Defined.

Lemma updateFollowedArtistsSheet_unauthorized fuel followedAt w sheet :
  hasAccess w = false ->
  updateFollowedArtistsSheet fuel followedAt w sheet = Some (w, sheet).
Proof.
  intros H. unfold updateFollowedArtistsSheet, isSpotifyAuthorized. by rewrite H.
Qed.

Lemma updateFollowedArtistsSheet_no_spreadsheet fuel followedAt w sheet :
  store w = NoSpreadsheet ->
  updateFollowedArtistsSheet fuel followedAt w sheet = Some (w, sheet).
Proof.
  intros H. unfold updateFollowedArtistsSheet, isSpotifyAuthorized.
  destruct (negb (hasAccess w)); [done|]. by rewrite H.
Qed.

Lemma artistKeyColumn_after first (rows old : list (list string)) :
  artistKeyColumn (Some (first :: rows ++ old))
  = map (fun row => default "" (row !! 2)) rows ++ map (fun row => default "" (row !! 2)) old.
Proof. unfold artistKeyColumn. simpl. by rewrite drop_0, map_app. Qed.

(** X14. Running the followed-artists update again, against the same
    upstream and with the same bound, leaves the sheet as the first run
    left it, provided the followed artists have non-empty ids (the key
    column reader skips blank cells). *)
Theorem followed_artists_rerun_changes_nothing :
  forall fuel followedAt w sheet w1 sheet1,
    updateFollowedArtistsSheet fuel followedAt w sheet = Some (w1, sheet1) ->
    (forall followed wa,
        getFollowedArtists fuel followedAt w = Some (Some followed, wa) ->
        Forall (fun a => truthy (artist_id (followed_artist a)) = true) followed) ->
    exists w2, updateFollowedArtistsSheet fuel followedAt w1 sheet1 = Some (w2, sheet1).
Proof.
  intros fuel followedAt w sheet w1 sheet1 Hrun Hids.
  destruct (hasAccess w) eqn:Hacc; cycle 1.
  { rewrite updateFollowedArtistsSheet_unauthorized in Hrun by done.
    injection Hrun as <- <-. exists w. by apply updateFollowedArtistsSheet_unauthorized. }
  assert (Hdec : store w = NoSpreadsheet \/ store w <> NoSpreadsheet)
    by (destruct (store w); [by left | by right | by right]).
  destruct Hdec as [Hss|Hss].
  { rewrite updateFollowedArtistsSheet_no_spreadsheet in Hrun by done.
    injection Hrun as <- <-. exists w. by apply updateFollowedArtistsSheet_no_spreadsheet. }
  rewrite updateFollowedArtistsSheet_unfold in Hrun by done.
  destruct (getFollowedArtists fuel followedAt w) as [[[followed|] wa]|] eqn:Hget; [| |done].
  - assert (Hst : store wa = store w) by (by apply getFollowedArtists_loop_store in Hget).
    destruct (getFollowedArtists_loop_nonnull followedAt fuel [] (Some FOLLOWING_URL)
                w followed wa eq_refl Hget) as (chain0 & _ & _ & Hwa & _ & _).
    assert (Haa : hasAccess wa = true) by (by rewrite Hwa).
    pose proof (getFollowedArtists_loop_frame followedAt fuel [] (Some FOLLOWING_URL)
                  w wa ltac:(congruence)) as Hf.
    pose proof (Hids followed wa eq_refl) as Htruthy.
    unfold getFollowedArtists in Hget. rewrite Hget in Hf. destruct Hf as (v' & Hv & _).
    assert (Hw1 : w1 = wa)
      by (destruct (unknownArtists _ followed); by injection Hrun as <- _).
    subst w1. exists v'.
    rewrite updateFollowedArtistsSheet_unfold by congruence.
    unfold getFollowedArtists. rewrite Hv.
    destruct (unknownArtists (existingArtistsOf sheet) followed) as [|b new] eqn:Hnew.
    + injection Hrun as <-. by rewrite Hnew.
    + injection Hrun as <-.
      set (sheet1 := Some (firstArtistRowAfter sheet
                             :: map renderArtistRow (b :: new) ++ drop 1 (default [] sheet))).
      assert (Hnone : unknownArtists (existingArtistsOf sheet1) followed = []).
      { destruct (unknownArtists (existingArtistsOf sheet1) followed) as [|a rest] eqn:Hu;
          [done|]. exfalso.
        assert (Ha : a ∈ unknownArtists (existingArtistsOf sheet1) followed)
          by (rewrite Hu; by left).
        apply unknownArtists_elem in Ha as [Ha Hnot]. apply Hnot.
        assert (Hat : truthy (artist_id (followed_artist a)) = true)
          by (rewrite Forall_forall in Htruthy; by apply Htruthy).
        apply existingArtistsOf_complete; [done|].
        unfold sheet1. rewrite artistKeyColumn_after. apply elem_of_app.
        destruct (JsSet.has (artist_id (followed_artist a)) (existingArtistsOf sheet)) eqn:Hk.
        - right. apply JsSet_has_true in Hk. by apply existingArtistsOf_sound in Hk as [_ ?].
        - left. rewrite map_map. apply list_elem_of_fmap. exists a. split; [done|].
          rewrite <- Hnew. apply unknownArtists_elem. split; [done|].
          by apply JsSet_has_false. }
      subst sheet1. cbn [map app] in Hnone. by rewrite Hnone.
  - injection Hrun as <- <-.
    assert (Hst : store wa = store w) by (by apply getFollowedArtists_loop_store in Hget).
    destruct (hasAccess wa) eqn:Haa.
    + pose proof (getFollowedArtists_loop_frame followedAt fuel [] (Some FOLLOWING_URL)
                    w wa ltac:(congruence)) as Hf.
      unfold getFollowedArtists in Hget. rewrite Hget in Hf. destruct Hf as (v' & Hv & _).
      exists v'. rewrite updateFollowedArtistsSheet_unfold by congruence.
      unfold getFollowedArtists. by rewrite Hv.
    + exists wa. by apply updateFollowedArtistsSheet_unauthorized.
Qed.

Lemma followed_artists_rerun_changes_nothing_witness :
  exists w2,
    updateFollowedArtistsSheet 2 followsXYZ
      (afterFetches [FOLLOWING_URL; "following2"] (signedIn SheetAbsent))
      (Some [artistsHeader;
             renderArtistRow (mkFollowed "x" (Some ["rock"; "pop"]));
             renderArtistRow (mkFollowed "z" (Some []));
             renderArtistRow (mkFollowed "y" None)])
    = Some (w2, Some [artistsHeader;
                      renderArtistRow (mkFollowed "x" (Some ["rock"; "pop"]));
                      renderArtistRow (mkFollowed "z" (Some []));
                      renderArtistRow (mkFollowed "y" None)]).
Proof.
  apply (followed_artists_rerun_changes_nothing 2 followsXYZ (signedIn SheetAbsent)
           artistsSheetY).
  - vm_compute. reflexivity.
  - intros followed wa H. vm_compute in H. injection H as <- _. repeat constructor.
Defined.

(** ** updateAllSpotifyData *)

(** X15. In the scheduled entry point the two updates share the access:
    when the liked-songs update ends without access (it started without
    it, or a request of it was answered 401), the followed-artists update
    that follows makes no request and leaves its sheet as it was.  In
    particular a 401 on the first page of saved tracks ends the whole run
    after that one request.  Otherwise the followed-artists update runs in
    the world the first update left, and it never touches the liked-songs
    sheet. *)
Theorem updateAllSpotifyData_shares_the_access :
  (forall fuel up followedAt w sheet w1,
      updateLikedSongsSheet fuel up w = Some w1 ->
      hasAccess w1 = false ->
      updateAllSpotifyData fuel up followedAt w sheet = Some (w1, sheet))
  /\
  (forall fuel up followedAt w sheet,
      hasAccess w = true ->
      store w <> NoSpreadsheet ->
      getResponseCode (savedTracksAt up SAVED_TRACKS_URL) = 401%Z ->
      0 < fuel ->
      updateAllSpotifyData fuel up followedAt w sheet
      = Some (resetSpotifyService (fetch SAVED_TRACKS_URL w), sheet))
  /\
  (forall fuel up followedAt w sheet w2 sheet2,
      updateAllSpotifyData fuel up followedAt w sheet = Some (w2, sheet2) ->
      exists w1,
        updateLikedSongsSheet fuel up w = Some w1 /\
        updateFollowedArtistsSheet fuel followedAt w1 sheet = Some (w2, sheet2) /\
        store w2 = store w1).
Proof.
  split; [|split].
  - intros fuel up followedAt w sheet w1 Hrun Hno. unfold updateAllSpotifyData.
    rewrite Hrun. by apply updateFollowedArtistsSheet_unauthorized.
  - intros fuel up followedAt w sheet Hacc Hss H401 Hfuel. destruct fuel; [lia|].
    unfold updateAllSpotifyData. rewrite updateLikedSongsSheet_unfold by done.
    unfold getNewSavedTracks. simpl. rewrite Hacc. simpl. rewrite H401. simpl.
    by apply updateFollowedArtistsSheet_unauthorized.
  - intros fuel up followedAt w sheet w2 sheet2 Hrun. unfold updateAllSpotifyData in Hrun.
    destruct (updateLikedSongsSheet fuel up w) as [w1|]; [|done].
    exists w1. split; [done|]. split; [done|].
    unfold updateFollowedArtistsSheet in Hrun.
    destruct (negb (isSpotifyAuthorized w1)); [by injection Hrun as <- _|].
    destruct (store w1) eqn:Hst; [by injection Hrun as <- _| |];
      (destruct (readExistingArtists sheet) as [E lastRow];
       destruct (getFollowedArtists fuel followedAt w1) as [[[followed|] wa]|] eqn:Hget;
         [|injection Hrun as <- _; rewrite <- Hst; by apply getFollowedArtists_loop_store in Hget
          |done];
       apply getFollowedArtists_loop_store in Hget; rewrite <- Hst, <- Hget;
       destruct (length followed =? 0); [by injection Hrun as <- _|];
       destruct (length _ =? 0); by injection Hrun as <- _).
Qed.

Lemma updateAllSpotifyData_shares_the_access_witness :
  updateAllSpotifyData 1 expiredToken followsXYZ (signedIn oldSheet) artistsSheetY
  = Some (resetSpotifyService (fetch SAVED_TRACKS_URL (signedIn oldSheet)), artistsSheetY).
Proof.
  apply (proj1 (proj2 updateAllSpotifyData_shares_the_access) 1 expiredToken followsXYZ
           (signedIn oldSheet) artistsSheetY).
  - reflexivity.
  - discriminate.
  - reflexivity.
  - lia.
Defined.

(** ** The full export *)

Lemma getAllMySavedTracks_loop_store up fuel :
  forall acc nextUrl w r w',
    getAllMySavedTracks_loop fuel up acc nextUrl w = Some (r, w') ->
    store w' = store w.
Proof.
  induction fuel as [|fuel IH]; intros acc nextUrl w r w' H; simpl in H.
  - destruct (truthyOpt nextUrl); [done|]. by simplify_eq.
  - destruct (truthyOpt nextUrl); [|by simplify_eq].
    destruct (negb (hasAccess w)); [by simplify_eq|].
    destruct (_ =? 200)%Z.
    + destruct (parsedBody _) as [p|]; [|by simplify_eq]. by apply IH in H.
    + repeat (destruct (_ =? _)%Z); by simplify_eq.
Qed.

Lemma saveLikedSongsToSheet_unfold fuel up w :
  hasAccess w = true ->
  saveLikedSongsToSheet fuel up w
  = match getAllMySavedTracks fuel up w with
    | None => None
    | Some (None, w1) => Some w1
    | Some (Some saved, w1) =>
      if length saved =? 0 then Some w1
      else
        let w2 := snd (fetchGenres up (JsSet.toArray (collectArtistIds saved)) w1) in
        match store w with
        | NoSpreadsheet => Some w2
        | _ => Some (setStore
                       (SheetPresent (header :: map (renderRow (genreIndex up saved w1)) saved))
                       w2)
        end
    end.
Proof.
  intros Hacc. unfold saveLikedSongsToSheet, isSpotifyAuthorized, genreIndex.
  rewrite Hacc. cbn [negb].
  destruct (getAllMySavedTracks fuel up w) as [[[saved|] w1]|] eqn:Hget; [|done|done].
  destruct (length saved =? 0); [done|].
  pose proof (fetchGenres_store up (JsSet.toArray (collectArtistIds saved)) w1) as Hst.
  apply getAllMySavedTracks_loop_store in Hget.
  destruct (fetchGenres up (JsSet.toArray (collectArtistIds saved)) w1) as [m w2].
  cbn [fst snd] in *. rewrite Hst, Hget. done.
Qed.

(** X16. The full export replaces the sheet: when the walk returns a
    non-empty library and there is a spreadsheet, the sheet afterwards is
    the header followed by one row per saved track, in the library's
    order, whatever the sheet held before (rows of tracks no longer liked
    are gone).  When the walk fails or the library is empty the sheet is
    not cleared: the store is left as it was. *)
Theorem saveLikedSongsToSheet_replaces_the_sheet :
  (forall fuel up w saved w1,
      hasAccess w = true ->
      store w <> NoSpreadsheet ->
      getAllMySavedTracks fuel up w = Some (Some saved, w1) ->
      saved <> [] ->
      exists w',
        saveLikedSongsToSheet fuel up w = Some w' /\
        store w' = SheetPresent (header :: map (renderRow (genreIndex up saved w1)) saved))
  /\
  (forall fuel up w r w1,
      getAllMySavedTracks fuel up w = Some (r, w1) ->
      r = None \/ r = Some [] ->
      exists w', saveLikedSongsToSheet fuel up w = Some w' /\ store w' = store w).
Proof.
  split.
  - intros fuel up w saved w1 Hacc Hss Hget Hne.
    rewrite saveLikedSongsToSheet_unfold, Hget by done.
    destruct saved as [|x saved]; [done|]. cbn [length Nat.eqb].
    destruct (store w); [done| |]; eexists; split; done.
  - intros fuel up w r w1 Hget Hr.
    destruct (hasAccess w) eqn:Hacc; cycle 1.
    { exists w. unfold saveLikedSongsToSheet, isSpotifyAuthorized. by rewrite Hacc. }
    exists w1. rewrite saveLikedSongsToSheet_unfold, Hget by done.
    apply getAllMySavedTracks_loop_store in Hget. by destruct Hr as [-> | ->].
Qed.

Lemma saveLikedSongsToSheet_replaces_the_sheet_witness :
  (exists w',
      saveLikedSongsToSheet 1 libraryAB (signedIn oldSheet) = Some w' /\
      store w'
      = SheetPresent
          (header :: map (renderRow
                            (genreIndex libraryAB [mkItem "a" []; mkItem "b" []]
                               (afterFetches [SAVED_TRACKS_URL] (signedIn oldSheet))))
                       [mkItem "a" []; mkItem "b" []]))
  /\
  (exists w', saveLikedSongsToSheet 1 emptyLibrary (signedIn oldSheet) = Some w'
              /\ store w' = store (signedIn oldSheet)).
Proof.
  split.
  - apply (proj1 saveLikedSongsToSheet_replaces_the_sheet 1 libraryAB (signedIn oldSheet)
             [mkItem "a" []; mkItem "b" []]
             (afterFetches [SAVED_TRACKS_URL] (signedIn oldSheet))).
    + reflexivity.
    + discriminate.
    + reflexivity.
    + discriminate.
  - apply (proj2 saveLikedSongsToSheet_replaces_the_sheet 1 emptyLibrary (signedIn oldSheet)
             (Some []) (afterFetches [SAVED_TRACKS_URL] (signedIn oldSheet))).
    + reflexivity.
    + by right.
Defined.

(** X17. On a first run, when the sheet is absent or has no row, the
    incremental update does exactly what the full export does: the same
    requests, the same sheet, the same failures. *)
Theorem first_incremental_run_is_the_full_export :
  forall fuel up w,
    store w = SheetAbsent \/ store w = SheetPresent [] ->
    updateLikedSongsSheet fuel up w = saveLikedSongsToSheet fuel up w.
Proof.
  intros fuel up w Hst.
  destruct (hasAccess w) eqn:Hacc; cycle 1.
  { rewrite updateLikedSongsSheet_unauthorized by done.
    unfold saveLikedSongsToSheet, isSpotifyAuthorized. by rewrite Hacc. }
  assert (Hss : store w <> NoSpreadsheet) by (destruct Hst as [-> | ->]; done).
  assert (HE : existingOf (store w) = JsSet.empty) by (destruct Hst as [-> | ->]; done).
  rewrite updateLikedSongsSheet_unfold, saveLikedSongsToSheet_unfold, HE by done.
  replace (getNewSavedTracks fuel up JsSet.empty w) with (getAllMySavedTracks fuel up w)
    by (symmetry; apply walkers_agree_loop; intros; apply known_empty).
  destruct (getAllMySavedTracks fuel up w) as [[[saved|] w1]|]; [|done|done].
  destruct (length saved =? 0) eqn:Hlen; [done|].
  destruct saved as [|x saved]; [done|].
  rewrite writeNewTracks_shape by done.
  destruct Hst as [Hs|Hs]; rewrite Hs; unfold firstRowAfter, dataRows, gridOf;
    cbn [getSheetByName default length ensureHeader Nat.eqb app drop];
    by rewrite app_nil_r.
Qed.

Lemma first_incremental_run_is_the_full_export_witness :
  updateLikedSongsSheet 1 libraryAB (signedIn SheetAbsent)
  = saveLikedSongsToSheet 1 libraryAB (signedIn SheetAbsent).
Proof.
  apply (first_incremental_run_is_the_full_export 1 libraryAB (signedIn SheetAbsent)).
  by left.
Defined.

(** ** The appending variant *)

Lemma overwriteRows_nil rows : overwriteRows rows [] = rows.
Proof. induction rows as [|r rows IH]; simpl; [done|]. by rewrite IH. Qed.

Lemma setRowsFrom_end rows grid : setRowsFrom (length grid) rows grid = grid ++ rows.
Proof.
  unfold setRowsFrom. rewrite Nat.sub_diag. simpl. rewrite app_nil_r.
  rewrite firstn_all, drop_all. by rewrite overwriteRows_nil.
Qed.

Lemma appendNewTracks_shape (s : Store) m nt :
  nt <> [] ->
  appendNewTracks (getSheetByName s) (length (gridOf s)) m nt
  = firstRowAfter s :: dataRows s ++ map (renderRow m) nt.
Proof.
  intros Hnt. unfold appendNewTracks. rewrite ensureHeader_shape, length_map.
  destruct nt as [|x nt]; [done|]. cbn [length Nat.ltb Nat.leb].
  assert (Hlen : match getSheetByName s with
                 | None => 1
                 | Some _ => if length (gridOf s) =? 0 then 1 else length (gridOf s)
                 end = length (firstRowAfter s :: dataRows s)).
  { unfold dataRows, gridOf. destruct (getSheetByName s) as [grid|]; simpl; [|done].
    destruct grid as [|r grid]; simpl; [done|]. by rewrite drop_0. }
  rewrite Hlen. by rewrite setRowsFrom_end.
Qed.

Lemma updateLikedSongsSheetAppending_unfold fuel up w :
  hasAccess w = true ->
  store w <> NoSpreadsheet ->
  updateLikedSongsSheetAppending fuel up w
  = match getNewSavedTracks fuel up (existingOf (store w)) w with
    | None => None
    | Some (None, w1) => Some w1
    | Some (Some newTracks, w1) =>
      if length newTracks =? 0 then Some w1
      else
        Some (setStore
                (SheetPresent
                   (appendNewTracks (getSheetByName (store w)) (length (gridOf (store w)))
                      (genreIndex up newTracks w1) newTracks))
                (snd (fetchGenres up (JsSet.toArray (collectArtistIds newTracks)) w1)))
    end.
Proof.
  intros Hacc Hss. unfold updateLikedSongsSheetAppending, isSpotifyAuthorized, existingOf,
    genreIndex, gridOf.
  rewrite Hacc. cbn [negb].
  destruct (store w) as [| |grid] eqn:Hst; [done| |].
  - simpl.
    destruct (getNewSavedTracks fuel up JsSet.empty w) as [[[nt|] w1]|]; [|done|done].
    destruct (length nt =? 0); [done|].
    by destruct (fetchGenres up (JsSet.toArray (collectArtistIds nt)) w1).
  - simpl. destruct (1 <? length grid); simpl;
      (match goal with
       | |- context [getNewSavedTracks fuel up ?E w] =>
         destruct (getNewSavedTracks fuel up E w) as [[[nt|] w1]|]; [|done|done]
       end;
       destruct (length nt =? 0); [done|];
       by destruct (fetchGenres up (JsSet.toArray (collectArtistIds nt)) w1)).
Qed.

(** X18. The earlier variant of the update differs from the current one
    only in where the new rows go: it writes them after the last row, in
    the detector's order, every existing row keeping its place.  Against
    the same upstream and store the two variants end alike (both return or
    neither), with the same access and the same requests, and leave the
    same rows up to their order; the one changes the store exactly when
    the other does. *)
Theorem appending_variant_leaves_the_same_rows :
  (forall fuel up w nt wa,
      hasAccess w = true ->
      store w <> NoSpreadsheet ->
      getNewSavedTracks fuel up (existingOf (store w)) w = Some (Some nt, wa) ->
      nt <> [] ->
      exists w',
        updateLikedSongsSheetAppending fuel up w = Some w' /\
        store w'
        = SheetPresent (firstRowAfter (store w)
                          :: dataRows (store w)
                          ++ map (renderRow (genreIndex up nt wa)) nt))
  /\
  (forall fuel up w,
      match updateLikedSongsSheet fuel up w, updateLikedSongsSheetAppending fuel up w with
      | Some w', Some w'' =>
        hasAccess w' = hasAccess w'' /\ fetched w' = fetched w'' /\
        gridOf (store w') ≡ₚ gridOf (store w'') /\
        (store w' = store w <-> store w'' = store w)
      | None, None => True
      | _, _ => False
      end).
Proof.
  split.
  - intros fuel up w nt wa Hacc Hss Hnew Hnt.
    rewrite updateLikedSongsSheetAppending_unfold, Hnew by done.
    destruct nt as [|x nt]; [done|]. cbn [length Nat.eqb].
    eexists. split; [done|]. simpl. by rewrite (appendNewTracks_shape (store w)).
  - intros fuel up w.
    destruct (hasAccess w) eqn:Hacc; cycle 1.
    { rewrite updateLikedSongsSheet_unauthorized by done.
      unfold updateLikedSongsSheetAppending, isSpotifyAuthorized. rewrite Hacc. simpl.
      by repeat split. }
    assert (Hdec : store w = NoSpreadsheet \/ store w <> NoSpreadsheet)
      by (destruct (store w); [by left | by right | by right]).
    destruct Hdec as [Hss|Hss].
    { unfold updateLikedSongsSheet, updateLikedSongsSheetAppending, isSpotifyAuthorized.
      rewrite Hacc, Hss. simpl. by repeat split. }
    rewrite updateLikedSongsSheet_unfold, updateLikedSongsSheetAppending_unfold by done.
    destruct (getNewSavedTracks fuel up (existingOf (store w)) w) as [[[nt|] wa]|];
      [|by repeat split|done].
    destruct nt as [|x nt]; [by repeat split|]. cbn [length Nat.eqb].
    rewrite writeNewTracks_shape, appendNewTracks_shape by done.
    cbn [hasAccess fetched store setStore gridOf getSheetByName default].
    split; [done|]. split; [done|]. split.
    + apply Permutation_cons; [done|]. apply Permutation_app_comm.
    + split; intros H; exfalso.
      * apply (f_equal gridOf) in H. apply (f_equal length) in H.
        unfold gridOf at 1 in H. unfold dataRows in H. simpl in H.
        rewrite length_app, length_drop, length_map in H. lia.
      * apply (f_equal gridOf) in H. apply (f_equal length) in H.
        unfold gridOf at 1 in H. unfold dataRows in H. simpl in H.
        rewrite length_app, length_drop in H. simpl in H. lia.
Qed.

Lemma appending_variant_leaves_the_same_rows_witness :
  exists w',
    updateLikedSongsSheetAppending 1 libraryAB (signedIn oldSheet) = Some w' /\
    store w'
    = SheetPresent
        (firstRowAfter (store (signedIn oldSheet))
           :: dataRows (store (signedIn oldSheet))
           ++ map (renderRow (genreIndex libraryAB [mkItem "a" []; mkItem "b" []]
                                (afterFetches [SAVED_TRACKS_URL] (signedIn oldSheet))))
                [mkItem "a" []; mkItem "b" []]).
Proof.
  apply (proj1 appending_variant_leaves_the_same_rows 1 libraryAB (signedIn oldSheet)
           [mkItem "a" []; mkItem "b" []]
           (afterFetches [SAVED_TRACKS_URL] (signedIn oldSheet))).
  - reflexivity.
  - discriminate.
  - vm_compute. reflexivity.
  - discriminate.
Defined.

(** ** Triggers *)

Lemma filter_filter_andb {A} (f g : A -> bool) (l : list A) :
  List.filter f (List.filter g l) = List.filter (fun x => g x && f x) l.
Proof.
  induction l as [|a l IH]; simpl; [done|].
  destruct (g a); simpl; [|done]. destruct (f a); simpl; by rewrite IH.
Qed.

Lemma filter_none {A} (p : A -> bool) (l : list A) :
  (forall x, In x l -> p x = false) -> List.filter p l = [].
Proof.
  induction l as [|a l IH]; simpl; intros H; [done|].
  rewrite (H a) by auto. apply IH. auto.
Qed.

(** Deleting, one after the other, the listed triggers that satisfy [sel]
    removes from the project every trigger whose id is the id of one of
    them. *)
Lemma fold_deleteTrigger (sel : Trigger -> bool) (l acc : list Trigger) :
  fold_left (fun project trigger =>
               if sel trigger then deleteTrigger trigger project else project) l acc
  = List.filter
      (fun x => negb (existsb (fun t => sel t && String.eqb (getUniqueId x) (getUniqueId t)) l))
      acc.
Proof.
  revert acc. induction l as [|t l IH]; intros acc; cbn [fold_left existsb].
  - simpl. induction acc as [|a acc IHa]; simpl; [done|]. by f_equal.
  - rewrite IH. destruct (sel t) eqn:Hsel.
    + unfold deleteTrigger. rewrite filter_filter_andb.
      apply List.filter_ext. intros x. simpl.
      by destruct (String.eqb (getUniqueId x) (getUniqueId t)).
    + apply List.filter_ext. intros x. by simpl.
Qed.

Lemma NoDup_map_injective {A B} (f : A -> B) (l : list A) x y :
  NoDup (map f l) -> In x l -> In y l -> f x = f y -> x = y.
Proof.
  induction l as [|a l IH]; simpl; [done|].
  intros Hnd Hx Hy Hf. apply NoDup_cons in Hnd as [Hna Hnd].
  destruct Hx as [->|Hx], Hy as [->|Hy]; [done| | |by apply IH].
  - exfalso. apply Hna. rewrite Hf. apply list_elem_of_In. by apply in_map.
  - exfalso. apply Hna. rewrite <- Hf. apply list_elem_of_In. by apply in_map.
Qed.

(** X19. [deleteTriggers] leaves the project without any trigger, whatever
    triggers it had. *)
Theorem deleteTriggers_leaves_no_trigger :
  forall project, deleteTriggers project = [].
Proof.
  intros project. unfold deleteTriggers.
  destruct project as [|t project]; [done|]. cbn [length Nat.eqb].
  rewrite (fold_deleteTrigger (fun _ => true)).
  apply filter_none. intros x Hx. apply negb_false_iff, existsb_exists.
  exists x. split; [done|]. simpl. apply String.eqb_refl.
Qed.

(** X20. After [createDailyTrigger] the project has exactly one trigger for
    [updateAllSpotifyData], the new daily one at hour 3, whatever it had
    before.  When the triggers' ids are distinct, the triggers of other
    handlers are all kept, in their order, before the new one. *)
Theorem createDailyTrigger_leaves_one_daily_trigger :
  (forall newId project,
      triggersFor TRIGGER_FUNCTION_NAME (createDailyTrigger newId project)
      = [{| getHandlerFunction := TRIGGER_FUNCTION_NAME; getUniqueId := newId;
            daily := Some (1, 3, 0) |}])
  /\
  (forall newId project,
      NoDup (map getUniqueId project) ->
      createDailyTrigger newId project
      = List.filter
          (fun t => negb (String.eqb (getHandlerFunction t) TRIGGER_FUNCTION_NAME)) project
        ++ [{| getHandlerFunction := TRIGGER_FUNCTION_NAME; getUniqueId := newId;
               daily := Some (1, 3, 0) |}]).
Proof.
  split.
  - intros newId project. unfold createDailyTrigger, triggersFor.
    rewrite (fold_deleteTrigger
               (fun t => String.eqb (getHandlerFunction t) TRIGGER_FUNCTION_NAME)).
    rewrite List.filter_app, filter_filter_andb.
    rewrite filter_none; [done|].
    intros x Hx.
    destruct (String.eqb (getHandlerFunction x) TRIGGER_FUNCTION_NAME) eqn:Hh;
      [|by rewrite andb_false_r].
    rewrite andb_true_r. apply negb_false_iff, existsb_exists.
    exists x. split; [done|]. rewrite Hh. simpl. apply String.eqb_refl.
  - intros newId project Hnd. unfold createDailyTrigger.
    rewrite (fold_deleteTrigger
               (fun t => String.eqb (getHandlerFunction t) TRIGGER_FUNCTION_NAME)).
    f_equal. apply List.filter_ext_in. intros x Hx. f_equal.
    destruct (String.eqb (getHandlerFunction x) TRIGGER_FUNCTION_NAME) eqn:Hh.
    + apply existsb_exists. exists x. split; [done|]. rewrite Hh. simpl.
      apply String.eqb_refl.
    + apply not_true_is_false. intros Hex. apply existsb_exists in Hex as [t [Ht Hb]].
      apply andb_true_iff in Hb as [Hsel Hid]. apply String.eqb_eq in Hid.
      assert (x = t) by (by apply (NoDup_map_injective getUniqueId project)).
      subst t. congruence.
Qed.

Lemma createDailyTrigger_leaves_one_daily_trigger_witness :
  createDailyTrigger "4" someTriggers
  = List.filter
      (fun t => negb (String.eqb (getHandlerFunction t) TRIGGER_FUNCTION_NAME)) someTriggers
    ++ [{| getHandlerFunction := TRIGGER_FUNCTION_NAME; getUniqueId := "4";
           daily := Some (1, 3, 0) |}].
Proof.
  apply (proj2 createDailyTrigger_leaves_one_daily_trigger "4" someTriggers).
  apply (bool_decide_unpack _). vm_compute. exact I.
Defined.
